(** * KERN front end: the lexer and the recursive-descent parser

    A shallow embedding of [kern-lexer/test_lexer.py] and
    [kern-parser/test_parser.py], and the properties of the KERN
    specification checked against it.

    Source text is a Python [str].  The embedding covers the strings whose
    code points are below 256 (Rocq's [string] of 8-bit [ascii], read as
    Latin-1), on which Python's character classes are written out in full. *)

From Stdlib Require Import ZArith Lia List String Ascii Bool.
From Stdlib Require Import Decimal DecimalFacts DecimalN DecimalString.
Import ListNotations.

Local Open Scope string_scope.
Local Open Scope Z_scope.

(** ** Python built-ins the two modules call *)

Module Py.

(** The three exceptions the front end can raise.  The source never
    raises the last two on purpose: they are what Python does with
    [raise obj] and [except C] when the class does not derive from
    [BaseException]. *)
Inductive exn : Type :=
| ValueError        (* int() given a text that is no decimal literal,
                       or one of too many digits *)
| TypeError_raise   (* exceptions must derive from BaseException *)
| TypeError_except. (* catching classes that do not inherit from
                       BaseException is not allowed *)

(** A dynamically typed payload: [None], a [str] or an [int]. *)
Inductive value : Type :=
| VNone
| VStr (s : string)
| VInt (n : Z).

Definition NUL : ascii := "000"%char.
Definition LF : ascii := "010"%char.
Definition QUOTE : ascii := "034"%char.      (* the double quote *)

Definition code (c : ascii) : N := N_of_ascii c.

Definition between (lo hi n : N) : bool := ((lo <=? n) && (n <=? hi))%N.

(** [str.isspace] on one character: general category Zs, or
    bidirectional class WS, B or S. *)
Definition isspace (c : ascii) : bool :=
  let n := code c in
  between 9 13 n || between 28 32 n || (n =? 133)%N || (n =? 160)%N.

(** [str.isalpha] on one character: general category L*. *)
Definition isalpha (c : ascii) : bool :=
  let n := code c in
  between 65 90 n || between 97 122 n
  || (n =? 170)%N || (n =? 181)%N || (n =? 186)%N
  || between 192 214 n || between 216 246 n || between 248 255 n.

(** [str.isdigit] on one character: Numeric_Type Decimal or Digit, so
    the superscripts U+00B2, U+00B3 and U+00B9 are digits too. *)
Definition isdigit (c : ascii) : bool :=
  let n := code c in
  between 48 57 n || (n =? 178)%N || (n =? 179)%N || (n =? 185)%N.

(** [s[a:b]] for [0 <= a] and [0 <= b]: both ends are clamped to the
    string, and the slice is empty when [b <= a]. *)
Definition slice (s : string) (a b : nat) : string := substring a (b - a) s.

(** [s[i]] for [0 <= i < len(s)]. *)
Definition index (s : string) (i : nat) : ascii :=
  match String.get i s with
  | Some c => c
  | None => NUL
  end.

(** [sys.get_int_max_str_digits()]: the number of digits beyond which
    CPython (3.11, and the security releases of the older lines) refuses
    to convert between [str] and [int].  The default is in force: the
    two modules never change it. *)
Definition int_max_str_digits : Z := 4300.

(** [int(s)] on the texts [_read_number] builds (characters that satisfy
    [isdigit], possibly none): a non-empty run of decimal digits is read
    in base ten unless it has more than [int_max_str_digits] digits
    (leading zeros count); anything else raises [ValueError]. *)
Definition int (s : string) : exn + Z :=
  match s with
  | EmptyString => inl ValueError
  | _ =>
      match NilEmpty.uint_of_string s with
      | Some d =>
          if int_max_str_digits <? Z.of_nat (String.length s)
          then inl ValueError
          else inr (Z.of_N (N.of_uint d))
      | None => inl ValueError
      end
  end.

(** [str(n)] for an [int]: the decimal numeral, no leading zeros.  The
    digit limit holds for [str] too, but the lexer calls it only on a
    number [int] has returned, whose numeral is no longer than the
    literal it was read from (lemma [int_str_length]). *)
Definition str (n : Z) : string :=
  match n with
  | Zneg p => String "-" (NilEmpty.string_of_uint (N.to_uint (Npos p)))
  | _ => NilEmpty.string_of_uint (N.to_uint (Z.to_N n))
  end.

Definition len (s : string) : nat := String.length s.

End Py.

(** ** kern-lexer/test_lexer.py *)

(** [class TokenType]: a closed set of string constants.  [IF] is reserved
    in Rocq, hence [IF_]. *)
Inductive TokenType : Type :=
| ENTITY | RULE | FLOW | CONSTRAINT | IF_ | THEN | ELSE | LOOP | BREAK
| HALT | AND | OR
| IDENTIFIER | NUMBER
| COLON | COMMA | DOT | LEFT_BRACE | RIGHT_BRACE | LEFT_PAREN | RIGHT_PAREN
| EQUAL | NOT_EQUAL | GREATER | LESS | GREATER_EQUAL | LESS_EQUAL
| ASSIGNMENT
| ILLEGAL
| EOF.

Definition TokenType_eq_dec (a b : TokenType) : {a = b} + {a <> b}.
Proof. decide equality. Defined.

Definition TokenType_eqb (a b : TokenType) : bool :=
  if TokenType_eq_dec a b then true else false.

(** The string each constant is bound to. *)
Definition TokenType_name (t : TokenType) : string :=
  match t with
  | ENTITY => "ENTITY" | RULE => "RULE" | FLOW => "FLOW"
  | CONSTRAINT => "CONSTRAINT" | IF_ => "IF" | THEN => "THEN"
  | ELSE => "ELSE" | LOOP => "LOOP" | BREAK => "BREAK" | HALT => "HALT"
  | AND => "AND" | OR => "OR"
  | IDENTIFIER => "IDENTIFIER" | NUMBER => "NUMBER"
  | COLON => "COLON" | COMMA => "COMMA" | DOT => "DOT"
  | LEFT_BRACE => "LEFT_BRACE" | RIGHT_BRACE => "RIGHT_BRACE"
  | LEFT_PAREN => "LEFT_PAREN" | RIGHT_PAREN => "RIGHT_PAREN"
  | EQUAL => "EQUAL" | NOT_EQUAL => "NOT_EQUAL" | GREATER => "GREATER"
  | LESS => "LESS" | GREATER_EQUAL => "GREATER_EQUAL"
  | LESS_EQUAL => "LESS_EQUAL" | ASSIGNMENT => "ASSIGNMENT"
  | ILLEGAL => "ILLEGAL" | EOF => "EOF"
  end.

(** [class Token] *)
Module Token.
Record t : Type := mk {
  token_type : TokenType;
  value : Py.value;
  line : Z;
  column : Z;
  position : Z
}.
End Token.

Definition is_letter (ch : ascii) : bool :=
  Py.isalpha ch || Ascii.eqb ch "_".

(** [class Lexer] *)
Module Lexer.
Import Py.

Record t : Type := mk {
  input : string;
  position : nat;
  read_position : nat;
  ch : ascii;
  line : Z;
  column : Z
}.

Definition _read_char (self : t) : t :=
  let c :=
    if (len (input self) <=? read_position self)%nat then NUL
    else index (input self) (read_position self) in
  let column1 := column self + 1 in
  if Ascii.eqb c LF then
    mk (input self) (read_position self) (S (read_position self)) c
       (line self + 1) 0
  else
    mk (input self) (read_position self) (S (read_position self)) c
       (line self) column1.

Definition _peek_char (self : t) : ascii :=
  if (len (input self) <=? read_position self)%nat then NUL
  else index (input self) (read_position self).

(** [while cond(self.ch): body(self)].  Every loop body of the lexer ends
    in [_read_char], so the loop is over once the read position has left
    the input; [loop_bound] iterations are enough from any state (lemma
    [while_ch_unfold] below: the function satisfies the loop equation). *)
Fixpoint while_ch_n (n : nat) (cond : ascii -> bool) (body : t -> t)
    (self : t) : t :=
  match n with
  | O => self
  | S n' =>
      if cond (ch self) then while_ch_n n' cond body (body self)
      else self
  end.

Definition loop_bound (self : t) : nat :=
  S (len (input self) - read_position self).

Definition while_ch (cond : ascii -> bool) (body : t -> t) (self : t) : t :=
  while_ch_n (loop_bound self) cond body self.

Definition _skip_whitespace_body (self : t) : t :=
  let self1 :=
    if Ascii.eqb (ch self) LF then
      mk (input self) (position self) (read_position self) (ch self)
         (line self + 1) 0
    else
      mk (input self) (position self) (read_position self) (ch self)
         (line self) (column self + 1) in
  _read_char self1.

Definition _skip_whitespace (self : t) : t :=
  while_ch isspace _skip_whitespace_body self.

Definition _read_identifier (self : t) : string * t :=
  let start_pos := position self in
  let self1 := while_ch (fun c => is_letter c || isdigit c) _read_char self in
  (slice (input self1) start_pos (position self1), self1).

Definition _read_number (self : t) : exn + (Z * t) :=
  let start_pos := position self in
  let self1 := while_ch isdigit _read_char self in
  match int (slice (input self1) start_pos (position self1)) with
  | inl e => inl e
  | inr n => inr (n, self1)
  end.

Definition keywords : list (string * TokenType) :=
  [ ("entity", ENTITY); ("rule", RULE); ("flow", FLOW);
    ("constraint", CONSTRAINT); ("if", IF_); ("then", THEN);
    ("else", ELSE); ("loop", LOOP); ("break", BREAK); ("halt", HALT);
    ("and", AND); ("or", OR) ].

Fixpoint dict_get (d : list (string * TokenType)) (k : string)
    (default : TokenType) : TokenType :=
  match d with
  | [] => default
  | (k', v) :: d' => if String.eqb k k' then v else dict_get d' k default
  end.

Definition _lookup_identifier (identifier : string) : TokenType :=
  dict_get keywords identifier IDENTIFIER.

(** The token built at the current cursor, [back] characters behind it. *)
Definition token_here (ty : TokenType) (v : value) (back : nat) (self : t)
    : Token.t :=
  Token.mk ty v (line self) (column self - Z.of_nat back)
           (Z.of_nat (position self) - Z.of_nat back).

Definition one (c : ascii) : string := String c EmptyString.

(** The [if]/[elif] cascade of [next_token], before the final
    [_read_char]. *)
Definition classify (self : t) : exn + (Token.t * t) :=
  let c := ch self in
  if Ascii.eqb c "=" then
    if Ascii.eqb (_peek_char self) "=" then
      let self1 := _read_char self in
      inr (token_here EQUAL (VStr "==") 1 self1, self1)
    else inr (token_here ASSIGNMENT (VStr "=") 0 self, self)
  else if Ascii.eqb c "!" then
    if Ascii.eqb (_peek_char self) "=" then
      let self1 := _read_char self in
      inr (token_here NOT_EQUAL (VStr "!=") 1 self1, self1)
    else
      let current_ch := ch self in
      let self1 := _read_char self in
      inr (token_here ILLEGAL (VStr (one current_ch)) 0 self1, self1)
  else if Ascii.eqb c ">" then
    if Ascii.eqb (_peek_char self) "=" then
      let self1 := _read_char self in
      inr (token_here GREATER_EQUAL (VStr ">=") 1 self1, self1)
    else inr (token_here GREATER (VStr ">") 0 self, self)
  else if Ascii.eqb c "<" then
    if Ascii.eqb (_peek_char self) "=" then
      let self1 := _read_char self in
      inr (token_here LESS_EQUAL (VStr "<=") 1 self1, self1)
    else inr (token_here LESS (VStr "<") 0 self, self)
  else if Ascii.eqb c "{" then
    inr (token_here LEFT_BRACE (VStr "{") 0 self, self)
  else if Ascii.eqb c "}" then
    inr (token_here RIGHT_BRACE (VStr "}") 0 self, self)
  else if Ascii.eqb c "(" then
    inr (token_here LEFT_PAREN (VStr "(") 0 self, self)
  else if Ascii.eqb c ")" then
    inr (token_here RIGHT_PAREN (VStr ")") 0 self, self)
  else if Ascii.eqb c "," then
    inr (token_here COMMA (VStr ",") 0 self, self)
  else if Ascii.eqb c "." then
    inr (token_here DOT (VStr ".") 0 self, self)
  else if Ascii.eqb c ":" then
    inr (token_here COLON (VStr ":") 0 self, self)
  else if Ascii.eqb c NUL then
    inr (token_here EOF VNone 0 self, self)
  else if is_letter c then
    let '(identifier, self1) := _read_identifier self in
    let token_type := _lookup_identifier identifier in
    inr (token_here token_type (VStr identifier) (len identifier) self1,
         self1)
  else if Ascii.eqb c QUOTE || Ascii.eqb c "'" then
    let current_ch := ch self in
    let self1 := _read_char self in
    inr (token_here ILLEGAL (VStr (one current_ch)) 0 self1, self1)
  else if isdigit c then
    match _read_number self with
    | inl e => inl e
    | inr (number, self1) =>
        inr (token_here NUMBER (VInt number) (len (str number)) self1,
             self1)
    end
  else
    let current_ch := ch self in
    let self1 := _read_char self in
    inr (token_here ILLEGAL (VStr (one current_ch)) 0 self1, self1).

Definition next_token (self : t) : exn + (Token.t * t) :=
  match classify (_skip_whitespace self) with
  | inl e => inl e
  | inr (token, self1) => inr (token, _read_char self1)
  end.

(** [Lexer(input_text)] *)
Definition init (input_text : string) : t :=
  _read_char (mk input_text 0 0 NUL 1 0).

(** [tokenize_all]: pull tokens until the first [EOF].  [n] bounds the
    number of iterations of the [while True] loop; [None] means the bound
    was reached before the [break]. *)
Fixpoint tokenize_all_n (n : nat) (self : t) (tokens : list Token.t)
    : option (exn + list Token.t) :=
  match n with
  | O => None
  | S n' =>
      match next_token self with
      | inl e => Some (inl e)
      | inr (token, self1) =>
          let tokens1 := (tokens ++ [token])%list in
          if TokenType_eqb (Token.token_type token) EOF
          then Some (inr tokens1)
          else tokenize_all_n n' self1 tokens1
      end
  end.

Definition tokenize_all (n : nat) (self : t) : option (exn + list Token.t) :=
  tokenize_all_n n self [].

End Lexer.

Definition kinds (ts : list Token.t) : list (TokenType * Py.value) :=
  map (fun tk => (Token.token_type tk, Token.value tk)) ts.

(** [Lexer(s).tokenize_all()], with one iteration per character and two
    to spare. *)
Definition lex (s : string) : option (Py.exn + list Token.t) :=
  Lexer.tokenize_all (S (S (Py.len s))) (Lexer.init s).

Definition lex_kinds (s : string) : option (list (TokenType * Py.value)) :=
  match lex s with
  | Some (inr ts) => Some (kinds ts)
  | _ => None
  end.

(** ** kern-parser/test_parser.py *)

(** The AST classes the parser instantiates.  [name] fields hold whatever
    [current_token.value] was at that moment, so they are payloads. *)
Inductive Term : Type :=
| mkTerm.                                     (* Term() *)

Inductive Condition : Type :=
| Expression.                                 (* Expression() *)

Inductive FieldDef : Type :=
| mkFieldDef (name : Py.value).

(** What [parse_action] returns when it is not [None]: a bare [Action()]
    or the [Predicate] built by [parse_predicate]. *)
Inductive ActionNode : Type :=
| Action
| Predicate (name : Py.value) (arguments : list Term).

Inductive Definition_ : Type :=
| EntityDef (name : Py.value) (fields : list FieldDef)
| RuleDef (name : Py.value) (condition : Condition)
          (actions : list ActionNode)
| FlowDef (name : Py.value) (actions : list ActionNode)
| ConstraintDef (name : Py.value) (condition : Condition).

Record Program : Type := mkProgram { definitions : list Definition_ }.

(** [class ParseError:] -- declared without a base class. *)
Record ParseError : Type := mkParseError {
  message : string;
  pe_line : Z;
  pe_column : Z;
  pe_position : Z
}.

(** [class Parser] *)
Module Parser.
Import Py.

Record t : Type := mk {
  lexer : Lexer.t;
  current_token : Token.t;
  errors : list ParseError;
  recovery_enabled : bool
}.

(** How a method call ends: it returns a value and leaves the parser in
    a new state, or an exception leaves it (the diagnostics recorded so
    far are kept), or the iteration budget of the embedding is used up
    before it ends. *)
Inductive outcome (A : Type) : Type :=
| Return (a : A) (self : t)
| Raise (e : exn) (diagnostics : list ParseError)
| OutOfFuel.
Arguments Return {A} a self.
Arguments Raise {A} e diagnostics.
Arguments OutOfFuel {A}.

Definition bind {A B : Type} (m : outcome A) (k : A -> t -> outcome B)
    : outcome B :=
  match m with
  | Return a self => k a self
  | Raise e d => Raise e d
  | OutOfFuel => OutOfFuel
  end.

Notation "x <- m 'in' self ;; k" := (bind m (fun x self => k))
  (at level 61, m at next level, self name, right associativity).

(** [Parser(input_text)]; the first [lexer.next_token()] may raise. *)
Definition init (input_text : string) : exn + t :=
  match Lexer.next_token (Lexer.init input_text) with
  | inl e => inl e
  | inr (token, lx) => inr (mk lx token [] true)
  end.

Definition next_token (self : t) : outcome unit :=
  match Lexer.next_token (lexer self) with
  | inl e => Raise e (errors self)
  | inr (token, lx) =>
      Return tt (mk lx token (errors self) (recovery_enabled self))
  end.

(** [raise error] with [error] a [ParseError]: the object is no
    exception, so the statement raises [TypeError] instead. *)
Definition raise_ParseError {A : Type} (error : ParseError) (self : t)
    : outcome A :=
  Raise TypeError_raise (errors self).

(** [try: body / except ParseError: handler].  When an exception reaches
    the clause, matching it against a class that is no exception raises
    [TypeError]; the handler is never entered. *)
Definition try_except_ParseError {A : Type} (body : outcome A)
    (handler : list ParseError -> outcome A) : outcome A :=
  match body with
  | Raise _ d => Raise TypeError_except d
  | r => r
  end.

Definition expect_token (token_type : TokenType) (self : t)
    : outcome Token.t :=
  if TokenType_eqb (Token.token_type (current_token self)) token_type then
    let token := current_token self in
    _ <- next_token self in self ;;
    Return token self
  else
    let error :=
      mkParseError
        ("Expected " ++ TokenType_name token_type ++ ", got "
           ++ TokenType_name (Token.token_type (current_token self)))
        (Token.line (current_token self))
        (Token.column (current_token self))
        (Token.position (current_token self)) in
    let self :=
      mk (lexer self) (current_token self) (errors self ++ [error])
         (recovery_enabled self) in
    raise_ParseError error self.

Definition is_at_end (self : t) : bool :=
  TokenType_eqb (Token.token_type (current_token self)) EOF.

Definition is_current_token (token_type : TokenType) (self : t) : bool :=
  TokenType_eqb (Token.token_type (current_token self)) token_type.

(** [skip_until]: the [for] loop returns at the first match. *)
Fixpoint skip_until (fuel : nat) (expected_tokens : list TokenType)
    (self : t) : outcome unit :=
  match fuel with
  | O => OutOfFuel
  | S fuel' =>
      if is_at_end self then Return tt self
      else if existsb
                (TokenType_eqb (Token.token_type (current_token self)))
                expected_tokens
      then Return tt self
      else
        _ <- next_token self in self ;;
        skip_until fuel' expected_tokens self
  end.

Definition parse_expression (self : t) : outcome Condition :=
  Return Expression self.

Definition parse_condition (self : t) : outcome Condition :=
  parse_expression self.

Definition parse_field_def (self : t) : outcome (option FieldDef) :=
  if is_current_token IDENTIFIER self then
    let name := Token.value (current_token self) in
    _ <- next_token self in self ;;
    Return (Some (mkFieldDef name)) self
  else Return None self.

(** The [while] loop of [parse_entity_def]. *)
Fixpoint parse_entity_def_fields (fuel : nat) (fields : list FieldDef)
    (self : t) : outcome (list FieldDef) :=
  match fuel with
  | O => OutOfFuel
  | S fuel' =>
      if negb (is_current_token RIGHT_BRACE self)
         && negb (is_at_end self)
      then
        field <- parse_field_def self in self ;;
        match field with
        | Some f => parse_entity_def_fields fuel' (fields ++ [f]) self
        | None => parse_entity_def_fields fuel' fields self
        end
      else Return fields self
  end.

Definition parse_entity_def (fuel : nat) (self : t) : outcome Definition_ :=
  _ <- expect_token ENTITY self in self ;;
  let name := Token.value (current_token self) in
  _ <- expect_token IDENTIFIER self in self ;;
  _ <- expect_token LEFT_BRACE self in self ;;
  fields <- parse_entity_def_fields fuel [] self in self ;;
  _ <- expect_token RIGHT_BRACE self in self ;;
  Return (EntityDef name fields) self.

Definition parse_predicate (self : t) : outcome ActionNode :=
  let name := Token.value (current_token self) in
  _ <- expect_token IDENTIFIER self in self ;;
  _ <- expect_token LEFT_PAREN self in self ;;
  arguments <-
    (if negb (is_current_token RIGHT_PAREN self) then
       if is_current_token IDENTIFIER self
          || is_current_token NUMBER self
       then
         _ <- (if is_current_token IDENTIFIER self then next_token self
               else if is_current_token NUMBER self then next_token self
               else Return tt self) in self ;;
         Return [mkTerm] self
       else Return [] self
     else Return [] self) in self ;;
  _ <- expect_token RIGHT_PAREN self in self ;;
  Return (Predicate name arguments) self.

Definition truthy {A : Type} (x : option A) : list A :=
  match x with
  | Some a => [a]
  | None => []
  end.

(** [parse_action] and [parse_action_list] call each other;
    [parse_action_list_more] is the [while] loop of the latter. *)
Fixpoint parse_action (fuel : nat) (self : t)
    : outcome (option ActionNode) :=
  match fuel with
  | O => OutOfFuel
  | S fuel' =>
      if is_current_token IDENTIFIER self then
        _ <- next_token self in self ;;
        if is_current_token LEFT_PAREN self then
          p <- parse_predicate self in self ;;
          Return (Some p) self
        else Return (Some Action) self
      else if is_current_token IF_ self then
        _ <- next_token self in self ;;
        _ <- parse_condition self in self ;;
        _ <- expect_token THEN self in self ;;
        _ <- parse_action_list fuel' self in self ;;
        if is_current_token ELSE self then
          _ <- next_token self in self ;;
          _ <- parse_action_list fuel' self in self ;;
          Return (Some Action) self
        else Return (Some Action) self
      else if is_current_token HALT self then
        _ <- next_token self in self ;;
        Return (Some Action) self
      else Return None self
  end

with parse_action_list (fuel : nat) (self : t)
    : outcome (list ActionNode) :=
  match fuel with
  | O => OutOfFuel
  | S fuel' =>
      action <- parse_action fuel' self in self ;;
      parse_action_list_more fuel' (truthy action) self
  end

with parse_action_list_more (fuel : nat) (actions : list ActionNode)
    (self : t) : outcome (list ActionNode) :=
  match fuel with
  | O => OutOfFuel
  | S fuel' =>
      if is_current_token COMMA self then
        _ <- next_token self in self ;;
        action <- parse_action fuel' self in self ;;
        match action with
        | Some a => parse_action_list_more fuel' (actions ++ [a]) self
        | None => Return actions self
        end
      else Return actions self
  end.

Definition parse_rule_def (fuel : nat) (self : t) : outcome Definition_ :=
  _ <- expect_token RULE self in self ;;
  let name := Token.value (current_token self) in
  _ <- expect_token IDENTIFIER self in self ;;
  _ <- expect_token COLON self in self ;;
  _ <- expect_token IF_ self in self ;;
  condition <- parse_condition self in self ;;
  _ <- expect_token THEN self in self ;;
  actions <- parse_action_list fuel self in self ;;
  Return (RuleDef name condition actions) self.

Definition parse_flow_def (fuel : nat) (self : t) : outcome Definition_ :=
  _ <- expect_token FLOW self in self ;;
  let name := Token.value (current_token self) in
  _ <- expect_token IDENTIFIER self in self ;;
  _ <- expect_token LEFT_BRACE self in self ;;
  actions <- parse_action_list fuel self in self ;;
  _ <- expect_token RIGHT_BRACE self in self ;;
  Return (FlowDef name actions) self.

Definition parse_constraint_def (self : t) : outcome Definition_ :=
  _ <- expect_token CONSTRAINT self in self ;;
  let name := Token.value (current_token self) in
  _ <- expect_token IDENTIFIER self in self ;;
  _ <- expect_token COLON self in self ;;
  condition <- parse_condition self in self ;;
  Return (ConstraintDef name condition) self.

Definition parse_definition (fuel : nat) (self : t)
    : outcome (option Definition_) :=
  if is_current_token ENTITY self then
    d <- parse_entity_def fuel self in self ;; Return (Some d) self
  else if is_current_token RULE self then
    d <- parse_rule_def fuel self in self ;; Return (Some d) self
  else if is_current_token FLOW self then
    d <- parse_flow_def fuel self in self ;; Return (Some d) self
  else if is_current_token CONSTRAINT self then
    d <- parse_constraint_def self in self ;; Return (Some d) self
  else if is_current_token EOF self then Return None self
  else
    let error :=
      mkParseError
        ("Unexpected token "
           ++ TokenType_name (Token.token_type (current_token self))
           ++ ", expected a definition keyword")
        (Token.line (current_token self))
        (Token.column (current_token self))
        (Token.position (current_token self)) in
    let self :=
      mk (lexer self) (current_token self) (errors self ++ [error])
         (recovery_enabled self) in
    _ <- next_token self in self ;;
    Return None self.

(** The [while not self.is_at_end()] loop of [parse_program].  The body
    of the [try] yields the list to go on with; [None] stands for the
    [break] of the handler. *)
Fixpoint parse_program_loop (fuel : nat) (definitions : list Definition_)
    (self : t) : outcome (list Definition_) :=
  match fuel with
  | O => OutOfFuel
  | S fuel' =>
      if negb (is_at_end self) then
        r <- try_except_ParseError
               (definition <- parse_definition fuel' self in self ;;
                Return (Some (definitions ++ truthy definition)%list) self)
               (fun d =>
                  let self := mk (lexer self) (current_token self) d
                                 (recovery_enabled self) in
                  if recovery_enabled self then
                    _ <- skip_until fuel' [ENTITY; RULE; FLOW; CONSTRAINT]
                           self in self ;;
                    Return (Some definitions) self
                  else Return None self) in self ;;
        match r with
        | Some definitions' => parse_program_loop fuel' definitions' self
        | None => Return definitions self
        end
      else Return definitions self
  end.

Definition parse_program (fuel : nat) (self : t) : outcome Program :=
  definitions <- parse_program_loop fuel [] self in self ;;
  Return (mkProgram definitions) self.

End Parser.

(** [Parser(input_text).parse_program()], then the pair the caller reads:
    the [Program] and [parser.errors]. *)
Definition parse (fuel : nat) (input_text : string)
    : Parser.outcome (Program * list ParseError) :=
  match Parser.init input_text with
  | inl e => Parser.Raise e []
  | inr p =>
      Parser.bind (Parser.parse_program fuel p)
        (fun program self => Parser.Return (program, Parser.errors self) self)
  end.

(** ** Vocabulary of the statements *)

Module LexSpec.
Import Py Lexer.

(** The character under index [i], the sentinel past the end. *)
Definition char_at (s : string) (i : nat) : ascii :=
  if (len s <=? i)%nat then NUL else index s i.

(** The states a [Lexer] goes through after its constructor: the read
    position is one ahead of the cursor and [ch] is the character under
    the cursor. *)
Definition ok (l : Lexer.t) : Prop :=
  read_position l = S (position l)
  /\ ch l = char_at (input l) (position l).

(** What the loop bodies of the lexer have in common: they move the
    cursor to the read position and load the character there. *)
Definition advances (body : Lexer.t -> Lexer.t) : Prop :=
  forall l,
    input (body l) = input l
    /\ position (body l) = read_position l
    /\ read_position (body l) = S (read_position l)
    /\ ch (body l) = char_at (input l) (read_position l)
    /\ line l <= line (body l).

(** What a [while] loop over [ch] has done when it is left from a
    state [l]: nothing is lost of the invariant, and the characters it
    passed are those, and only those, that [cond] accepts. *)
Definition loop_post (cond : ascii -> bool) (l l' : Lexer.t) : Prop :=
  ok l' /\ input l' = input l
  /\ (position l <= position l')%nat
  /\ line l <= line l'
  /\ (forall i, (position l <= i < position l')%nat ->
                cond (char_at (input l) i) = true)
  /\ cond (char_at (input l) (position l')) = false.

(** The three branches of [next_token] that build an [ILLEGAL] token
    have the same shape. *)
Definition illegal_result (l : Lexer.t) : exn + (Token.t * Lexer.t) :=
  inr (token_here ILLEGAL (VStr (one (ch l))) 0 (_read_char l),
       _read_char l).

Definition word_char (c : ascii) : bool := is_letter c || isdigit c.

Fixpoint has_nul (s : string) : bool :=
  match s with
  | EmptyString => false
  | String c s' => Ascii.eqb c NUL || has_nul s'
  end.

(** A digit in the sense of [isdigit] that [int] does not read. *)
Definition odd_digit (c : ascii) : bool :=
  isdigit c && negb (between 48 57 (code c)).


Fixpoint has_odd_digit (s : string) : bool :=
  match s with
  | EmptyString => false
  | String c s' => odd_digit c || has_odd_digit s'
  end.

(** The number of [isdigit] characters the text begins with. *)
Fixpoint digits_ahead (s : string) : nat :=
  match s with
  | EmptyString => 0%nat
  | String c s' => if isdigit c then S (digits_ahead s') else 0%nat
  end.

(** Somewhere in the text more than [int_max_str_digits] characters that
    satisfy [isdigit] follow one another: a literal [int] refuses for its
    length. *)
Fixpoint has_long_run (s : string) : bool :=
  match s with
  | EmptyString => false
  | String c s' =>
      (int_max_str_digits <? Z.of_nat (digits_ahead s)) || has_long_run s'
  end.

Fixpoint all_chars (P : ascii -> bool) (s : string) : bool :=
  match s with
  | EmptyString => true
  | String c s' => P c && all_chars P s'
  end.

Definition decimal (c : ascii) : bool := between 48 57 (code c).

(** [b] ends the maximal run of [P]-characters of [s] that begins at
    [a]. *)
Definition run (P : ascii -> bool) (s : string) (a b : nat) : Prop :=
  (forall i, (a <= i < b)%nat -> P (char_at s i) = true)
  /\ P (char_at s b) = false.

(** The result of the [(k+1)]-th call of [next_token] from state [l]. *)
Fixpoint pull (k : nat) (l : Lexer.t) : exn + (Token.t * Lexer.t) :=
  match k with
  | O => next_token l
  | S k' =>
      match next_token l with
      | inl e => inl e
      | inr (_, l1) => pull k' l1
      end
  end.

Definition is_keyword (ty : TokenType) : bool :=
  match ty with
  | ENTITY | RULE | FLOW | CONSTRAINT | IF_ | THEN | ELSE | LOOP | BREAK
  | HALT | AND | OR => true
  | _ => false
  end.

Definition is_symbol (ty : TokenType) : bool :=
  match ty with
  | COLON | COMMA | DOT | LEFT_BRACE | RIGHT_BRACE | LEFT_PAREN
  | RIGHT_PAREN | EQUAL | NOT_EQUAL | GREATER | LESS | GREATER_EQUAL
  | LESS_EQUAL | ASSIGNMENT => true
  | _ => false
  end.

(** The payload rule as the specification words it: text for identifiers
    and keywords, an integer for numbers, nothing for symbols and end of
    input, one character for an illegal token. *)
Definition payload_as_specified (tk : Token.t) : bool :=
  match Token.token_type tk, Token.value tk with
  | IDENTIFIER, VStr _ => true
  | NUMBER, VInt _ => true
  | EOF, VNone => true
  | ILLEGAL, VStr s => (len s =? 1)%nat
  | ty, VStr _ => is_keyword ty
  | ty, VNone => is_symbol ty
  | _, _ => false
  end.

(** The spelling of a symbol token. *)
Definition symbol_text (ty : TokenType) : string :=
  match ty with
  | COLON => ":" | COMMA => "," | DOT => "." | LEFT_BRACE => "{"
  | RIGHT_BRACE => "}" | LEFT_PAREN => "(" | RIGHT_PAREN => ")"
  | EQUAL => "==" | NOT_EQUAL => "!=" | GREATER => ">" | LESS => "<"
  | GREATER_EQUAL => ">=" | LESS_EQUAL => "<=" | ASSIGNMENT => "="
  | _ => EmptyString
  end.

(** The payload rule the lexer follows: as specified, except that a
    symbol token carries its own spelling. *)
Definition payload_as_built (tk : Token.t) : bool :=
  match Token.token_type tk, Token.value tk with
  | IDENTIFIER, VStr _ => true
  | NUMBER, VInt n => (0 <=? n)
  | EOF, VNone => true
  | ILLEGAL, VStr s => (len s =? 1)%nat
  | ty, VStr s =>
      (is_keyword ty && TokenType_eqb (_lookup_identifier s) ty)
      || (is_symbol ty && String.eqb s (symbol_text ty))
  | _, _ => false
  end.

(** *** The text a token is made of *)

(** The payload of a token against the text [s], the cursor being at
    offset [a] when the token begins: a word carries the maximal run of
    word characters there and has the kind the keyword table gives that
    text, a number the value [int] reads from the maximal run of digits,
    a symbol its spelling, which is what the text has at [a], an illegal
    token the one character at [a], and [EOF] nothing. *)
Definition payload_of_text (s : string) (a : nat) (tk : Token.t) : Prop :=
  match Token.token_type tk with
  | EOF => Token.value tk = VNone
  | ILLEGAL =>
      (a < len s)%nat /\ Token.value tk = VStr (one (char_at s a))
  | NUMBER =>
      exists b n,
        (a < b)%nat /\ run isdigit s a b
        /\ int (slice s a b) = inr n /\ 0 <= n
        /\ Token.value tk = VInt n
  | COLON | COMMA | DOT | LEFT_BRACE | RIGHT_BRACE | LEFT_PAREN
  | RIGHT_PAREN | EQUAL | NOT_EQUAL | GREATER | LESS | GREATER_EQUAL
  | LESS_EQUAL | ASSIGNMENT =>
      Token.value tk = VStr (symbol_text (Token.token_type tk))
      /\ slice s a (a + len (symbol_text (Token.token_type tk)))
         = symbol_text (Token.token_type tk)
  | _ =>
      exists b,
        (a < b)%nat /\ run word_char s a b
        /\ Token.value tk = VStr (slice s a b)
        /\ Token.token_type tk = _lookup_identifier (slice s a b)
  end.

(** *** The same lexer over another text *)

(** The lexer [l] with its text replaced by [s']: cursor, character
    under the cursor and counters are those of [l]. *)
Definition on_text (s' : string) (l : Lexer.t) : Lexer.t :=
  mk s' (position l) (read_position l) (ch l) (line l) (column l).

(** [s'] is as long as [s] and has the characters of [s] from index [i]
    on; before [i] it may have any. *)
Definition same_from (i : nat) (s s' : string) : Prop :=
  len s' = len s /\ forall j, (i <= j)%nat -> char_at s' j = char_at s j.

(** What a call hands to its caller: the token, or the exception. *)
Definition returned (r : exn + (Token.t * Lexer.t)) : exn + Token.t :=
  match r with
  | inl e => inl e
  | inr (tk, _) => inr tk
  end.

(** The result [r] with the lexer in it moved onto [s']. *)
Definition moved (s' : string) (r : exn + (Token.t * Lexer.t))
    : exn + (Token.t * Lexer.t) :=
  match r with
  | inl e => inl e
  | inr (tk, l) => inr (tk, on_text s' l)
  end.

(** *** Lines and columns *)

(** The number of newlines among the [n] characters of [s] from index
    [a] on. *)
Fixpoint newlines (s : string) (a n : nat) : Z :=
  match n with
  | O => 0
  | S n' =>
      (if Ascii.eqb (char_at s a) LF then 1 else 0) + newlines s (S a) n'
  end.

(** What the counters of a later state [l'] owe to an earlier state [l]
    of the same lexer: every newline loaded in between has added to the
    line; while the line is the same, every character loaded has added
    to the column; a character adds at most two to the column; and the
    column has been started again at each newline loaded. *)
Definition counted (s : string) (l l' : Lexer.t) : Prop :=
  (position l <= position l')%nat
  /\ line l + newlines s (S (position l)) (position l' - position l)
     <= line l'
  /\ (line l' = line l ->
      column l + Z.of_nat (position l' - position l) <= column l')
  /\ column l'
     <= Z.max (column l) 0 + 2 * Z.of_nat (position l' - position l)
  /\ (forall i, (position l < i <= position l')%nat ->
        char_at s i = LF -> column l' <= 2 * Z.of_nat (position l' - i)).

(** The counters of [l] against the text from its beginning. *)
Definition tracked (s : string) (l : Lexer.t) : Prop :=
  1 + newlines s 0 (S (position l)) <= line l
  /\ (forall i, (i <= position l)%nat -> char_at s i = LF ->
        column l <= 2 * Z.of_nat (position l - i)).

(** The token [tk], built when the first [p] characters of [s] were
    loaded: each newline among them has added to its line, and its
    column has been counted from the last of them on (a character
    counts for two columns at most). *)
Definition after_newlines (s : string) (p : nat) (tk : Token.t) : Prop :=
  1 + newlines s 0 p <= Token.line tk
  /\ (forall i, (i < p)%nat -> char_at s i = LF ->
        Token.column tk <= 2 * Z.of_nat (p - 1 - i)).

End LexSpec.

(** ** Vocabulary of the further properties *)

Module MoreSpec.
Import Py Lexer LexSpec.

(** The symbols of the language: the kind of the symbol that begins with
    [c] when [next] is the character after it, and the number of
    characters it is made of. *)
Definition symbol_at (c next : ascii) : option (TokenType * nat) :=
  if Ascii.eqb c "=" then
    if Ascii.eqb next "=" then Some (EQUAL, 2%nat)
    else Some (ASSIGNMENT, 1%nat)
  else if Ascii.eqb c "!" then
    if Ascii.eqb next "=" then Some (NOT_EQUAL, 2%nat) else None
  else if Ascii.eqb c ">" then
    if Ascii.eqb next "=" then Some (GREATER_EQUAL, 2%nat)
    else Some (GREATER, 1%nat)
  else if Ascii.eqb c "<" then
    if Ascii.eqb next "=" then Some (LESS_EQUAL, 2%nat)
    else Some (LESS, 1%nat)
  else if Ascii.eqb c "{" then Some (LEFT_BRACE, 1%nat)
  else if Ascii.eqb c "}" then Some (RIGHT_BRACE, 1%nat)
  else if Ascii.eqb c "(" then Some (LEFT_PAREN, 1%nat)
  else if Ascii.eqb c ")" then Some (RIGHT_PAREN, 1%nat)
  else if Ascii.eqb c "," then Some (COMMA, 1%nat)
  else if Ascii.eqb c "." then Some (DOT, 1%nat)
  else if Ascii.eqb c ":" then Some (COLON, 1%nat)
  else None.

(** The spelling of a keyword. *)
Definition keyword_text (ty : TokenType) : string :=
  match ty with
  | ENTITY => "entity" | RULE => "rule" | FLOW => "flow"
  | CONSTRAINT => "constraint" | IF_ => "if" | THEN => "then"
  | ELSE => "else" | LOOP => "loop" | BREAK => "break" | HALT => "halt"
  | AND => "and" | OR => "or"
  | _ => EmptyString
  end.

Definition is_word (ty : TokenType) : bool :=
  is_keyword ty || TokenType_eqb ty IDENTIFIER.

Definition head_is (P : ascii -> bool) (s : string) : bool :=
  match s with
  | String c _ => P c
  | EmptyString => false
  end.

(** The diagnostics a method call leaves behind, however it ends. *)
Definition diagnostics_of {A : Type} (r : Parser.outcome A)
    : option (list ParseError) :=
  match r with
  | Parser.Return _ self => Some (Parser.errors self)
  | Parser.Raise _ d => Some d
  | Parser.OutOfFuel => None
  end.

(** The call has kept the diagnostics [d] it started with, in order, and
    has at most added to them. *)
Definition keeps {A : Type} (d : list ParseError) (r : Parser.outcome A)
    : Prop :=
  match diagnostics_of r with
  | Some d' => exists more, d' = (d ++ more)%list
  | None => True
  end.

Definition is_text (v : value) : bool :=
  match v with
  | VStr _ => true
  | _ => false
  end.

Definition field_is_text (f : FieldDef) : bool :=
  match f with
  | mkFieldDef name => is_text name
  end.

(** Every name in the node is a text. *)
Definition names_are_text (d : Definition_) : bool :=
  match d with
  | EntityDef name fields => is_text name && forallb field_is_text fields
  | RuleDef name _ _ => is_text name
  | FlowDef name _ => is_text name
  | ConstraintDef name _ => is_text name
  end.

Definition is_bare (a : ActionNode) : bool :=
  match a with
  | Action => true
  | Predicate _ _ => false
  end.

Definition actions_of (d : Definition_) : list ActionNode :=
  match d with
  | RuleDef _ _ actions => actions
  | FlowDef _ actions => actions
  | _ => []
  end.

(** The diagnostic [parse_definition] records for a token that begins no
    definition. *)
Definition unexpected_token (tk : Token.t) : ParseError :=
  mkParseError
    ("Unexpected token " ++ TokenType_name (Token.token_type tk)
       ++ ", expected a definition keyword")
    (Token.line tk) (Token.column tk) (Token.position tk).

Definition not_letter (c : ascii) : bool := negb (is_letter c).

(** The call has ended within its budget of iterations. *)
Definition finished {A : Type} (r : Parser.outcome A) : bool :=
  match r with
  | Parser.OutOfFuel => false
  | _ => true
  end.

(** The text lexes to a token list in which no token is [ENTITY]. *)
Definition entity_free (s : string) : bool :=
  match lex s with
  | Some (inr ts) =>
      forallb
        (fun tk => negb (TokenType_eqb (Token.token_type tk) ENTITY)) ts
  | _ => false
  end.

(** The parser state is one a [Parser] over the text [s] goes through:
    its current token is the [(k+1)]-th token of the lexer, the lexer is
    in the state after it, and no earlier token was [EOF]. *)
Definition reached (s : string) (self : Parser.t) : Prop :=
  exists k,
    pull k (init s)
    = inr (Parser.current_token self, Parser.lexer self)
    /\ forall j tk l,
         (j < k)%nat -> pull j (init s) = inr (tk, l) ->
         Token.token_type tk <> EOF.

(** The number of characters the lexer can still consume before the
    current token is [EOF]; zero at [EOF]. *)
Definition left (self : Parser.t) : nat :=
  if Parser.is_at_end self then 0%nat
  else (S (S (len (input (Parser.lexer self))))
        - position (Parser.lexer self))%nat.

(** The call ends within its budget and leaves at most [n] characters. *)
Definition ends {A : Type} (s : string) (n : nat) (r : Parser.outcome A)
    : Prop :=
  match r with
  | Parser.Return _ self => reached s self /\ (left self <= n)%nat
  | Parser.Raise _ _ => True
  | Parser.OutOfFuel => False
  end.

End MoreSpec.

(** ** Facts about the built-ins *)

Module PyFacts.
Import Py.

Lemma string_of_uint_length (d : uint) :
  String.length (NilEmpty.string_of_uint d) = nb_digits d.
Proof. induction d; simpl; congruence. Qed.

Lemma substring_length_le (s : string) :
  forall n m, (String.length (substring n m s) <= m)%nat.
Proof.
  induction s as [|c s IH]; intros [|n] [|m]; simpl; try lia.
  - specialize (IH 0%nat m). lia.
  - apply (IH n 0%nat).
  - apply (IH n (S m)).
Qed.

Lemma slice_length_le (s : string) (a b : nat) :
  (len (slice s a b) <= b - a)%nat.
Proof. apply substring_length_le. Qed.

(** [int] yields a natural number whose numeral is no longer than the
    text it was read from. *)
Lemma int_str_length (s : string) (n : Z) :
  int s = inr n -> 0 <= n /\ (len (str n) <= len s)%nat.
Proof.
  unfold int. destruct s as [|c s]; [discriminate|].
  destruct (NilEmpty.uint_of_string (String c s)) as [d|] eqn:E;
    [|discriminate].
  destruct (int_max_str_digits <? _); [discriminate|].
  intros [= <-]. split; [lia|].
  assert (Hs : NilEmpty.string_of_uint d = String c s)
    by (apply NilEmpty.sus; exact E).
  assert (Hd : d <> Nil) by (intros ->; discriminate Hs).
  assert (Hn : str (Z.of_N (N.of_uint d))
               = NilEmpty.string_of_uint (unorm d)).
  { unfold str. rewrite <- (DecimalN.Unsigned.to_of d).
    destruct (N.of_uint d); reflexivity. }
  rewrite Hn. unfold len.
  rewrite <- Hs, !string_of_uint_length.
  apply nb_digits_unorm. exact Hd.
Qed.

(** [int] reads no literal of more than [int_max_str_digits] digits. *)
Lemma int_length_limit (s : string) (n : Z) :
  int s = inr n -> Z.of_nat (len s) <= int_max_str_digits.
Proof.
  unfold int, len. destruct s as [|c s]; [discriminate|].
  destruct (NilEmpty.uint_of_string (String c s)); [|discriminate].
  destruct (Z.ltb_spec int_max_str_digits
              (Z.of_nat (String.length (String c s))));
    [discriminate|]. intros _. assumption.
Qed.

Lemma isspace_NUL : isspace NUL = false.
Proof. reflexivity. Qed.

Lemma isdigit_NUL : isdigit NUL = false.
Proof. reflexivity. Qed.

Lemma is_letter_NUL : is_letter NUL = false.
Proof. reflexivity. Qed.

End PyFacts.

(** ** Facts about the lexer *)

Module LexerFacts.
Import Py Lexer LexSpec PyFacts.

Lemma read_char_advances : advances _read_char.
Proof.
  intros l. unfold _read_char, char_at.
  destruct (Ascii.eqb _ LF); simpl; repeat split; lia.
Qed.

Lemma skip_body_advances : advances _skip_whitespace_body.
Proof.
  intros l. unfold _skip_whitespace_body.
  destruct (read_char_advances
              (if Ascii.eqb (ch l) LF
               then mk (input l) (position l) (read_position l) (ch l)
                      (line l + 1) 0
               else mk (input l) (position l) (read_position l) (ch l)
                      (line l) (column l + 1)))
    as (Hi & Hp & Hr & Hc & Hl).
  destruct (Ascii.eqb (ch l) LF); simpl in *; repeat split;
    try assumption; lia.
Qed.

Lemma advances_ok body l : advances body -> ok (body l).
Proof.
  intros H. destruct (H l) as (Hi & Hp & Hr & Hc & _).
  split; [congruence|]. rewrite Hc, Hi, Hp. reflexivity.
Qed.

Lemma read_char_ok l : ok (_read_char l).
Proof. apply advances_ok, read_char_advances. Qed.

Lemma init_ok s : ok (init s).
Proof. apply read_char_ok. Qed.

Lemma init_input s : input (init s) = s.
Proof.
  unfold init. now destruct (read_char_advances (mk s 0 0 NUL 1 0)).
Qed.

Lemma init_position s : position (init s) = 0%nat.
Proof.
  unfold init.
  now destruct (read_char_advances (mk s 0 0 NUL 1 0)) as (_ & ? & _).
Qed.

Lemma char_at_past s i : (len s <= i)%nat -> char_at s i = NUL.
Proof.
  intros H. unfold char_at.
  destruct (Nat.leb_spec (len s) i); [reflexivity|lia].
Qed.

Section Loop.
Variable cond : ascii -> bool.
Variable body : Lexer.t -> Lexer.t.
Hypothesis body_advances : advances body.
Hypothesis cond_NUL : cond NUL = false.

(** With more iterations than characters left, the loop has exited. *)
Lemma while_ch_n_exit : forall n l,
  (len (input l) - read_position l < n)%nat ->
  cond (ch (while_ch_n n cond body l)) = false.
Proof.
  induction n as [|n IH]; intros l Hn; [lia|]. simpl.
  destruct (cond (ch l)) eqn:Ec; [|exact Ec].
  destruct (body_advances l) as (Hi & Hp & Hr & Hc & _).
  destruct (Nat.leb_spec (len (input l)) (read_position l)) as [Hle|Hlt].
  - assert (Hnul : cond (ch (body l)) = false)
      by (rewrite Hc, char_at_past by exact Hle; exact cond_NUL).
    destruct n; simpl; [exact Hnul|]. rewrite Hnul. exact Hnul.
  - apply IH. rewrite Hi, Hr. lia.
Qed.

(** Once the loop has exited, further iterations change nothing. *)
Lemma while_ch_n_more : forall n m l,
  cond (ch (while_ch_n n cond body l)) = false -> (n <= m)%nat ->
  while_ch_n m cond body l = while_ch_n n cond body l.
Proof.
  induction n as [|n IH]; intros m l Hex Hm.
  - simpl in *. destruct m; simpl; [reflexivity|]. now rewrite Hex.
  - destruct m; [lia|]. simpl in *.
    destruct (cond (ch l)); [|reflexivity].
    apply IH; [exact Hex|lia].
Qed.

Lemma while_ch_exit l : cond (ch (while_ch cond body l)) = false.
Proof. apply while_ch_n_exit. unfold loop_bound. lia. Qed.

(** [while_ch] is the [while] loop: it satisfies the loop equation
    from every state. *)
Lemma while_ch_unfold l :
  while_ch cond body l
  = if cond (ch l) then while_ch cond body (body l) else l.
Proof.
  unfold while_ch at 1. unfold loop_bound. simpl.
  destruct (cond (ch l)); [|reflexivity].
  destruct (body_advances l) as (Hi & _ & Hr & Hc & _).
  unfold while_ch, loop_bound. rewrite Hi, Hr.
  destruct (Nat.leb_spec (len (input l)) (read_position l)) as [Hle|Hlt].
  - replace (len (input l) - read_position l)%nat with 0%nat by lia.
    replace (len (input l) - S (read_position l))%nat with 0%nat by lia.
    simpl. rewrite Hc, char_at_past by exact Hle.
    now rewrite cond_NUL.
  - f_equal. lia.
Qed.

(** What the loop keeps and what it has passed when it is left. *)
Lemma while_ch_n_spec : forall n l,
  ok l ->
  let l' := while_ch_n n cond body l in
  ok l' /\ input l' = input l
  /\ (position l <= position l')%nat
  /\ line l <= line l'
  /\ (forall i, (position l <= i < position l')%nat ->
                cond (char_at (input l) i) = true).
Proof.
  induction n as [|n IH]; intros l Hok; simpl.
  - repeat split; try assumption; try lia; apply Hok.
  - destruct (cond (ch l)) eqn:Ec.
    + destruct (body_advances l) as (Hi & Hp & Hr & Hc & Hl).
      destruct (IH (body l) (advances_ok body l body_advances))
        as (Hok' & Hi' & Hp' & Hl' & Hall).
      destruct Hok as [Hrp Hch].
      repeat split; try apply Hok'; try congruence; try lia.
      intros i Hi0.
      destruct (Nat.eq_dec i (position l)) as [->|Hne].
      * now rewrite <- Hch.
      * rewrite <- Hi. apply Hall. lia.
    + repeat split; try assumption; try lia; apply Hok.
Qed.

Lemma while_ch_spec l :
  ok l -> loop_post cond l (while_ch cond body l).
Proof.
  intros Hok. unfold loop_post.
  destruct (while_ch_n_spec (loop_bound l) l Hok)
    as (Hok' & Hi & Hp & Hl & Hall).
  fold (while_ch cond body l) in Hok', Hi, Hp, Hl, Hall.
  repeat split; try assumption; try apply Hok'.
  destruct Hok' as [_ Hch]. rewrite <- Hi, <- Hch.
  apply while_ch_exit.
Qed.
End Loop.

Lemma skip_ws_spec l : ok l -> loop_post isspace l (_skip_whitespace l).
Proof.
  apply (while_ch_spec isspace _skip_whitespace_body skip_body_advances
           isspace_NUL).
Qed.

Lemma word_char_NUL : word_char NUL = false.
Proof. reflexivity. Qed.

Lemma ident_loop_spec l :
  ok l -> loop_post word_char l (while_ch word_char _read_char l).
Proof.
  apply (while_ch_spec word_char _read_char read_char_advances
           word_char_NUL).
Qed.

Lemma number_loop_spec l :
  ok l -> loop_post isdigit l (while_ch isdigit _read_char l).
Proof.
  apply (while_ch_spec isdigit _read_char read_char_advances isdigit_NUL).
Qed.

Lemma read_char_position l : ok l -> position (_read_char l) = S (position l).
Proof.
  intros [Hr _]. destruct (read_char_advances l) as (_ & Hp & _). congruence.
Qed.

(** Walks the [if]/[elif] cascade in hypothesis [H]. *)
Ltac cascade H :=
  repeat match type of H with
    | (if ?b then _ else _) = _ => destruct b eqn:?
    | (let (_, _) := ?p in _) = _ => destruct p eqn:?
    | match ?x with _ => _ end = _ => destruct x eqn:?
    end;
  try discriminate H.

(** Where [classify] leaves the cursor and what it records. *)
Lemma classify_spec l tk l1 :
  ok l -> classify l = inr (tk, l1) ->
  ok l1 /\ input l1 = input l
  /\ (position l <= position l1)%nat
  /\ line l <= line l1
  /\ Token.line tk = line l1
  /\ Z.of_nat (position l) <= Token.position tk <= Z.of_nat (position l1).
Proof.
  intros Hok H. unfold classify in H.
  pose proof (read_char_ok l) as Hrc.
  pose proof (read_char_position l Hok) as Hrp.
  destruct (read_char_advances l) as (Hri & _ & _ & _ & Hrl).
  cascade H; injection H as <- <-; unfold token_here; simpl;
    try (repeat split; first [assumption | apply Hok | apply Hrc | lia]).
  - (* identifier *)
    unfold _read_identifier in *.
    match goal with E : (_, _) = (_, _) |- _ => injection E as <- <- end.
    destruct (ident_loop_spec l Hok) as (Hok' & Hi & Hp & Hl & _).
    fold word_char. 
    pose proof (slice_length_le (input (while_ch word_char _read_char l))
                  (position l)
                  (position (while_ch word_char _read_char l))).
    repeat split; try assumption; try apply Hok'; lia.
  - (* number *)
    unfold _read_number in *.
    destruct (number_loop_spec l Hok) as (Hok' & Hi & Hp & Hl & _).
    match goal with
      E : match int ?s with _ => _ end = _ |- _ =>
        destruct (int s) as [|n] eqn:Ei; [discriminate E|];
        injection E as <- <-;
        destruct (int_str_length _ _ Ei) as [Hn Hlen];
        pose proof (slice_length_le (input (while_ch isdigit _read_char l))
                      (position l)
                      (position (while_ch isdigit _read_char l)))
    end.
    repeat split; try assumption; try apply Hok'; lia.
Qed.


(** One call of [next_token] from a constructed lexer: the cursor moves
    on, and the token is recorded between the two cursor positions. *)
Lemma next_token_spec l tk l' :
  ok l -> next_token l = inr (tk, l') ->
  ok l' /\ input l' = input l
  /\ (position l < position l')%nat
  /\ line l <= Token.line tk <= line l'
  /\ Z.of_nat (position l) <= Token.position tk < Z.of_nat (position l').
Proof.
  intros Hok H. unfold next_token in H.
  destruct (skip_ws_spec l Hok) as (Hok0 & Hi0 & Hp0 & Hl0 & _).
  unfold _skip_whitespace in H.
  destruct (classify (while_ch isspace _skip_whitespace_body l))
    as [e|[tk1 l1]] eqn:Ec; [discriminate|].
  injection H as <- <-.
  destruct (classify_spec _ _ _ Hok0 Ec) as (Hok1 & Hi1 & Hp1 & Hl1 & Htl & Htp).
  destruct (read_char_advances l1) as (Hi2 & _ & _ & _ & Hl2).
  pose proof (read_char_position l1 Hok1).
  repeat split; try apply read_char_ok; try congruence; lia.
Qed.

Lemma pull_next k : forall l,
  pull (S k) l
  = match pull k l with
    | inl e => inl e
    | inr (_, l1) => next_token l1
    end.
Proof.
  induction k as [|k IH]; intros l.
  - simpl. destruct (next_token l) as [e|[tk l1]]; reflexivity.
  - change (pull (S (S k)) l)
      with (match next_token l with
            | inl e => inl e
            | inr (_, l1) => pull (S k) l1
            end).
    change (pull (S k) l)
      with (match next_token l with
            | inl e => inl e
            | inr (_, l1) => pull k l1
            end).
    destruct (next_token l) as [e|[tk l1]]; [reflexivity|]. apply IH.
Qed.

Lemma pull_add k : forall j l,
  pull (k + S j) l
  = match pull k l with
    | inl e => inl e
    | inr (_, l1) => pull j l1
    end.
Proof.
  induction k as [|k IH]; intros j l; simpl.
  - reflexivity.
  - destruct (next_token l) as [e|[tk l1]]; [reflexivity|]. apply IH.
Qed.

Lemma pull_ok k : forall l tk l',
  ok l -> pull k l = inr (tk, l') -> ok l' /\ input l' = input l.
Proof.
  induction k as [|k IH]; intros l tk l' Hok H; simpl in H.
  - now destruct (next_token_spec _ _ _ Hok H) as (? & ? & _).
  - destruct (next_token l) as [e|[tk1 l1]] eqn:E; [discriminate|].
    destruct (next_token_spec _ _ _ Hok E) as (Hok1 & Hi1 & _).
    destruct (IH _ _ _ Hok1 H) as [? ?]. split; congruence.
Qed.


(** *** End of input *)

Lemma lookup_cases s :
  _lookup_identifier s = IDENTIFIER
  \/ is_keyword (_lookup_identifier s) = true.
Proof.
  unfold _lookup_identifier, keywords, dict_get.
  repeat match goal with
    |- context [String.eqb ?a ?b] => destruct (String.eqb a b)
    end; auto.
Qed.

Lemma lookup_not_EOF s : _lookup_identifier s <> EOF.
Proof. destruct (lookup_cases s) as [H|H]; intros E; rewrite E in H; discriminate. Qed.

Lemma classify_EOF l tk l1 :
  classify l = inr (tk, l1) -> Token.token_type tk = EOF ->
  ch l = NUL /\ l1 = l.
Proof.
  intros H Ht. unfold classify in H.
  cascade H; injection H as <- <-; simpl in Ht; try discriminate Ht.
  - split; [now apply Ascii.eqb_eq|reflexivity].
  - now apply lookup_not_EOF in Ht.
Qed.

Lemma classify_at_NUL l :
  ch l = NUL -> classify l = inr (token_here EOF VNone 0 l, l).
Proof. intros H. unfold classify. rewrite H. reflexivity. Qed.

Lemma skip_ws_nonspace l : isspace (ch l) = false -> _skip_whitespace l = l.
Proof.
  intros H. unfold _skip_whitespace.
  rewrite (while_ch_unfold _ _ skip_body_advances isspace_NUL), H.
  reflexivity.
Qed.

Lemma next_token_at_end l :
  ok l -> (len (input l) <= position l)%nat ->
  next_token l = inr (token_here EOF VNone 0 l, _read_char l).
Proof.
  intros [_ Hch] Hle. rewrite char_at_past in Hch by exact Hle.
  unfold next_token. rewrite skip_ws_nonspace by now rewrite Hch.
  now rewrite classify_at_NUL.
Qed.

Lemma has_nul_index s : has_nul s = false ->
  forall i, (i < len s)%nat -> index s i <> NUL.
Proof.
  unfold index, len.
  induction s as [|c s IH]; intros H i Hi; simpl in *; [lia|].
  apply orb_false_iff in H as [Hc Hs].
  destruct i; [now apply Ascii.eqb_neq|]. apply IH; [exact Hs|lia].
Qed.

Lemma char_at_NUL s i :
  has_nul s = false -> char_at s i = NUL -> (len s <= i)%nat.
Proof.
  intros Hn H. unfold char_at in H.
  destruct (Nat.leb_spec (len s) i); [assumption|].
  now apply has_nul_index in H.
Qed.

(** Without a NUL in the text, [EOF] is only returned at the end. *)
Lemma next_token_EOF_end l tk l' :
  ok l -> has_nul (input l) = false ->
  next_token l = inr (tk, l') -> Token.token_type tk = EOF ->
  (len (input l') <= position l')%nat.
Proof.
  intros Hok Hn H Ht.
  destruct (next_token_spec _ _ _ Hok H) as (_ & Hi & _).
  unfold next_token in H.
  destruct (skip_ws_spec l Hok) as ((_ & Hch0) & Hi0 & _).
  fold (_skip_whitespace l) in Hch0, Hi0.
  destruct (classify (_skip_whitespace l)) as [e|[tk1 l1]] eqn:Ec;
    [discriminate|].
  injection H as <- <-.
  destruct (classify_EOF _ _ _ Ec Ht) as [Hnul ->].
  rewrite Hnul in Hch0. symmetry in Hch0.
  rewrite Hi0 in Hch0. apply char_at_NUL in Hch0; [|exact Hn].
  destruct (read_char_advances (_skip_whitespace l)) as (Hi1 & Hp1 & _).
  destruct (skip_ws_spec l Hok) as ((Hr0 & _) & _).
  fold (_skip_whitespace l) in Hr0.
  rewrite Hi1, Hp1, Hr0, Hi0. lia.
Qed.

Lemma pull_at_end k : forall l,
  ok l -> (len (input l) <= position l)%nat ->
  exists tk l', pull k l = inr (tk, l') /\ Token.token_type tk = EOF.
Proof.
  induction k as [|k IH]; intros l Hok Hle; simpl;
    rewrite (next_token_at_end l Hok Hle).
  - eauto.
  - apply IH; [apply read_char_ok|].
    destruct (read_char_advances l) as (Hi & Hp & _).
    destruct Hok as [Hr _]. rewrite Hi, Hp, Hr. lia.
Qed.


(** *** When [int] reads the digits *)

Lemma decimal_uint_of_char c d :
  decimal c = true -> exists d', uint_of_char c (Some d) = Some d'.
Proof.
  destruct c as [[] [] [] [] [] [] [] []];
    (discriminate || (intros _; eexists; reflexivity)).
Qed.

Lemma decimal_uint_of_string s :
  all_chars decimal s = true ->
  exists d, NilEmpty.uint_of_string s = Some d.
Proof.
  induction s as [|c s IH]; simpl; intros H.
  - eauto.
  - apply andb_true_iff in H as [Hc Hs].
    destruct (IH Hs) as [d ->]. now apply decimal_uint_of_char.
Qed.

Lemma not_decimal_uint_of_char c d :
  decimal c = false -> uint_of_char c d = None.
Proof.
  destruct d as [d|]; [|reflexivity].
  destruct c as [[] [] [] [] [] [] [] []];
    (discriminate || (intros _; reflexivity)).
Qed.

Lemma uint_of_char_None c : uint_of_char c None = None.
Proof. reflexivity. Qed.

Lemma not_decimal_uint_of_string s :
  all_chars decimal s = false -> NilEmpty.uint_of_string s = None.
Proof.
  induction s as [|c s IH]; simpl; intros H; [discriminate|].
  apply andb_false_iff in H as [Hc|Hs].
  - now apply not_decimal_uint_of_char.
  - rewrite (IH Hs). apply uint_of_char_None.
Qed.

(** [int] reads exactly the non-empty texts of decimal digits that are
    not too long. *)
Lemma int_decimal s :
  s <> EmptyString -> all_chars decimal s = true ->
  Z.of_nat (len s) <= int_max_str_digits ->
  exists n, int s = inr n.
Proof.
  intros Hne H Hlen. unfold int. destruct s; [congruence|].
  destruct (decimal_uint_of_string _ H) as [d ->].
  destruct (Z.ltb_spec int_max_str_digits
              (Z.of_nat (String.length (String a s))));
    [unfold len in Hlen; lia|eauto].
Qed.

Lemma int_refuses s :
  all_chars decimal s = false \/ int_max_str_digits < Z.of_nat (len s) ->
  int s = inl ValueError.
Proof.
  intros H. unfold int. destruct s; [reflexivity|].
  destruct (all_chars decimal (String a s)) eqn:Ed.
  - destruct H as [H|H]; [discriminate|].
    destruct (NilEmpty.uint_of_string (String a s)); [|reflexivity].
    destruct (Z.ltb_spec int_max_str_digits
                (Z.of_nat (String.length (String a s))));
      [reflexivity|unfold len in H; lia].
  - now rewrite (not_decimal_uint_of_string _ Ed).
Qed.

Lemma all_chars_substring P s : forall a m,
  (forall i, (a <= i < a + m)%nat -> (i < len s)%nat ->
             P (index s i) = true) ->
  all_chars P (substring a m s) = true.
Proof.
  unfold index, len.
  induction s as [|c s IH]; intros a m H; simpl.
  - destruct a, m; reflexivity.
  - destruct a as [|a].
    + destruct m as [|m]; [reflexivity|]. simpl.
      pose proof (H 0%nat) as H0. simpl in H0. rewrite H0 by lia. simpl.
      apply IH. intros i Hi Hl. apply (H (S i)); simpl; lia.
    + apply IH. intros i Hi Hl. apply (H (S i)); simpl; lia.
Qed.

Lemma substring_length s : forall a m,
  (a + m <= len s)%nat -> len (substring a m s) = m.
Proof.
  unfold len.
  induction s as [|c s IH]; intros a m H; simpl in *.
  - destruct a, m; simpl in *; try lia; reflexivity.
  - destruct a as [|a].
    + destruct m as [|m]; [reflexivity|]. simpl. f_equal.
      apply (IH 0%nat). simpl. lia.
    + apply IH. lia.
Qed.

Lemma odd_digit_index s : has_odd_digit s = false ->
  forall i, (i < len s)%nat -> isdigit (index s i) = true ->
  decimal (index s i) = true.
Proof.
  unfold index, len.
  induction s as [|c s IH]; intros H i Hi Hd; simpl in *; [lia|].
  apply orb_false_iff in H as [Hc Hs].
  destruct i.
  - unfold odd_digit in Hc. rewrite Hd in Hc. simpl in Hc.
    now apply negb_false_iff in Hc.
  - apply IH; [exact Hs|lia|exact Hd].
Qed.

(** A run of characters that [cond] accepts stays inside the text. *)
Lemma run_inside cond s a b :
  cond NUL = false ->
  (forall i, (a <= i < b)%nat -> cond (char_at s i) = true) ->
  (a < b)%nat -> (b <= len s)%nat.
Proof.
  intros Hn H Hab.
  destruct (Nat.leb_spec b (len s)) as [|Hlt]; [assumption|].
  assert (Hc : cond (char_at s (Nat.max a (len s))) = true)
    by (apply H; lia).
  rewrite char_at_past in Hc by lia. congruence.
Qed.

Lemma char_at_index s i : (i < len s)%nat -> char_at s i = index s i.
Proof.
  intros H. unfold char_at.
  destruct (Nat.leb_spec (len s) i); [lia|reflexivity].
Qed.

(** A run of digits is no longer than what [digits_ahead] counts. *)
Lemma digits_ahead_run s : forall b,
  (b <= len s)%nat ->
  (forall i, (i < b)%nat -> isdigit (index s i) = true) ->
  (b <= digits_ahead s)%nat.
Proof.
  unfold index, len.
  induction s as [|c s IH]; intros b Hb H; simpl in *; [lia|].
  destruct b as [|b]; [lia|].
  pose proof (H 0%nat ltac:(lia)) as H0. simpl in H0. rewrite H0.
  apply le_n_S. apply IH; [lia|]. intros i Hi. apply (H (S i)). lia.
Qed.

(** In a text without a long run, every run of digits is one [int]
    accepts for its length. *)
Lemma long_run_bound s : has_long_run s = false ->
  forall a b, (a <= b <= len s)%nat ->
  (forall i, (a <= i < b)%nat -> isdigit (index s i) = true) ->
  Z.of_nat (b - a) <= int_max_str_digits.
Proof.
  induction s as [|c s IH]; intros H a b Hab Hall.
  - unfold len in Hab. simpl in Hab.
    replace (b - a)%nat with 0%nat by lia. unfold int_max_str_digits. lia.
  - cbn [has_long_run] in H. apply orb_false_iff in H as [Hc Hs].
    destruct a as [|a].
    + apply Z.ltb_ge in Hc.
      assert (Hr : (b <= digits_ahead (String c s))%nat).
      { apply digits_ahead_run; [lia|]. intros i Hi. apply Hall. lia. }
      lia.
    + destruct b as [|b]; [lia|]. unfold len in Hab. simpl in Hab.
      replace (S b - S a)%nat with (b - a)%nat by lia.
      apply (IH Hs a b); [unfold len; lia|].
      intros i Hi. apply (Hall (S i)). lia.
Qed.

(** What [_read_number] does at a digit: it passes the maximal run of
    digits, which is not empty and lies inside the text, and hands the
    run to [int]. *)
Lemma read_number_at l :
  ok l -> isdigit (ch l) = true ->
  (position l < position (while_ch isdigit _read_char l)
   <= len (input l))%nat
  /\ run isdigit (input l) (position l)
       (position (while_ch isdigit _read_char l))
  /\ len (slice (input l) (position l)
            (position (while_ch isdigit _read_char l)))
     = (position (while_ch isdigit _read_char l) - position l)%nat
  /\ _read_number l
     = match int (slice (input l) (position l)
                    (position (while_ch isdigit _read_char l))) with
       | inl e => inl e
       | inr n => inr (n, while_ch isdigit _read_char l)
       end.
Proof.
  intros Hok Hd. unfold _read_number.
  destruct (number_loop_spec l Hok) as (Hok' & Hi & Hp & _ & Hall & Hex).
  set (l1 := while_ch isdigit _read_char l) in *.
  assert (Hlt : (position l < position l1)%nat).
  { destruct (Nat.eq_dec (position l) (position l1)) as [E|]; [|lia].
    destruct Hok as [_ Hch]. rewrite <- E, <- Hch in Hex. congruence. }
  pose proof (run_inside isdigit _ _ _ isdigit_NUL Hall Hlt) as Hin.
  rewrite Hi. unfold run.
  repeat split; try assumption; try lia.
  unfold slice. apply substring_length. lia.
Qed.

(** [_read_number] returns when the run of digits at the cursor is made
    of decimal digits and is not too long for [int]. *)
Lemma read_number_returns l :
  ok l -> isdigit (ch l) = true ->
  all_chars decimal
    (slice (input l) (position l)
       (position (while_ch isdigit _read_char l))) = true ->
  Z.of_nat (position (while_ch isdigit _read_char l) - position l)
  <= int_max_str_digits ->
  exists n,
    int (slice (input l) (position l)
           (position (while_ch isdigit _read_char l))) = inr n
    /\ _read_number l = inr (n, while_ch isdigit _read_char l).
Proof.
  intros Hok Hd Hdec Hlen.
  destruct (read_number_at l Hok Hd) as (Hp & _ & Hl & E).
  destruct (int_decimal _ ltac:(intros E0; rewrite E0 in Hl;
                                unfold len in Hl; simpl in Hl; lia)
              Hdec ltac:(rewrite Hl; exact Hlen)) as [n Hn].
  exists n. split; [exact Hn|]. now rewrite E, Hn.
Qed.

(** It raises when the run has a digit that is no decimal digit, or is
    too long. *)
Lemma read_number_raises l :
  ok l -> isdigit (ch l) = true ->
  all_chars decimal
    (slice (input l) (position l)
       (position (while_ch isdigit _read_char l))) = false
  \/ int_max_str_digits
     < Z.of_nat (position (while_ch isdigit _read_char l) - position l) ->
  _read_number l = inl ValueError.
Proof.
  intros Hok Hd H.
  destruct (read_number_at l Hok Hd) as (Hp & _ & Hl & E).
  rewrite E, int_refuses; [reflexivity|]. now rewrite Hl.
Qed.

(** [_read_number] returns whenever every digit of the text is a
    decimal digit and no run of digits is too long. *)
Lemma read_number_total l :
  ok l -> has_odd_digit (input l) = false ->
  has_long_run (input l) = false -> isdigit (ch l) = true ->
  exists n l1, _read_number l = inr (n, l1).
Proof.
  intros Hok Hodd Hlong Hd.
  destruct (read_number_at l Hok Hd) as (Hp & [Hall _] & _ & _).
  destruct (read_number_returns l Hok Hd) as (n & _ & ->); [| |eauto].
  - unfold slice. apply all_chars_substring.
    intros i Hi1 Hi2. apply odd_digit_index; [assumption..|].
    rewrite <- char_at_index by exact Hi2. apply Hall. lia.
  - apply (long_run_bound _ Hlong); [lia|].
    intros i Hi. rewrite <- char_at_index by lia. now apply Hall.
Qed.

Lemma classify_total l :
  ok l -> has_odd_digit (input l) = false ->
  has_long_run (input l) = false ->
  exists tk l1, classify l = inr (tk, l1).
Proof.
  intros Hok Hodd Hlong. unfold classify.
  repeat match goal with
    | |- exists _ _, (if ?b then _ else _) = _ => destruct b eqn:?
    | |- exists _ _, (let (_, _) := ?p in _) = _ => destruct p eqn:?
    end; eauto.
  match goal with H : isdigit _ = true |- _ =>
    destruct (read_number_total l Hok Hodd Hlong H) as (n & l1 & ->) end.
  eauto.
Qed.

Lemma next_token_total l :
  ok l -> has_odd_digit (input l) = false ->
  has_long_run (input l) = false ->
  exists tk l', next_token l = inr (tk, l').
Proof.
  intros Hok Hodd Hlong. unfold next_token.
  destruct (skip_ws_spec l Hok) as (Hok0 & Hi0 & _).
  fold (_skip_whitespace l) in Hok0, Hi0.
  destruct (classify_total (_skip_whitespace l) Hok0) as (tk & l1 & ->);
    [congruence|congruence|eauto].
Qed.


(** *** The token sequence *)

Lemma TokenType_eqb_eq a b : TokenType_eqb a b = true <-> a = b.
Proof.
  unfold TokenType_eqb. destruct (TokenType_eq_dec a b); split;
    congruence.
Qed.

Lemma TokenType_eqb_neq a b : TokenType_eqb a b = false <-> a <> b.
Proof.
  unfold TokenType_eqb. destruct (TokenType_eq_dec a b); split;
    congruence.
Qed.

(** [tokenize_all] leaves its loop within one iteration per character
    left, plus one: it raises only on a digit [int] cannot read or on a
    run of digits too long for it, and otherwise the list ends with the
    one [EOF] token in it. *)
Lemma tokenize_all_n_spec : forall n l acc,
  ok l -> (len (input l) - position l < n)%nat ->
  match tokenize_all_n n l acc with
  | None => False
  | Some (inl _) =>
      has_odd_digit (input l) = true \/ has_long_run (input l) = true
  | Some (inr ts) =>
      exists front last,
        ts = (acc ++ front ++ [last])%list
        /\ Token.token_type last = EOF
        /\ Forall (fun tk => Token.token_type tk <> EOF) front
  end.
Proof.
  induction n as [|n IH]; intros l acc Hok Hn; [lia|]. simpl.
  destruct (next_token l) as [e|[tk l1]] eqn:E.
  - destruct (has_odd_digit (input l)) eqn:Hodd; [now left|].
    destruct (has_long_run (input l)) eqn:Hlong; [now right|].
    destruct (next_token_total l Hok Hodd Hlong) as (tk & l' & E').
    congruence.
  - destruct (TokenType_eqb (Token.token_type tk) EOF) eqn:Et.
    + exists [], tk. apply TokenType_eqb_eq in Et. auto.
    + apply TokenType_eqb_neq in Et.
      destruct (next_token_spec _ _ _ Hok E) as (Hok1 & Hi1 & Hp1 & _).
      assert (Hlt : (position l < len (input l))%nat).
      { destruct (Nat.leb_spec (len (input l)) (position l)) as [Hle|];
          [|assumption].
        rewrite (next_token_at_end l Hok Hle) in E.
        injection E as <- _. now elim Et. }
      specialize (IH l1 (acc ++ [tk])%list Hok1).
      rewrite Hi1 in IH. specialize (IH ltac:(lia)).
      destruct (tokenize_all_n n l1 (acc ++ [tk])) as [[e|ts]|];
        [exact IH| |exact IH].
      destruct IH as (front & last & -> & Hl & Hf).
      exists (tk :: front), last. rewrite <- app_assoc. simpl. auto.
Qed.


(** *** Which branch of the cascade is taken *)

(** Closes a branch whose test [Ascii.eqb (ch l) c = true] contradicts
    a fact [H] about the class of [ch l]. *)
Ltac wrong_char H :=
  match goal with
  | E : Ascii.eqb _ _ = true |- _ =>
      apply Ascii.eqb_eq in E; rewrite E in H; vm_compute in H;
      discriminate H
  end.

Lemma digit_not_letter c : isdigit c = true -> is_letter c = false.
Proof.
  destruct c as [[] [] [] [] [] [] [] []]; vm_compute; congruence.
Qed.

Lemma classify_letter l :
  is_letter (ch l) = true ->
  classify l
  = (let '(identifier, self1) := _read_identifier l in
     inr (token_here (_lookup_identifier identifier) (VStr identifier)
            (len identifier) self1, self1)).
Proof.
  intros H. unfold classify.
  repeat match goal with
    | |- (if Ascii.eqb (ch l) ?c then _ else _) = _ =>
        destruct (Ascii.eqb (ch l) c) eqn:?; [wrong_char H|]
    end.
  now rewrite H.
Qed.

Lemma classify_digit l :
  isdigit (ch l) = true ->
  classify l
  = match _read_number l with
    | inl e => inl e
    | inr (number, self1) =>
        inr (token_here NUMBER (VInt number) (len (str number)) self1,
             self1)
    end.
Proof.
  intros H. unfold classify.
  repeat match goal with
    | |- (if Ascii.eqb (ch l) ?c then _ else _) = _ =>
        destruct (Ascii.eqb (ch l) c) eqn:?; [wrong_char H|]
    end.
  destruct (is_letter (ch l)) eqn:El.
  - rewrite (digit_not_letter _ H) in El. discriminate El.
  - destruct (Ascii.eqb (ch l) QUOTE) eqn:?; [wrong_char H|].
    destruct (Ascii.eqb (ch l) "'") eqn:?; [wrong_char H|].
    simpl. now rewrite H.
Qed.

Lemma classify_bang l :
  ch l = "!"%char -> _peek_char l <> "="%char ->
  classify l = illegal_result l.
Proof.
  intros H Hp. unfold classify. rewrite H. simpl.
  apply Ascii.eqb_neq in Hp. rewrite Hp. unfold illegal_result.
  now rewrite H.
Qed.

Lemma classify_quote l :
  ch l = QUOTE \/ ch l = "'"%char -> classify l = illegal_result l.
Proof.
  intros [H|H]; unfold classify, illegal_result; rewrite H; reflexivity.
Qed.

End LexerFacts.

(** ** The lexer reads forward only *)

(** A call of [next_token] looks at the text from the cursor on, and at
    its length: on a text that differs before the cursor only, every
    call returns what it returns here. *)
Module FrameFacts.
Import Py Lexer LexSpec PyFacts LexerFacts.

Lemma same_from_le i j s s' :
  same_from i s s' -> (i <= j)%nat -> same_from j s s'.
Proof. intros [Hl H] Hij. split; [exact Hl|]. intros k Hk. apply H. lia. Qed.

Lemma read_char_on i s' l :
  same_from i (input l) s' -> (i <= read_position l)%nat ->
  _read_char (on_text s' l) = on_text s' (_read_char l).
Proof.
  intros [Hl H] Hi. unfold _read_char, on_text. simpl.
  change (if (len s' <=? read_position l)%nat then NUL
          else index s' (read_position l))
    with (char_at s' (read_position l)).
  change (if (len (input l) <=? read_position l)%nat then NUL
          else index (input l) (read_position l))
    with (char_at (input l) (read_position l)).
  rewrite (H _ Hi).
  destruct (Ascii.eqb (char_at (input l) (read_position l)) LF); reflexivity.
Qed.

Lemma skip_body_on i s' l :
  same_from i (input l) s' -> (i <= read_position l)%nat ->
  _skip_whitespace_body (on_text s' l)
  = on_text s' (_skip_whitespace_body l).
Proof.
  intros H Hi. unfold _skip_whitespace_body. simpl.
  destruct (Ascii.eqb (ch l) LF).
  - apply (read_char_on i s'
             (mk (input l) (position l) (read_position l) (ch l)
                (line l + 1) 0)); assumption.
  - apply (read_char_on i s'
             (mk (input l) (position l) (read_position l) (ch l)
                (line l) (column l + 1))); assumption.
Qed.

Section LoopOn.
Variable cond : ascii -> bool.
Variable body : Lexer.t -> Lexer.t.
Variable i : nat.
Variable s' : string.
Hypothesis body_advances : advances body.
Hypothesis body_on : forall l,
  same_from i (input l) s' -> (i <= read_position l)%nat ->
  body (on_text s' l) = on_text s' (body l).

Lemma while_ch_n_on : forall n l,
  same_from i (input l) s' -> (i <= read_position l)%nat ->
  while_ch_n n cond body (on_text s' l)
  = on_text s' (while_ch_n n cond body l).
Proof.
  induction n as [|n IH]; intros l H Hi; simpl; [reflexivity|].
  destruct (cond (ch l)); [|reflexivity].
  rewrite body_on by assumption.
  destruct (body_advances l) as (Hin & _ & Hr & _).
  apply IH; [now rewrite Hin|rewrite Hr; lia].
Qed.

Lemma while_ch_on l :
  same_from i (input l) s' -> (i <= read_position l)%nat ->
  while_ch cond body (on_text s' l) = on_text s' (while_ch cond body l).
Proof.
  intros H Hi. unfold while_ch.
  replace (loop_bound (on_text s' l)) with (loop_bound l)
    by (unfold loop_bound, on_text; cbn [input read_position];
        now rewrite (proj1 H)).
  now apply while_ch_n_on.
Qed.
End LoopOn.

Lemma substring_same s : forall s' a m,
  String.length s' = String.length s ->
  (forall j, (a <= j < String.length s)%nat -> index s' j = index s j) ->
  substring a m s' = substring a m s.
Proof.
  unfold index.
  induction s as [|c s IH]; intros [|c' s'] a m Hl H; simpl in Hl;
    try discriminate; [reflexivity|].
  destruct a as [|a]; simpl.
  - destruct m as [|m]; [reflexivity|].
    pose proof (H 0%nat) as H0. simpl in H0. rewrite H0 by lia.
    f_equal. apply IH; [lia|]. intros j Hj. apply (H (S j)). simpl. lia.
  - apply IH; [lia|]. intros j Hj. apply (H (S j)). simpl. lia.
Qed.

Lemma slice_same i s s' a b :
  same_from i s s' -> (i <= a)%nat -> slice s' a b = slice s a b.
Proof.
  intros [Hl H] Hi. unfold slice. apply substring_same; [exact Hl|].
  intros j Hj. fold (len s) in Hj.
  rewrite <- !char_at_index by (rewrite ?Hl; lia). apply H. lia.
Qed.

Lemma peek_char_on i s' l :
  same_from i (input l) s' -> (i <= read_position l)%nat ->
  _peek_char (on_text s' l) = _peek_char l.
Proof. intros [_ H] Hi. apply (H _ Hi). Qed.

Lemma read_identifier_on s' l :
  ok l -> same_from (position l) (input l) s' ->
  _read_identifier (on_text s' l)
  = (fst (_read_identifier l), on_text s' (snd (_read_identifier l))).
Proof.
  intros Hok H. unfold _read_identifier.
  assert (Hr : (position l <= read_position l)%nat)
    by (destruct Hok as [-> _]; lia).
  rewrite (while_ch_on _ _ (position l) s' read_char_advances
             (read_char_on (position l) s') l H Hr).
  cbn [fst snd input position on_text]. f_equal.
  destruct (ident_loop_spec l Hok) as (_ & Hi & _).
  unfold word_char in Hi. rewrite Hi.
  now apply (slice_same (position l)).
Qed.

Lemma read_number_on s' l :
  ok l -> same_from (position l) (input l) s' ->
  _read_number (on_text s' l) = 
  match _read_number l with
  | inl e => inl e
  | inr (n, l1) => inr (n, on_text s' l1)
  end.
Proof.
  intros Hok H. unfold _read_number.
  assert (Hr : (position l <= read_position l)%nat)
    by (destruct Hok as [-> _]; lia).
  rewrite (while_ch_on _ _ (position l) s' read_char_advances
             (read_char_on (position l) s') l H Hr).
  cbn [input position on_text].
  destruct (number_loop_spec l Hok) as (_ & Hi & _).
  rewrite Hi, (slice_same (position l) _ _ _ _ H (le_n _)).
  destruct (int _); reflexivity.
Qed.

Lemma classify_on s' l :
  ok l -> same_from (position l) (input l) s' ->
  classify (on_text s' l) = moved s' (classify l).
Proof.
  intros Hok H.
  assert (Hr : (position l <= read_position l)%nat)
    by (destruct Hok as [-> _]; lia).
  unfold classify.
  rewrite (peek_char_on _ _ _ H Hr), (read_char_on _ _ _ H Hr),
    (read_identifier_on _ _ Hok H), (read_number_on _ _ Hok H).
  change (ch (on_text s' l)) with (ch l).
  repeat match goal with
    | |- context [if ?b then _ else _] => destruct b
    end; try reflexivity;
    try (destruct (_read_identifier l) as [w l1]; reflexivity);
    destruct (_read_number l) as [e|[n l1]]; reflexivity.
Qed.

Lemma next_token_on s' l :
  ok l -> same_from (position l) (input l) s' ->
  next_token (on_text s' l) = moved s' (next_token l).
Proof.
  intros Hok H.
  assert (Hr : (position l <= read_position l)%nat)
    by (destruct Hok as [-> _]; lia).
  unfold next_token, _skip_whitespace.
  rewrite (while_ch_on _ _ (position l) s' skip_body_advances
             (skip_body_on (position l) s') l H Hr).
  destruct (skip_ws_spec l Hok) as (Hok0 & Hi0 & Hp0 & _).
  unfold _skip_whitespace in *.
  set (l0 := while_ch isspace _skip_whitespace_body l) in *.
  assert (H0 : same_from (position l0) (input l0) s')
    by (rewrite Hi0; now apply (same_from_le (position l))).
  rewrite (classify_on _ _ Hok0 H0).
  destruct (classify l0) as [e|[tk l1]] eqn:Ec; [reflexivity|]. simpl.
  destruct (classify_spec _ _ _ Hok0 Ec) as ((Hr1 & _) & Hi1 & Hp1 & _).
  rewrite (read_char_on (position l0) s'); [reflexivity| |lia].
  now rewrite Hi1.
Qed.

Lemma pull_on s' k : forall l,
  ok l -> same_from (position l) (input l) s' ->
  pull k (on_text s' l) = moved s' (pull k l).
Proof.
  induction k as [|k IH]; intros l Hok H; simpl.
  - now apply next_token_on.
  - rewrite (next_token_on _ _ Hok H).
    destruct (next_token l) as [e|[tk l1]] eqn:E; [reflexivity|]. simpl.
    destruct (next_token_spec _ _ _ Hok E) as (Hok1 & Hi1 & Hp1 & _).
    apply IH; [exact Hok1|]. rewrite Hi1.
    apply (same_from_le (position l)); [exact H|lia].
Qed.

Lemma returned_moved s' r : returned (moved s' r) = returned r.
Proof. destruct r as [e|[tk l]]; reflexivity. Qed.

Lemma run_unique P s a b b' :
  run P s a b -> run P s a b' -> (a <= b)%nat -> (a <= b')%nat -> b = b'.
Proof.
  intros [H1 E1] [H2 E2] Hb Hb'.
  destruct (Nat.lt_trichotomy b b') as [Hlt|[Heq|Hgt]]; [|exact Heq|].
  - rewrite H2 in E1 by lia. discriminate E1.
  - rewrite H1 in E2 by lia. discriminate E2.
Qed.

Lemma pull_after k : forall l tk l',
  ok l -> pull k l = inr (tk, l') ->
  Z.of_nat (position l) <= Token.position tk.
Proof.
  induction k as [|k IH]; intros l tk l' Hok H; simpl in H.
  - destruct (next_token_spec _ _ _ Hok H) as (_ & _ & _ & _ & ? & _).
    assumption.
  - destruct (next_token l) as [e|[tk1 l1]] eqn:E; [discriminate|].
    destruct (next_token_spec _ _ _ Hok E) as (Hok1 & _ & Hp & _).
    specialize (IH _ _ _ Hok1 H). lia.
Qed.

End FrameFacts.

(** ** Short slices *)

Module PayloadFacts.
Import Py Lexer LexSpec PyFacts LexerFacts.

Lemma substring_one s : forall a,
  (a < len s)%nat -> substring a 1 s = one (index s a).
Proof.
  unfold len, index, one.
  induction s as [|c s IH]; intros a Ha; simpl in *; [lia|].
  destruct a as [|a].
  - now destruct s.
  - apply IH. lia.
Qed.

Lemma substring_two s : forall a,
  (S a < len s)%nat ->
  substring a 2 s = String (index s a) (one (index s (S a))).
Proof.
  unfold len, index, one.
  induction s as [|c s IH]; intros a Ha; simpl in *; [lia|].
  destruct a as [|a].
  - destruct s as [|c' s]; simpl in *; [lia|]. now destruct s.
  - apply IH. lia.
Qed.

Lemma char_at_inside s i : char_at s i <> NUL -> (i < len s)%nat.
Proof.
  intros H. destruct (Nat.leb_spec (len s) i) as [Hle|]; [|assumption].
  now rewrite char_at_past in H.
Qed.

Lemma slice_chars1 s a c :
  char_at s a = c -> c <> NUL -> slice s a (a + 1) = one c.
Proof.
  intros <- Hn. apply char_at_inside in Hn. unfold slice.
  replace (a + 1 - a)%nat with 1%nat by lia.
  now rewrite substring_one, char_at_index.
Qed.

Lemma slice_chars2 s a c1 c2 :
  char_at s a = c1 -> char_at s (S a) = c2 -> c2 <> NUL ->
  slice s a (a + 2) = String c1 (one c2).
Proof.
  intros <- <- Hn. apply char_at_inside in Hn. unfold slice.
  replace (a + 2 - a)%nat with 2%nat by lia.
  rewrite substring_two, !char_at_index by lia. reflexivity.
Qed.

End PayloadFacts.

(** ** The line and column counters *)

Module CounterFacts.
Import Py Lexer LexSpec PyFacts LexerFacts.

Lemma newlines_nonneg s n : forall a, 0 <= newlines s a n.
Proof.
  induction n as [|n IH]; intros a; simpl; [lia|].
  specialize (IH (S a)). destruct (Ascii.eqb _ LF); lia.
Qed.

Lemma newlines_add s n : forall a m,
  newlines s a (n + m) = newlines s a n + newlines s (a + n) m.
Proof.
  induction n as [|n IH]; intros a m; simpl.
  - now rewrite Nat.add_0_r.
  - rewrite IH. replace (S a + n)%nat with (a + S n)%nat by lia. lia.
Qed.

Lemma counted_refl s l : counted s l l.
Proof.
  unfold counted. rewrite Nat.sub_diag. simpl.
  repeat split; intros; lia.
Qed.

Lemma counted_trans s l l' l'' :
  counted s l l' -> counted s l' l'' -> counted s l l''.
Proof.
  intros (Hp & Hl & Hc & Hm & Hr) (Hp' & Hl' & Hc' & Hm' & Hr').
  pose proof (newlines_nonneg s (position l' - position l)
                (S (position l))).
  pose proof (newlines_nonneg s (position l'' - position l')
                (S (position l'))).
  assert (Hn : newlines s (S (position l)) (position l'' - position l)
               = newlines s (S (position l)) (position l' - position l)
                 + newlines s (S (position l'))
                     (position l'' - position l')).
  { replace (position l'' - position l)%nat
      with ((position l' - position l)
            + (position l'' - position l'))%nat by lia.
    rewrite newlines_add. do 2 f_equal. lia. }
  unfold counted. rewrite Hn.
  split; [lia|]. split; [lia|]. split; [|split].
  - intros E. assert (line l' = line l) by lia.
    assert (line l'' = line l') by lia. lia.
  - lia.
  - intros i Hi Hc0.
    destruct (Nat.leb_spec i (position l')) as [Hle|Hgt].
    + specialize (Hr i ltac:(lia) Hc0). lia.
    + apply Hr'; [lia|exact Hc0].
Qed.

Lemma tracked_counted s l l' :
  tracked s l -> counted s l l' -> tracked s l'.
Proof.
  intros (Hl & Hr) (Hp' & Hl' & _ & Hm' & Hr').
  assert (Hn : newlines s 0 (S (position l'))
               = newlines s 0 (S (position l))
                 + newlines s (S (position l))
                     (position l' - position l)).
  { replace (S (position l'))
      with (S (position l) + (position l' - position l))%nat by lia.
    now rewrite newlines_add. }
  unfold tracked. rewrite Hn. split; [lia|].
  intros i Hi Hc0.
  destruct (Nat.leb_spec i (position l)) as [Hle|Hgt].
  - specialize (Hr i Hle Hc0). lia.
  - apply Hr'; [lia|exact Hc0].
Qed.

(** One [_read_char] from a constructed state. *)
Lemma read_char_counted l : ok l -> counted (input l) l (_read_char l).
Proof.
  intros [Hr _]. unfold counted, _read_char.
  change (if (len (input l) <=? read_position l)%nat then NUL
          else index (input l) (read_position l))
    with (char_at (input l) (read_position l)).
  rewrite Hr.
  destruct (Ascii.eqb (char_at (input l) (S (position l))) LF) eqn:E;
    cbn [position line column];
    replace (S (position l) - position l)%nat with 1%nat by lia;
    cbn [newlines]; rewrite E;
    (split; [lia|]); (split; [lia|]); (split; [lia|]); (split; [lia|]);
    intros i Hi Hc; assert (i = S (position l)) by lia; subst i.
  - lia.
  - apply Ascii.eqb_neq in E. contradiction.
Qed.

(** One iteration of the loop of [_skip_whitespace]. *)
Lemma skip_body_counted l :
  ok l -> counted (input l) l (_skip_whitespace_body l).
Proof.
  intros [Hr _]. unfold counted, _skip_whitespace_body, _read_char.
  cbn [input read_position].
  replace (input (if Ascii.eqb (ch l) LF
                  then mk (input l) (position l) (read_position l) (ch l)
                         (line l + 1) 0
                  else mk (input l) (position l) (read_position l) (ch l)
                         (line l) (column l + 1)))
    with (input l) by (destruct (Ascii.eqb (ch l) LF); reflexivity).
  replace (read_position
             (if Ascii.eqb (ch l) LF
              then mk (input l) (position l) (read_position l) (ch l)
                     (line l + 1) 0
              else mk (input l) (position l) (read_position l) (ch l)
                     (line l) (column l + 1)))
    with (read_position l) by (destruct (Ascii.eqb (ch l) LF); reflexivity).
  change (if (len (input l) <=? read_position l)%nat then NUL
          else index (input l) (read_position l))
    with (char_at (input l) (read_position l)).
  rewrite Hr.
  destruct (Ascii.eqb (char_at (input l) (S (position l))) LF) eqn:E;
    destruct (Ascii.eqb (ch l) LF);
    cbn [position line column];
    replace (S (position l) - position l)%nat with 1%nat by lia;
    cbn [newlines]; rewrite E;
    (split; [lia|]); (split; [lia|]); (split; [lia|]); (split; [lia|]);
    intros i Hi Hc; assert (i = S (position l)) by lia; subst i;
    try lia; apply Ascii.eqb_neq in E; contradiction.
Qed.

Section LoopCounted.
Variable cond : ascii -> bool.
Variable body : Lexer.t -> Lexer.t.
Hypothesis body_advances : advances body.
Hypothesis body_counted : forall l, ok l -> counted (input l) l (body l).

Lemma while_ch_n_counted : forall n l,
  ok l -> counted (input l) l (while_ch_n n cond body l).
Proof.
  induction n as [|n IH]; intros l Hok; simpl; [apply counted_refl|].
  destruct (cond (ch l)); [|apply counted_refl].
  apply (counted_trans _ _ (body l)); [now apply body_counted|].
  destruct (body_advances l) as (Hi & _).
  rewrite <- Hi. apply IH. now apply advances_ok.
Qed.
End LoopCounted.

Lemma skip_whitespace_counted l :
  ok l -> counted (input l) l (_skip_whitespace l).
Proof.
  apply (while_ch_n_counted _ _ skip_body_advances skip_body_counted).
Qed.

(** The state [classify] builds its token at, and the column it
    records: at most as many columns back as the call has passed
    characters. *)
Lemma classify_counted l tk l1 :
  ok l -> classify l = inr (tk, l1) ->
  counted (input l) l l1
  /\ Token.line tk = line l1
  /\ column l1 - Z.of_nat (position l1 - position l) <= Token.column tk
     <= column l1.
Proof.
  intros Hok H. unfold classify in H.
  pose proof (read_char_counted l Hok) as Hrc.
  pose proof (read_char_position l Hok) as Hrp.
  pose proof (counted_refl (input l) l) as Hrefl.
  cascade H; injection H as <- <-; unfold token_here;
    cbn [Token.line Token.column];
    try (split; [assumption|]; split; [reflexivity|]; lia).
  - (* identifier *)
    unfold _read_identifier in *.
    match goal with E : (_, _) = (_, _) |- _ => injection E as <- <- end.
    destruct (ident_loop_spec l Hok) as (_ & Hi & Hp & _).
    fold word_char.
    pose proof (slice_length_le (input (while_ch word_char _read_char l))
                  (position l)
                  (position (while_ch word_char _read_char l))).
    split; [|split; [reflexivity|lia]].
    apply (while_ch_n_counted _ _ read_char_advances read_char_counted).
    exact Hok.
  - (* number *)
    unfold _read_number in *.
    destruct (number_loop_spec l Hok) as (_ & Hi & Hp & _).
    match goal with
      E : match int ?s with _ => _ end = _ |- _ =>
        destruct (int s) as [|n] eqn:Ei; [discriminate E|];
        injection E as <- <-;
        destruct (int_str_length _ _ Ei) as [Hn Hlen];
        pose proof (slice_length_le (input (while_ch isdigit _read_char l))
                      (position l)
                      (position (while_ch isdigit _read_char l)))
    end.
    split; [|split; [reflexivity|lia]].
    apply (while_ch_n_counted _ _ read_char_advances read_char_counted).
    exact Hok.
Qed.

(** One call of [next_token]: the state [b] the token is built at. *)
Lemma next_token_counted l tk l' :
  ok l -> next_token l = inr (tk, l') ->
  exists b,
    ok b /\ input b = input l /\ l' = _read_char b
    /\ counted (input l) l b
    /\ Token.line tk = line b
    /\ column b - Z.of_nat (position b - position l) <= Token.column tk
       <= column b.
Proof.
  intros Hok H. unfold next_token in H.
  destruct (skip_ws_spec l Hok) as (Hok0 & Hi0 & Hp0 & _).
  pose proof (skip_whitespace_counted l Hok) as Hc0.
  fold (_skip_whitespace l) in Hok0, Hi0, Hp0.
  destruct (classify (_skip_whitespace l)) as [e|[tk1 l1]] eqn:Ec;
    [discriminate|].
  injection H as <- <-.
  destruct (classify_spec _ _ _ Hok0 Ec) as (Hok1 & Hi1 & Hp1 & _).
  destruct (classify_counted _ _ _ Hok0 Ec) as (Hc1 & Hl1 & Hcol).
  rewrite Hi0 in Hc1.
  exists l1. split; [exact Hok1|]. split; [congruence|].
  split; [reflexivity|].
  split; [exact (counted_trans _ _ _ _ Hc0 Hc1)|].
  split; [exact Hl1|]. lia.
Qed.

Lemma init_tracked s : tracked s (init s).
Proof.
  unfold tracked, init, _read_char. cbn [input read_position].
  change (if (len s <=? 0)%nat then NUL else index s 0)
    with (char_at s 0).
  destruct (Ascii.eqb (char_at s 0) LF) eqn:E;
    cbn [position line column newlines]; rewrite E; (split; [lia|]);
    intros i Hi Hc; assert (i = 0%nat) by lia; subst i.
  - lia.
  - apply Ascii.eqb_neq in E. contradiction.
Qed.

(** The call that returns the [(k+1)]-th token. *)
Lemma pull_last k : forall l tk l',
  ok l -> tracked (input l) l -> pull k l = inr (tk, l') ->
  exists l0,
    ok l0 /\ input l0 = input l /\ tracked (input l) l0
    /\ next_token l0 = inr (tk, l').
Proof.
  induction k as [|k IH]; intros l tk l' Hok Ht H; simpl in H.
  - exists l. auto.
  - destruct (next_token l) as [e|[tk1 l1]] eqn:E; [discriminate|].
    destruct (next_token_spec _ _ _ Hok E) as (Hok1 & Hi1 & _).
    destruct (next_token_counted _ _ _ Hok E)
      as (b & Hokb & Hib & -> & Hcb & _).
    assert (Ht1 : tracked (input l) (_read_char b)).
    { apply (tracked_counted _ b); [now apply (tracked_counted _ l)|].
      rewrite <- Hib. now apply read_char_counted. }
    rewrite <- Hi1 in Ht1.
    destruct (IH _ _ _ Hok1 Ht1 H) as (l0 & Hok0 & Hi0 & Ht0 & E0).
    exists l0. rewrite Hi1 in Hi0, Ht0. auto.
Qed.

End CounterFacts.

(** ** The lexer claims *)

Section LexerClaims.
Import Py Lexer LexSpec PyFacts LexerFacts.
Import FrameFacts PayloadFacts CounterFacts.

(** *** Termination and progress of the lexer *)

(** The [while True] loop of [tokenize_all] is always left: by its
    [break], or by an exception. *)
Theorem lex_terminates (s : string) : lex s <> None.
Proof.
  unfold lex, tokenize_all.
  pose proof (tokenize_all_n_spec (S (S (len s))) (init s) []
                (init_ok s)) as H.
  rewrite init_input, init_position in H. specialize (H ltac:(lia)).
  intros E. now rewrite E in H.
Qed.

(** When every digit of the text is a decimal digit and no run of
    digits is longer than [int] accepts, lexing yields a token list that
    ends with [EOF], the only [EOF] in it. *)
Theorem lex_decimal_total (s : string) :
  has_odd_digit s = false -> has_long_run s = false ->
  exists front last,
    lex s = Some (inr (front ++ [last])%list)
    /\ Token.token_type last = EOF
    /\ Forall (fun tk => Token.token_type tk <> EOF) front.
Proof.
  intros Hodd Hlong. unfold lex, tokenize_all.
  pose proof (tokenize_all_n_spec (S (S (len s))) (init s) []
                (init_ok s)) as H.
  rewrite init_input, init_position in H. specialize (H ltac:(lia)).
  destruct (tokenize_all_n (S (S (len s))) (init s) []) as [[e|ts]|];
    [destruct H; congruence| |contradiction].
  destruct H as (front & last & -> & Hl & Hf).
  exists front, last. simpl. auto.
Qed.

(** Each call that returns has moved the cursor on. *)
Theorem next_token_progress l tk l' :
  ok l -> next_token l = inr (tk, l') -> (position l < position l')%nat.
Proof. intros Hok H. now destruct (next_token_spec _ _ _ Hok H) as (_ & _ & ? & _). Qed.

(** C4 (the code at the failing input): on the one-character text
    U+00B2, SUPERSCRIPT TWO, [isdigit] sends [next_token] into
    [_read_number] and [int] raises [ValueError]: no token sequence is
    produced. *)
Theorem lex_superscript_two_raises :
  lex (String "178" EmptyString) = Some (inl ValueError).
Proof. vm_compute. reflexivity. Qed.


(** *** The character after a word, a number or an illegal character *)

(** C5: when [next_token] is at a letter, the call returns the token
    made of the maximal run [start, stop) of word characters and leaves
    the cursor at [stop + 1]: the character at [stop], which is not part
    of the token, has been consumed with it.  At a digit it does the
    same with the maximal run of digits whenever [int] reads the run
    (decimal digits, not too many), and raises [ValueError] otherwise.
    After a lone [!] and after a quote it returns [ILLEGAL] and the
    cursor is two characters on, so the character after the illegal one
    is consumed as well.  A character consumed in this way is never a
    token of its own: every later token is recorded at or after the new
    cursor, and the later calls return the same on any text of the same
    length that has the same characters from the new cursor on, whatever
    character it has in the place of the consumed one. *)
Theorem next_token_swallows_following_char l :
  ok l ->
  (is_letter (ch (_skip_whitespace l)) = true ->
     exists stop tk l',
       next_token l = inr (tk, l')
       /\ (position (_skip_whitespace l) < stop)%nat
       /\ run word_char (input l) (position (_skip_whitespace l)) stop
       /\ Token.token_type tk
          = _lookup_identifier
              (slice (input l) (position (_skip_whitespace l)) stop)
       /\ Token.value tk
          = VStr (slice (input l) (position (_skip_whitespace l)) stop)
       /\ position l' = S stop)
  /\ (isdigit (ch (_skip_whitespace l)) = true ->
     exists stop,
       (position (_skip_whitespace l) < stop)%nat
       /\ run isdigit (input l) (position (_skip_whitespace l)) stop
       /\ (all_chars decimal
             (slice (input l) (position (_skip_whitespace l)) stop) = true ->
           Z.of_nat (stop - position (_skip_whitespace l))
           <= int_max_str_digits ->
           exists n tk l',
             next_token l = inr (tk, l')
             /\ int (slice (input l) (position (_skip_whitespace l)) stop)
                = inr n
             /\ Token.token_type tk = NUMBER /\ Token.value tk = VInt n
             /\ position l' = S stop)
       /\ (all_chars decimal
             (slice (input l) (position (_skip_whitespace l)) stop) = false
           \/ int_max_str_digits
              < Z.of_nat (stop - position (_skip_whitespace l)) ->
           next_token l = inl ValueError))
  /\ ((ch (_skip_whitespace l) = "!"%char
       /\ _peek_char (_skip_whitespace l) <> "="%char)
      \/ ch (_skip_whitespace l) = QUOTE
      \/ ch (_skip_whitespace l) = "'"%char ->
     exists tk l',
       next_token l = inr (tk, l')
       /\ Token.token_type tk = ILLEGAL
       /\ Token.value tk = VStr (one (ch (_skip_whitespace l)))
       /\ position l' = (position (_skip_whitespace l) + 2)%nat)
  /\ (forall tk l', next_token l = inr (tk, l') ->
        (position (_skip_whitespace l) < position l')%nat
        /\ (forall j tk2 l2, pull j l' = inr (tk2, l2) ->
              Z.of_nat (position l') <= Token.position tk2)
        /\ (forall s' j, same_from (position l') (input l) s' ->
              returned (pull j (on_text s' l')) = returned (pull j l'))).
Proof.
  intros Hok.
  destruct (skip_ws_spec l Hok) as (Hok0 & Hi0 & Hp0 & _).
  fold (_skip_whitespace l) in Hok0, Hi0, Hp0.
  unfold next_token.
  set (l0 := _skip_whitespace l) in *.
  split; [|split; [|split]].
  - (* a word *)
    intros Hl. rewrite (classify_letter l0 Hl).
    unfold _read_identifier.
    change (while_ch (fun c => is_letter c || isdigit c) _read_char l0)
      with (while_ch word_char _read_char l0).
    destruct (ident_loop_spec l0 Hok0) as (Hok1 & Hi1 & Hp1 & _ & Hall & Hex).
    set (l1 := while_ch word_char _read_char l0) in *.
    exists (position l1). do 2 eexists. split; [reflexivity|].
    rewrite <- Hi0. unfold run.
    assert (position l0 <> position l1).
    { intros E. destruct Hok0 as [_ Hch]. rewrite <- E, <- Hch in Hex.
      unfold word_char in Hex. rewrite Hl in Hex. discriminate. }
    repeat split; try assumption; try lia.
    + simpl. now rewrite Hi1.
    + simpl. now rewrite Hi1.
    + now apply read_char_position.
  - (* a number *)
    intros Hd. rewrite (classify_digit l0 Hd).
    destruct (read_number_at l0 Hok0 Hd) as (Hp & Hrun & Hl & E).
    destruct (number_loop_spec l0 Hok0) as (Hok1 & _).
    set (l1 := while_ch isdigit _read_char l0) in *.
    exists (position l1). rewrite <- Hi0.
    split; [lia|]. split; [exact Hrun|]. split.
    + intros Hdec Hlen.
      destruct (read_number_returns l0 Hok0 Hd Hdec Hlen) as (n & Hn & ->).
      exists n. do 2 eexists. split; [reflexivity|].
      repeat split; try assumption.
      now apply read_char_position.
    + intros H. now rewrite (read_number_raises l0 Hok0 Hd H).
  - (* an illegal character *)
    intros Hc.
    assert (Hr : classify l0 = illegal_result l0).
    { destruct Hc as [[Hb Hp]|Hq];
        [now apply classify_bang|now apply classify_quote]. }
    rewrite Hr. unfold illegal_result. do 2 eexists.
    split; [reflexivity|]. repeat split.
    rewrite (read_char_position _ (read_char_ok l0)).
    rewrite (read_char_position _ Hok0). lia.
  - (* the tokens after it *)
    intros tk l' H.
    assert (Hn : next_token l = inr (tk, l')) by exact H.
    destruct (next_token_spec _ _ _ Hok Hn) as (Hok' & Hi' & _).
    destruct (classify l0) as [e|[tk1 l1]] eqn:Ec; [discriminate|].
    injection H as <- <-.
    destruct (classify_spec _ _ _ Hok0 Ec) as (Hok1 & _ & Hp1 & _).
    pose proof (read_char_position _ Hok1) as Hrp.
    split; [lia|]. split.
    + intros j tk2 l2 H2. exact (pull_after _ _ _ _ Hok' H2).
    + intros s' j Hs. rewrite <- Hi' in Hs.
      now rewrite (pull_on s' j _ Hok' Hs), returned_moved.
Qed.


(** *** Illegal characters *)

(** C6 (the code at the failing input): on ["@x"] the first call
    returns [ILLEGAL] carrying ["@"] and leaves the cursor two
    characters on, so the [x] is lost and the token after it is [EOF];
    on ["a'b"] the quote is consumed with the word before it and no
    [ILLEGAL] token is produced at all. *)
Theorem illegal_char_consumes_two :
  match next_token (init "@x") with
  | inr (tk, l') =>
      Token.token_type tk = ILLEGAL /\ Token.value tk = VStr "@"
      /\ position l' = 2%nat
  | inl _ => False
  end
  /\ lex_kinds "@x" = Some [(ILLEGAL, VStr "@"); (EOF, VNone)]
  /\ lex_kinds "a'b"
     = Some [(IDENTIFIER, VStr "a"); (IDENTIFIER, VStr "b"); (EOF, VNone)].
Proof. vm_compute. repeat split. Qed.

(** *** Payloads *)

(** C7, as stated, fails: the token lexed from ["{"] is a symbol and
    carries the text ["{"]. *)
Lemma symbol_token_carries_text :
  ~ (forall l tk l',
       next_token l = inr (tk, l') -> payload_as_specified tk = true).
Proof.
  intros H.
  specialize (H (init "{") (Token.mk LEFT_BRACE (VStr "{") 1 1 0)
                (_read_char (init "{")) eq_refl).
  vm_compute in H. discriminate H.
Qed.

(** C7, amended: every token [next_token] returns has the payload of
    its kind -- text for an identifier, the keyword's own text for a
    keyword, a natural number for a number, the symbol's spelling for a
    symbol, nothing for [EOF], one character for [ILLEGAL] -- and the
    payload is what the text has at the cursor, after the whitespace: a
    word carries the maximal run of word characters there, a number the
    value of the maximal run of digits, a symbol the characters it is
    spelled with, an illegal token the one character under the cursor. *)
Theorem token_payload_as_built l tk l' :
  next_token l = inr (tk, l') ->
  payload_as_built tk = true
  /\ (ok l ->
      payload_of_text (input l) (position (_skip_whitespace l)) tk).
Proof.
  intros H. unfold next_token in H.
  destruct (classify (_skip_whitespace l)) as [e|[tk1 l1]] eqn:Ec;
    [discriminate|].
  injection H as <- _. split.
  - unfold classify in Ec.
    cascade Ec; injection Ec as <- _; try reflexivity.
    + (* identifier or keyword *)
      unfold payload_as_built, token_here. simpl.
      destruct (lookup_cases s) as [E|E].
      * now rewrite E.
      * destruct (_lookup_identifier s) eqn:El; try discriminate E;
          rewrite <- El; unfold TokenType_eqb;
          now destruct (TokenType_eq_dec _ _).
    + (* number *)
      unfold _read_number in *.
      match goal with
        E : match int ?s with _ => _ end = _ |- _ =>
          destruct (int s) as [|n] eqn:Ei; [discriminate E|];
          injection E as <- _;
          destruct (int_str_length _ _ Ei) as [Hn _]
      end.
      unfold payload_as_built. simpl. now apply Z.leb_le.
  - intros Hok.
    destruct (skip_ws_spec l Hok) as (Hok0 & Hi0 & _).
    fold (_skip_whitespace l) in Hok0, Hi0.
    set (l0 := _skip_whitespace l) in *. rewrite <- Hi0.
    assert (Hch : char_at (input l0) (position l0) = ch l0)
      by (symmetry; apply Hok0).
    assert (Hpk : char_at (input l0) (S (position l0)) = _peek_char l0)
      by (destruct Hok0 as [<- _]; reflexivity).
    destruct (is_letter (ch l0)) eqn:Hl; [|destruct (isdigit (ch l0)) eqn:Hd].
    + (* a word *)
      rewrite (classify_letter l0 Hl) in Ec. unfold _read_identifier in Ec.
      change (while_ch (fun c => is_letter c || isdigit c) _read_char l0)
        with (while_ch word_char _read_char l0) in Ec.
      destruct (ident_loop_spec l0 Hok0)
        as (Hok1 & Hi1 & Hp1 & _ & Hall & Hex).
      set (l1' := while_ch word_char _read_char l0) in *.
      injection Ec as <- _. rewrite Hi1.
      set (w := slice (input l0) (position l0) (position l1')).
      assert (A : forall ty, _lookup_identifier w = ty ->
                exists b,
                  (position l0 < b)%nat
                  /\ run word_char (input l0) (position l0) b
                  /\ VStr w = VStr (slice (input l0) (position l0) b)
                  /\ ty = _lookup_identifier
                            (slice (input l0) (position l0) b)).
      { intros ty Ety. exists (position l1'). unfold run.
        assert (position l0 <> position l1').
        { intros E. rewrite <- E, Hch in Hex.
          unfold word_char in Hex. rewrite Hl in Hex. discriminate. }
        repeat split; try assumption; try lia. now symmetry. }
      unfold payload_of_text. cbn [Token.token_type token_here Token.value].
      destruct (lookup_cases w) as [E|E];
        destruct (_lookup_identifier w) eqn:El; try discriminate E;
        now apply A.
    + (* a number *)
      rewrite (classify_digit l0 Hd) in Ec.
      destruct (read_number_at l0 Hok0 Hd) as (Hp & Hrun & _ & E).
      rewrite E in Ec.
      destruct (int (slice (input l0) (position l0)
                       (position (while_ch isdigit _read_char l0))))
        as [e|n] eqn:Ei; [discriminate|].
      injection Ec as <- _.
      destruct (int_str_length _ _ Ei) as [Hn _].
      exists (position (while_ch isdigit _read_char l0)), n.
      repeat split; try apply Hrun; try assumption; lia.
    + (* a symbol, an illegal character or the end *)
      unfold classify in Ec. rewrite Hl, Hd in Ec.
      cascade Ec; injection Ec as <- _;
        unfold payload_of_text;
        cbn [Token.token_type token_here Token.value];
        repeat match goal with
          | E : Ascii.eqb _ _ = true |- _ => apply Ascii.eqb_eq in E
          end;
        try reflexivity;
        try (split; [reflexivity|];
             first [ apply slice_chars2; [congruence|congruence|discriminate]
                   | apply slice_chars1; [congruence|discriminate] ]);
        (split; [|now rewrite Hch]); apply char_at_inside; rewrite Hch;
        clear Hch Hl Hd; remember (ch l0) as c eqn:Hc; clear Hc;
        intros E; subst c;
        match goal with
        | H : NUL = _ |- _ => discriminate H
        | H : _ = NUL |- _ => discriminate H
        | H : Ascii.eqb NUL _ = false |- _ => cbv in H; discriminate H
        | H : (_ || _) = true |- _ => cbv in H; discriminate H
        end.
Qed.


(** *** Recorded positions *)

(** C8, as stated, fails: in ["{ {\n{"] the second brace is recorded
    at column 4 and the third, on the next line, at column 1. *)
Lemma column_not_monotone :
  ~ (forall s k t1 l1 t2 l2,
       pull k (init s) = inr (t1, l1) ->
       pull (S k) (init s) = inr (t2, l2) ->
       Token.line t1 <= Token.line t2
       /\ Token.column t1 <= Token.column t2
       /\ Token.position t1 <= Token.position t2).
Proof.
  intros H.
  assert (E : exists t1 l1 t2 l2,
             pull 1 (init ("{ {" ++ String LF "{")) = inr (t1, l1)
             /\ pull 2 (init ("{ {" ++ String LF "{")) = inr (t2, l2)
             /\ Token.column t2 < Token.column t1).
  { vm_compute. do 4 eexists. repeat split; reflexivity. }
  destruct E as (t1 & l1 & t2 & l2 & E1 & E2 & Hc).
  destruct (H _ 1%nat _ _ _ _ E1 E2) as (_ & Hc' & _). lia.
Qed.

(** The newline that [_skip_whitespace] passes over is counted by
    [_read_char] when it is loaded and once more by the loop: the [EOF]
    of the one-line text ["\n"] is recorded on line 3. *)
Example newline_counted_twice :
  option_map (map Token.line)
    (match lex (String LF EmptyString) with Some (inr ts) => Some ts | _ => None end)
  = Some [3].
Proof. vm_compute. reflexivity. Qed.

(** C8, amended: of two successive tokens of one lexer the second is
    recorded on a later line, or on the same line at a later column,
    and at a later offset.  Each newline of the text adds to the line
    counter: the line of a token is beyond one by at least the number
    of newlines loaded when it is built, and beyond the line of the
    token before it by at least the number of newlines the call has
    loaded.  Each newline starts the column counter again: the column
    of a token is bounded by its distance from any newline before it,
    a character counting for two columns at most. *)
Theorem token_line_column_offset_order s k t1 l1 t2 l2 :
  pull k (init s) = inr (t1, l1) ->
  pull (S k) (init s) = inr (t2, l2) ->
  (Token.line t1 < Token.line t2
   \/ (Token.line t1 = Token.line t2
       /\ Token.column t1 < Token.column t2))
  /\ Token.position t1 < Token.position t2
  /\ Token.line t1 + newlines s (position l1) (position l2 - position l1)
     <= Token.line t2
  /\ after_newlines s (position l1) t1
  /\ after_newlines s (position l2) t2.
Proof.
  intros H1 H2.
  pose proof H2 as H2'. rewrite pull_next, H1 in H2'.
  destruct (pull_last _ _ _ _ (init_ok s) ltac:(rewrite init_input; apply init_tracked) H1)
    as (l0 & Hok0 & Hi0 & Ht0 & E1).
  rewrite init_input in Hi0, Ht0.
  destruct (next_token_spec _ _ _ Hok0 E1) as (Hok1 & Hi1 & Hp1 & _ & Hq1).
  destruct (next_token_spec _ _ _ Hok1 H2') as (_ & _ & _ & _ & Hq2).
  destruct (next_token_counted _ _ _ Hok0 E1)
    as (b1 & Hokb1 & Hib1 & -> & Hc1 & Hl1 & Hcol1).
  destruct (next_token_counted _ _ _ Hok1 H2')
    as (b2 & Hokb2 & Hib2 & -> & Hc2 & Hl2 & Hcol2).
  rewrite Hi0 in *. rewrite Hi1 in *.
  pose proof (read_char_counted b1 Hokb1) as Hr1. rewrite Hib1 in Hr1.
  pose proof (counted_trans _ _ _ _ Hr1 Hc2) as Hc12.
  assert (Htb1 : tracked s b1) by now apply (tracked_counted _ l0).
  assert (Htb2 : tracked s b2) by now apply (tracked_counted _ b1).
  pose proof (read_char_position b1 Hokb1) as Hp1'.
  pose proof (read_char_position b2 Hokb2) as Hp2'.
  destruct Hc12 as (Hp12 & Hl12 & Hcol12 & _ & _).
  destruct Hc2 as (Hpc2 & _).
  rewrite Hp1', Hp2' in *.
  replace (S (position b2) - S (position b1))%nat
    with (position b2 - position b1)%nat by lia.
  pose proof (newlines_nonneg s (position b2 - position b1)
                (S (position b1))).
  split; [|split; [lia|split; [lia|split]]].
  - destruct (Z.eq_dec (line b2) (line b1)) as [E|E]; [right|left; lia].
    specialize (Hcol12 E). split; lia.
  - destruct Htb1 as [Hn Hr]. split; [lia|].
    intros i Hi Hc. specialize (Hr i ltac:(lia) Hc).
    replace (S (position b1) - 1 - i)%nat with (position b1 - i)%nat by lia.
    lia.
  - destruct Htb2 as [Hn Hr]. split; [lia|].
    intros i Hi Hc. specialize (Hr i ltac:(lia) Hc).
    replace (S (position b2) - 1 - i)%nat with (position b2 - i)%nat by lia.
    lia.
Qed.


(** *** The entity example *)

(** C9: the tokens of [entity Farmer { id location produce }], kind and
    payload. *)
Theorem lex_entity_farmer :
  lex_kinds "entity Farmer { id location produce }"
  = Some [ (ENTITY, VStr "entity"); (IDENTIFIER, VStr "Farmer");
           (LEFT_BRACE, VStr "{"); (IDENTIFIER, VStr "id");
           (IDENTIFIER, VStr "location"); (IDENTIFIER, VStr "produce");
           (RIGHT_BRACE, VStr "}"); (EOF, VNone) ].
Proof. vm_compute. reflexivity. Qed.

(** *** Pulling past the end *)

(** C10, as stated, fails: a NUL in the text is taken for the end of
    input, and the call after that [EOF] returns the identifier [b]. *)
Lemma EOF_then_identifier :
  ~ (forall s k tk l' j,
       pull k (init s) = inr (tk, l') -> Token.token_type tk = EOF ->
       exists tk' l'',
         pull (k + S j) (init s) = inr (tk', l'')
         /\ Token.token_type tk' = EOF).
Proof.
  intros H.
  assert (E : exists tk l' tk' l'',
             pull 0 (init (String NUL "b")) = inr (tk, l')
             /\ Token.token_type tk = EOF
             /\ pull 1 (init (String NUL "b")) = inr (tk', l'')
             /\ Token.token_type tk' = IDENTIFIER).
  { vm_compute. do 4 eexists. repeat split; reflexivity. }
  destruct E as (tk & l' & tk' & l'' & E0 & Ht & E1 & Ht').
  destruct (H _ 0%nat _ _ 0%nat E0 Ht) as (tk2 & l2 & E2 & Ht2).
  change (0 + 1)%nat with 1%nat in E2. rewrite E1 in E2.
  injection E2 as <- _. congruence.
Qed.

(** C10, amended: on a text without a NUL character, once a call of
    [next_token] has returned [EOF], every later call returns [EOF]. *)
Theorem EOF_is_stable_without_NUL s k tk l' j :
  has_nul s = false ->
  pull k (init s) = inr (tk, l') -> Token.token_type tk = EOF ->
  exists tk' l'',
    pull (k + S j) (init s) = inr (tk', l'')
    /\ Token.token_type tk' = EOF.
Proof.
  intros Hn H Ht. rewrite pull_add, H.
  destruct (pull_ok _ _ _ _ (init_ok s) H) as [Hok' Hi'].
  rewrite init_input in Hi'.
  apply pull_at_end; [exact Hok'|].
  destruct k as [|k].
  - simpl in H.
    apply (next_token_EOF_end _ _ _ (init_ok s)) in H; try assumption.
    now rewrite init_input.
  - rewrite pull_next in H.
    destruct (pull k (init s)) as [e|[t0 l0]] eqn:E0; [discriminate|].
    destruct (pull_ok _ _ _ _ (init_ok s) E0) as [Hok0 Hi0].
    rewrite init_input in Hi0.
    apply (next_token_EOF_end _ _ _ Hok0) in H; try assumption.
    now rewrite Hi0.
Qed.

End LexerClaims.

(** ** The parser claims *)

Section ParserClaims.
Import Py Parser.

(** Well-formed text is parsed: one entity with two fields and no
    diagnostic. *)
Example parse_entity_farmer (fuel : nat) :
  exists self,
    parse (S (S (S (S fuel)))) "entity Farmer { id location }"
    = Return
        (mkProgram
           [EntityDef (VStr "Farmer")
              [mkFieldDef (VStr "id"); mkFieldDef (VStr "location")]],
         [])
        self.
Proof. vm_compute. eexists. reflexivity. Qed.

(** *** A failed expectation *)

(** C1 (the code at the failing input): on ["entity"] the name is
    missing; [expect_token] records its diagnostic, its [raise] of a
    [ParseError] raises [TypeError], and the [except ParseError] clause
    of [parse_program] raises [TypeError] again: with any budget of
    iterations [parse_program] is left by an exception and returns no
    [Program]. *)
Theorem parse_program_raises_on_missing_name (fuel : nat) :
  parse (S fuel) "entity"
  = Raise TypeError_except
      [mkParseError "Expected IDENTIFIER, got EOF" 1 8 7].
Proof. vm_compute. reflexivity. Qed.

(** C2 (the code at the failing input): a rule without its [if],
    followed by a flow that parses on its own.  One diagnostic is
    recorded for the rule, but no token is skipped and no [Program] is
    returned: the exception leaves [parse_program]. *)
Theorem parse_program_does_not_recover (fuel : nat) :
  (exists self,
     parse (S (S (S fuel))) "flow F { halt }"
     = Return (mkProgram [FlowDef (VStr "F") [Action]], []) self)
  /\ parse (S fuel) "rule R : then halt flow F { halt }"
     = Raise TypeError_except [mkParseError "Expected IF, got THEN" 1 11 9].
Proof.
  vm_compute. split; [|reflexivity]. eexists. reflexivity.
Qed.

(** *** A field list that does not end *)

(** [parse_field_def] consumes nothing unless it is at an identifier, so
    the loop of [parse_entity_def] stays where it is at any other token
    than the closing brace and the end of input. *)
Lemma parse_entity_def_fields_stuck (fuel : nat) :
  forall fields self,
    is_current_token RIGHT_BRACE self = false ->
    is_at_end self = false ->
    is_current_token IDENTIFIER self = false ->
    parse_entity_def_fields fuel fields self = OutOfFuel.
Proof.
  induction fuel as [|fuel IH]; intros fields self Hb He Hi; simpl.
  - reflexivity.
  - rewrite Hb, He. simpl. unfold parse_field_def. rewrite Hi. simpl.
    now apply IH.
Qed.

(** A text whose first definition is an entity with such a token after
    the opening brace is never parsed to the end. *)
Lemma parse_stuck_in_entity (fuel : nat) s p0 p1 p2 p3 t1 t2 t3 :
  Parser.init s = inr p0 ->
  is_at_end p0 = false ->
  is_current_token ENTITY p0 = true ->
  expect_token ENTITY p0 = Return t1 p1 ->
  expect_token IDENTIFIER p1 = Return t2 p2 ->
  expect_token LEFT_BRACE p2 = Return t3 p3 ->
  is_current_token RIGHT_BRACE p3 = false ->
  is_at_end p3 = false ->
  is_current_token IDENTIFIER p3 = false ->
  parse fuel s = OutOfFuel.
Proof.
  intros Hinit He0 Hent H1 H2 H3 Hb He Hi.
  unfold parse. rewrite Hinit.
  destruct fuel as [|fuel]; [reflexivity|].
  unfold parse_program, parse_program_loop. rewrite He0.
  unfold parse_definition. rewrite Hent.
  unfold parse_entity_def. rewrite H1. cbn [bind]. rewrite H2.
  cbn [bind]. rewrite H3. cbn [bind].
  rewrite (parse_entity_def_fields_stuck fuel [] p3 Hb He Hi).
  reflexivity.
Qed.

(** C3 (the code at the failing input): on ["entity A { 1 }"] the loop
    of [parse_entity_def] meets the number and never moves: whatever the
    budget of iterations, it is used up before [parse_program] ends. *)
Theorem parse_program_diverges_on_number_field (fuel : nat) :
  parse fuel "entity A { 1 }" = OutOfFuel.
Proof.
  eapply parse_stuck_in_entity.
  - (* Parser("entity A { 1 }") *) cbv. reflexivity.
  - cbv. reflexivity.
  - cbv. reflexivity.
  - (* entity *) cbv. reflexivity.
  - (* A *) cbv. reflexivity.
  - (* the opening brace; the current token is now the number *)
    cbv. reflexivity.
  - cbv. reflexivity.
  - cbv. reflexivity.
  - cbv. reflexivity.
Qed.

End ParserClaims.

(** ** The theorems at concrete inputs *)

Section Witnesses.
Import Py Lexer LexSpec LexerFacts FrameFacts.

(** The texts of the claim, ["foo("] and ["0)"]: the cursor ends behind
    the parenthesis, which is no token of the list; a quote; and a word
    before [(bar], after which the calls return the same as on the text
    with a brace in the place of the parenthesis. *)
Lemma next_token_swallows_following_char_witness :
  (ok (init "foo(")
   /\ is_letter (ch (_skip_whitespace (init "foo("))) = true
   /\ exists tk l',
        next_token (init "foo(") = inr (tk, l')
        /\ Token.token_type tk = IDENTIFIER
        /\ Token.value tk = VStr "foo"
        /\ position l' = 4%nat)
  /\ (ok (init "0)")
      /\ isdigit (ch (_skip_whitespace (init "0)"))) = true
      /\ exists tk l',
           next_token (init "0)") = inr (tk, l')
           /\ Token.token_type tk = NUMBER
           /\ Token.value tk = VInt 0
           /\ position l' = 2%nat)
  /\ (ok (init "'x")
      /\ ch (_skip_whitespace (init "'x")) = "'"%char
      /\ exists tk l',
           next_token (init "'x") = inr (tk, l')
           /\ Token.token_type tk = ILLEGAL
           /\ Token.value tk = VStr "'"
           /\ position l' = 2%nat)
  /\ (next_token (init "foo(bar")
      = inr (Token.mk IDENTIFIER (VStr "foo") 1 1 0,
             Lexer.mk "foo(bar" 4 5 "b" 1 5)
      /\ same_from 4 "foo(bar" "foo{bar"
      /\ forall j,
           returned (pull j (Lexer.mk "foo{bar" 4 5 "b" 1 5))
           = returned (pull j (Lexer.mk "foo(bar" 4 5 "b" 1 5)))
  /\ lex_kinds "foo(" = Some [(IDENTIFIER, VStr "foo"); (EOF, VNone)]
  /\ lex_kinds "0)" = Some [(NUMBER, VInt 0); (EOF, VNone)].
Proof.
  assert (Hfoo : ok (init "foo(")) by (split; vm_compute; reflexivity).
  assert (Hnum : ok (init "0)")) by (split; vm_compute; reflexivity).
  assert (Hquo : ok (init "'x")) by (split; vm_compute; reflexivity).
  assert (Hbar : ok (init "foo(bar")) by (split; vm_compute; reflexivity).
  assert (Hl : is_letter (ch (_skip_whitespace (init "foo("))) = true)
    by (vm_compute; reflexivity).
  assert (Hd : isdigit (ch (_skip_whitespace (init "0)"))) = true)
    by (vm_compute; reflexivity).
  assert (Hq : ch (_skip_whitespace (init "'x")) = "'"%char)
    by (vm_compute; reflexivity).
  split; [|split; [|split; [|split; [|split]]]].
  - (* the word of the claim *)
    split; [exact Hfoo|]. split; [exact Hl|].
    destruct (proj1 (next_token_swallows_following_char _ Hfoo) Hl)
      as (stop & tk & l' & E & Hlt & Hrun & Hty & Hv & Hp).
    assert (Hs : stop = 3%nat).
    { apply (run_unique word_char "foo(" 0 stop 3 Hrun); try lia.
      split; [|vm_compute; reflexivity].
      intros i Hi. do 3 (destruct i as [|i]; [reflexivity|]). lia. }
    subst stop. exists tk, l'. repeat split; assumption.
  - (* the number of the claim *)
    split; [exact Hnum|]. split; [exact Hd|].
    destruct (proj1 (proj2 (next_token_swallows_following_char _ Hnum)) Hd)
      as (stop & Hlt & Hrun & Hret & _).
    assert (Hs : stop = 1%nat).
    { apply (run_unique isdigit "0)" 0 stop 1 Hrun); try lia.
      split; [|vm_compute; reflexivity].
      intros i Hi. destruct i as [|i]; [reflexivity|lia]. }
    subst stop.
    destruct Hret as (n & tk & l' & E & Hn & Hty & Hv & Hp).
    + vm_compute. reflexivity.
    + vm_compute. discriminate.
    + assert (H0 : n = 0) by (vm_compute in Hn; congruence).
      subst n. exists tk, l'. repeat split; assumption.
  - (* a quote *)
    split; [exact Hquo|]. split; [exact Hq|].
    exact (proj1 (proj2 (proj2 (next_token_swallows_following_char _ Hquo)))
             (or_intror (or_intror Hq))).
  - (* the tokens after the word do not depend on the parenthesis *)
    assert (E : next_token (init "foo(bar")
                = inr (Token.mk IDENTIFIER (VStr "foo") 1 1 0,
                       Lexer.mk "foo(bar" 4 5 "b" 1 5))
      by (vm_compute; reflexivity).
    assert (Hs : same_from 4 "foo(bar" "foo{bar").
    { split; [reflexivity|]. intros j Hj.
      do 4 (destruct j as [|j]; [lia|]). reflexivity. }
    split; [exact E|]. split; [exact Hs|]. intros j.
    exact (proj2 (proj2 (proj2 (proj2 (proj2
             (next_token_swallows_following_char _ Hbar))) _ _ E))
             "foo{bar" j Hs).
  - vm_compute. reflexivity.
  - vm_compute. reflexivity.
Defined.

(** One token of each kind: a symbol, an identifier after a blank, a
    keyword, a number, an illegal character and the end of the empty
    text. *)
Lemma token_payload_as_built_witness :
  (next_token (init "{")
   = inr (Token.mk LEFT_BRACE (VStr "{") 1 1 0, Lexer.mk "{" 1 2 NUL 1 2)
   /\ ok (init "{")
   /\ payload_as_built (Token.mk LEFT_BRACE (VStr "{") 1 1 0) = true
   /\ payload_of_text (input (init "{"))
        (position (_skip_whitespace (init "{")))
        (Token.mk LEFT_BRACE (VStr "{") 1 1 0))
  /\ (next_token (init " Farmer;")
      = inr (Token.mk IDENTIFIER (VStr "Farmer") 1 3 1,
             Lexer.mk " Farmer;" 8 9 NUL 1 10)
      /\ ok (init " Farmer;")
      /\ payload_as_built (Token.mk IDENTIFIER (VStr "Farmer") 1 3 1) = true
      /\ payload_of_text (input (init " Farmer;"))
           (position (_skip_whitespace (init " Farmer;")))
           (Token.mk IDENTIFIER (VStr "Farmer") 1 3 1))
  /\ (next_token (init "entity")
      = inr (Token.mk ENTITY (VStr "entity") 1 1 0,
             Lexer.mk "entity" 7 8 NUL 1 8)
      /\ ok (init "entity")
      /\ payload_as_built (Token.mk ENTITY (VStr "entity") 1 1 0) = true
      /\ payload_of_text (input (init "entity"))
           (position (_skip_whitespace (init "entity")))
           (Token.mk ENTITY (VStr "entity") 1 1 0))
  /\ (next_token (init "042")
      = inr (Token.mk NUMBER (VInt 42) 1 2 1, Lexer.mk "042" 4 5 NUL 1 5)
      /\ ok (init "042")
      /\ payload_as_built (Token.mk NUMBER (VInt 42) 1 2 1) = true
      /\ payload_of_text (input (init "042"))
           (position (_skip_whitespace (init "042")))
           (Token.mk NUMBER (VInt 42) 1 2 1))
  /\ (next_token (init "@")
      = inr (Token.mk ILLEGAL (VStr "@") 1 2 1, Lexer.mk "@" 2 3 NUL 1 3)
      /\ ok (init "@")
      /\ payload_as_built (Token.mk ILLEGAL (VStr "@") 1 2 1) = true
      /\ payload_of_text (input (init "@"))
           (position (_skip_whitespace (init "@")))
           (Token.mk ILLEGAL (VStr "@") 1 2 1))
  /\ (next_token (init EmptyString)
      = inr (Token.mk EOF VNone 1 1 0, Lexer.mk EmptyString 1 2 NUL 1 2)
      /\ ok (init EmptyString)
      /\ payload_as_built (Token.mk EOF VNone 1 1 0) = true
      /\ payload_of_text (input (init EmptyString))
           (position (_skip_whitespace (init EmptyString)))
           (Token.mk EOF VNone 1 1 0)).
Proof.
  assert (H1 : next_token (init "{")
               = inr (Token.mk LEFT_BRACE (VStr "{") 1 1 0,
                      Lexer.mk "{" 1 2 NUL 1 2))
    by (vm_compute; reflexivity).
  assert (H2 : next_token (init " Farmer;")
               = inr (Token.mk IDENTIFIER (VStr "Farmer") 1 3 1,
                      Lexer.mk " Farmer;" 8 9 NUL 1 10))
    by (vm_compute; reflexivity).
  assert (H3 : next_token (init "entity")
               = inr (Token.mk ENTITY (VStr "entity") 1 1 0,
                      Lexer.mk "entity" 7 8 NUL 1 8))
    by (vm_compute; reflexivity).
  assert (H4 : next_token (init "042")
               = inr (Token.mk NUMBER (VInt 42) 1 2 1,
                      Lexer.mk "042" 4 5 NUL 1 5))
    by (vm_compute; reflexivity).
  assert (H5 : next_token (init "@")
               = inr (Token.mk ILLEGAL (VStr "@") 1 2 1,
                      Lexer.mk "@" 2 3 NUL 1 3))
    by (vm_compute; reflexivity).
  assert (H6 : next_token (init EmptyString)
               = inr (Token.mk EOF VNone 1 1 0,
                      Lexer.mk EmptyString 1 2 NUL 1 2))
    by (vm_compute; reflexivity).
  assert (K1 : ok (init "{")) by (split; vm_compute; reflexivity).
  assert (K2 : ok (init " Farmer;")) by (split; vm_compute; reflexivity).
  assert (K3 : ok (init "entity")) by (split; vm_compute; reflexivity).
  assert (K4 : ok (init "042")) by (split; vm_compute; reflexivity).
  assert (K5 : ok (init "@")) by (split; vm_compute; reflexivity).
  assert (K6 : ok (init EmptyString)) by (split; vm_compute; reflexivity).
  split; [|split; [|split; [|split; [|split]]]].
  - split; [exact H1|]. split; [exact K1|]. split.
    + exact (proj1 (token_payload_as_built _ _ _ H1)).
    + exact (proj2 (token_payload_as_built _ _ _ H1) K1).
  - split; [exact H2|]. split; [exact K2|]. split.
    + exact (proj1 (token_payload_as_built _ _ _ H2)).
    + exact (proj2 (token_payload_as_built _ _ _ H2) K2).
  - split; [exact H3|]. split; [exact K3|]. split.
    + exact (proj1 (token_payload_as_built _ _ _ H3)).
    + exact (proj2 (token_payload_as_built _ _ _ H3) K3).
  - split; [exact H4|]. split; [exact K4|]. split.
    + exact (proj1 (token_payload_as_built _ _ _ H4)).
    + exact (proj2 (token_payload_as_built _ _ _ H4) K4).
  - split; [exact H5|]. split; [exact K5|]. split.
    + exact (proj1 (token_payload_as_built _ _ _ H5)).
    + exact (proj2 (token_payload_as_built _ _ _ H5) K5).
  - split; [exact H6|]. split; [exact K6|]. split.
    + exact (proj1 (token_payload_as_built _ _ _ H6)).
    + exact (proj2 (token_payload_as_built _ _ _ H6) K6).
Defined.

(** The text of the counterexample: the second brace is on line 1 at
    column 4, the third, behind the newline, on line 3 at column 1.
    The first two are on one line, at columns 1 and 4. *)
Lemma token_line_column_offset_order_witness :
  (pull 0 (init ("{ {" ++ String LF "{"))
   = inr (Token.mk LEFT_BRACE (VStr "{") 1 1 0,
          Lexer.mk ("{ {" ++ String LF "{") 1 2 " " 1 2)
   /\ pull 1 (init ("{ {" ++ String LF "{"))
      = inr (Token.mk LEFT_BRACE (VStr "{") 1 4 2,
             Lexer.mk ("{ {" ++ String LF "{") 3 4 LF 2 0)
   /\ (1 < 1 \/ (1 = 1 /\ 1 < 4))
   /\ 0 < 2
   /\ 1 + newlines ("{ {" ++ String LF "{") 1 (3 - 1) <= 1
   /\ after_newlines ("{ {" ++ String LF "{") 1
        (Token.mk LEFT_BRACE (VStr "{") 1 1 0)
   /\ after_newlines ("{ {" ++ String LF "{") 3
        (Token.mk LEFT_BRACE (VStr "{") 1 4 2))
  /\ (pull 1 (init ("{ {" ++ String LF "{"))
      = inr (Token.mk LEFT_BRACE (VStr "{") 1 4 2,
             Lexer.mk ("{ {" ++ String LF "{") 3 4 LF 2 0)
      /\ pull 2 (init ("{ {" ++ String LF "{"))
         = inr (Token.mk LEFT_BRACE (VStr "{") 3 1 4,
                Lexer.mk ("{ {" ++ String LF "{") 5 6 NUL 3 2)
      /\ (1 < 3 \/ (1 = 3 /\ 4 < 1))
      /\ 2 < 4
      /\ 1 + newlines ("{ {" ++ String LF "{") 3 (5 - 3) <= 3
      /\ after_newlines ("{ {" ++ String LF "{") 3
           (Token.mk LEFT_BRACE (VStr "{") 1 4 2)
      /\ after_newlines ("{ {" ++ String LF "{") 5
           (Token.mk LEFT_BRACE (VStr "{") 3 1 4)).
Proof.
  assert (H0 : pull 0 (init ("{ {" ++ String LF "{"))
               = inr (Token.mk LEFT_BRACE (VStr "{") 1 1 0,
                      Lexer.mk ("{ {" ++ String LF "{") 1 2 " " 1 2))
    by (vm_compute; reflexivity).
  assert (H1 : pull 1 (init ("{ {" ++ String LF "{"))
               = inr (Token.mk LEFT_BRACE (VStr "{") 1 4 2,
                      Lexer.mk ("{ {" ++ String LF "{") 3 4 LF 2 0))
    by (vm_compute; reflexivity).
  assert (H2 : pull 2 (init ("{ {" ++ String LF "{"))
               = inr (Token.mk LEFT_BRACE (VStr "{") 3 1 4,
                      Lexer.mk ("{ {" ++ String LF "{") 5 6 NUL 3 2))
    by (vm_compute; reflexivity).
  split.
  - split; [exact H0|]. split; [exact H1|].
    exact (token_line_column_offset_order _ _ _ _ _ _ H0 H1).
  - split; [exact H1|]. split; [exact H2|].
    exact (token_line_column_offset_order _ _ _ _ _ _ H1 H2).
Defined.

Lemma EOF_is_stable_without_NUL_witness :
  has_nul "a" = false
  /\ pull 1 (init "a")
     = inr (Token.mk EOF VNone 1 3 2, Lexer.mk "a" 3 4 NUL 1 4)
  /\ Token.token_type (Token.mk EOF VNone 1 3 2) = EOF
  /\ exists tk' l'',
       pull (1 + 1) (init "a") = inr (tk', l'')
       /\ Token.token_type tk' = EOF.
Proof.
  assert (Hn : has_nul "a" = false) by reflexivity.
  assert (H1 : pull 1 (init "a")
               = inr (Token.mk EOF VNone 1 3 2, Lexer.mk "a" 3 4 NUL 1 4))
    by (vm_compute; reflexivity).
  split; [exact Hn|]. split; [exact H1|]. split; [reflexivity|].
  exact (EOF_is_stable_without_NUL "a" 1 _ _ 0 Hn H1 eq_refl).
Defined.

End Witnesses.

(** ** Further properties of the lexer *)

Module MoreLexerFacts.
Import Py Lexer LexSpec MoreSpec PyFacts LexerFacts.

Lemma all_chars_index P s :
  all_chars P s = true ->
  forall i, (i < len s)%nat -> P (index s i) = true.
Proof.
  unfold index, len.
  induction s as [|c s IH]; intros H i Hi; simpl in *; [lia|].
  apply andb_true_iff in H as [Hc Hs].
  destruct i; [exact Hc|]. apply IH; [exact Hs|lia].
Qed.

(** The list [tokenize_all] builds has at most one token per character
    left, and the [EOF]. *)
Lemma tokenize_all_n_length : forall n l acc ts,
  ok l -> tokenize_all_n n l acc = Some (inr ts) ->
  (List.length ts <= List.length acc + S (len (input l) - position l))%nat.
Proof.
  induction n as [|n IH]; intros l acc ts Hok H; [discriminate|].
  simpl in H.
  destruct (next_token l) as [e|[tk l1]] eqn:E; [discriminate|].
  destruct (TokenType_eqb (Token.token_type tk) EOF) eqn:Et.
  - injection H as <-. rewrite List.length_app. simpl. lia.
  - apply TokenType_eqb_neq in Et.
    destruct (next_token_spec _ _ _ Hok E) as (Hok1 & Hi1 & Hp1 & _).
    assert (Hlt : (position l < len (input l))%nat).
    { destruct (Nat.leb_spec (len (input l)) (position l)) as [Hle|];
        [|assumption].
      rewrite (next_token_at_end l Hok Hle) in E.
      injection E as <- _. now elim Et. }
    apply (IH _ _ _ Hok1) in H. rewrite List.length_app, Hi1 in H.
    simpl in H. lia.
Qed.

Lemma classify_raises l e :
  classify l = inl e -> e = ValueError /\ isdigit (ch l) = true.
Proof.
  intros H. unfold classify in H. cascade H.
  unfold _read_number, int in *.
  repeat match goal with
    | E : match ?x with _ => _ end = _ |- _ => destruct x eqn:?
    end; try discriminate; split; congruence.
Qed.

Lemma next_token_inl l e : next_token l = inl e -> e = ValueError.
Proof.
  unfold next_token.
  destruct (classify (_skip_whitespace l)) as [e'|[tk l1]] eqn:Ec;
    [|discriminate].
  intros [= <-]. now destruct (classify_raises _ _ Ec).
Qed.

End MoreLexerFacts.

Section LexerProperties.
Import Py Lexer LexSpec MoreSpec PyFacts LexerFacts MoreLexerFacts.

(** X3: the only exception a call of [next_token] raises is the [ValueError]
    of [int], and only when the cursor, after the whitespace, is at a
    digit.  At a digit the call raises exactly when the maximal run of
    digits there has a digit that is no decimal digit or is longer than
    [int] accepts; so a text in which every digit is decimal and no run
    of digits is too long never makes it raise. *)
Theorem next_token_raises_only_ValueError l :
  ok l ->
  (forall e, next_token l = inl e ->
     e = ValueError
     /\ isdigit (ch (_skip_whitespace l)) = true
     /\ (has_odd_digit (input l) = true \/ has_long_run (input l) = true))
  /\ (isdigit (ch (_skip_whitespace l)) = true ->
      exists stop,
        (position (_skip_whitespace l) < stop)%nat
        /\ run isdigit (input l) (position (_skip_whitespace l)) stop
        /\ (next_token l = inl ValueError
            <-> all_chars decimal
                  (slice (input l) (position (_skip_whitespace l)) stop)
                = false
                \/ int_max_str_digits
                   < Z.of_nat (stop - position (_skip_whitespace l)))).
Proof.
  intros Hok. split.
  - intros e H.
    assert (Hodd : has_odd_digit (input l) = true
                   \/ has_long_run (input l) = true).
    { destruct (has_odd_digit (input l)) eqn:Ho; [now left|].
      destruct (has_long_run (input l)) eqn:Hg; [now right|].
      destruct (next_token_total l Hok Ho Hg) as (tk & l' & E).
      congruence. }
    unfold next_token in H.
    destruct (classify (_skip_whitespace l)) as [e'|[tk l1]] eqn:Ec;
      [|discriminate].
    injection H as <-.
    destruct (classify_raises _ _ Ec) as [-> Hd]. auto.
  - intros Hd.
    destruct (skip_ws_spec l Hok) as (Hok0 & Hi0 & _).
    fold (_skip_whitespace l) in Hok0, Hi0.
    set (l0 := _skip_whitespace l) in *.
    destruct (read_number_at l0 Hok0 Hd) as (Hp & Hrun & Hl & E).
    exists (position (while_ch isdigit _read_char l0)).
    rewrite <- Hi0. split; [lia|]. split; [exact Hrun|].
    unfold next_token. fold l0. rewrite (classify_digit l0 Hd).
    split.
    + intros H.
      destruct (all_chars decimal
                  (slice (input l0) (position l0)
                     (position (while_ch isdigit _read_char l0))))
        eqn:Ed; [|now left].
      right.
      destruct (Z.ltb_spec int_max_str_digits
                  (Z.of_nat (position (while_ch isdigit _read_char l0)
                             - position l0))) as [|Hle]; [assumption|].
      destruct (read_number_returns l0 Hok0 Hd Ed Hle) as (n & _ & En).
      rewrite En in H. discriminate H.
    + intros H. now rewrite (read_number_raises l0 Hok0 Hd H).
Qed.

(** X2: every call of [next_token] consumes at least one character:
    after [k + 1] calls the cursor is past offset [k], and each token is
    recorded before the cursor the call leaves. *)
Theorem pull_progress s k tk l' :
  pull k (init s) = inr (tk, l') ->
  ok l' /\ input l' = s
  /\ (k < position l')%nat
  /\ 0 <= Token.position tk < Z.of_nat (position l').
Proof.
  revert tk l'. induction k as [|k IH]; intros tk l' H.
  - simpl in H.
    destruct (next_token_spec _ _ _ (init_ok s) H)
      as (Hok & Hi & Hp & _ & Ht).
    rewrite init_input in Hi. rewrite init_position in Hp, Ht.
    repeat split; try assumption; try apply Hok; lia.
  - rewrite pull_next in H.
    destruct (pull k (init s)) as [e|[t0 l0]] eqn:E0; [discriminate|].
    destruct (IH _ _ eq_refl) as (Hok0 & Hi0 & Hp0 & _).
    destruct (next_token_spec _ _ _ Hok0 H) as (Hok & Hi & Hp & _ & Ht).
    repeat split; try apply Hok; try congruence; lia.
Qed.

(** X4: a text of [n] characters has at most [n + 1] tokens. *)
Theorem lex_token_count s ts :
  lex s = Some (inr ts) -> (List.length ts <= S (len s))%nat.
Proof.
  intros H. unfold lex, tokenize_all in H.
  apply (tokenize_all_n_length _ _ _ _ (init_ok s)) in H.
  rewrite init_input, init_position in H. simpl in H. lia.
Qed.

End LexerProperties.

Module MoreLexerFacts2.
Import Py Lexer LexSpec MoreSpec PyFacts LexerFacts MoreLexerFacts.

Lemma peek_char_at l : _peek_char l = char_at (input l) (read_position l).
Proof. reflexivity. Qed.

Lemma classify_word l tk l1 :
  classify l = inr (tk, l1) -> is_word (Token.token_type tk) = true ->
  is_letter (ch l) = true.
Proof.
  intros H Hw. unfold classify in H.
  cascade H; injection H as <- _; try discriminate Hw. reflexivity.
Qed.

Lemma classify_number l tk l1 :
  classify l = inr (tk, l1) -> Token.token_type tk = NUMBER ->
  isdigit (ch l) = true.
Proof.
  intros H Hw. unfold classify in H.
  cascade H; injection H as <- _; simpl in Hw; try discriminate Hw.
  - destruct (lookup_cases s) as [E|E]; rewrite Hw in E; discriminate E.
  - reflexivity.
Qed.

Lemma head_substring P s : forall a m,
  (a < len s)%nat ->
  head_is P (substring a (S m) s) = P (index s a).
Proof.
  unfold index, len.
  induction s as [|c s IH]; intros a m H; simpl in *; [lia|].
  destruct a; [reflexivity|]. apply IH. lia.
Qed.

Lemma unorm_nonempty d : (0 < nb_digits (unorm d))%nat.
Proof. unfold unorm. destruct (nzhead d); simpl; lia. Qed.

Lemma unorm_no_leading_zero d :
  head_is (fun c => negb (Ascii.eqb c "0")) (NilEmpty.string_of_uint d) = true ->
  unorm d = d.
Proof. destruct d; simpl; try discriminate; reflexivity. Qed.

(** The numeral of the number read: never empty, never longer than the
    text, and as long as the text when it has no leading zero. *)
Lemma int_str_length_exact s n :
  int s = inr n ->
  (0 < len (str n) <= len s)%nat
  /\ (head_is (fun c => negb (Ascii.eqb c "0")) s = true ->
      len (str n) = len s).
Proof.
  intros H. destruct (int_str_length _ _ H) as [_ Hle].
  unfold int in H. destruct s as [|c s]; [discriminate|].
  destruct (NilEmpty.uint_of_string (String c s)) as [d|] eqn:E;
    [|discriminate].
  destruct (int_max_str_digits <? _); [discriminate|].
  injection H as <-.
  assert (Hs : NilEmpty.string_of_uint d = String c s)
    by (apply NilEmpty.sus; exact E).
  assert (Hn : str (Z.of_N (N.of_uint d))
               = NilEmpty.string_of_uint (unorm d)).
  { unfold str. rewrite <- (DecimalN.Unsigned.to_of d).
    destruct (N.of_uint d); reflexivity. }
  rewrite Hn in *. unfold len in *. rewrite string_of_uint_length in *.
  pose proof (unorm_nonempty d). split; [lia|].
  intros Hh. rewrite <- Hs in Hh. rewrite (unorm_no_leading_zero d Hh).
  now rewrite <- Hs, string_of_uint_length.
Qed.

End MoreLexerFacts2.

Section LexerProperties2.
Import Py Lexer LexSpec MoreSpec PyFacts LexerFacts MoreLexerFacts.
Import MoreLexerFacts2.

(** X5: [_skip_whitespace] leaves the cursor at the first character, at or
    after the cursor, that is no whitespace; it passes nothing else. *)
Theorem skip_whitespace_stops_at_first_non_space l :
  ok l ->
  ok (_skip_whitespace l)
  /\ input (_skip_whitespace l) = input l
  /\ (position l <= position (_skip_whitespace l))%nat
  /\ run isspace (input l) (position l) (position (_skip_whitespace l)).
Proof.
  intros Hok.
  destruct (skip_ws_spec l Hok) as (H1 & H2 & H3 & _ & H5 & H6).
  unfold run. auto.
Qed.

(** X6: a symbol is lexed to its kind, carries its spelling, is recorded at
    the offset of its first character, and the call consumes the
    characters of the symbol and no other. *)
Theorem symbol_token_exact l ty n :
  ok l ->
  symbol_at (ch (_skip_whitespace l)) (_peek_char (_skip_whitespace l))
  = Some (ty, n) ->
  exists tk l',
    next_token l = inr (tk, l')
    /\ Token.token_type tk = ty
    /\ Token.value tk = VStr (symbol_text ty)
    /\ Token.position tk = Z.of_nat (position (_skip_whitespace l))
    /\ position l' = (position (_skip_whitespace l) + n)%nat.
Proof.
  intros Hok H.
  destruct (skip_ws_spec l Hok) as (Hok0 & _).
  unfold next_token. set (l0 := _skip_whitespace l) in *.
  pose proof (read_char_position l0 Hok0) as Hp1.
  pose proof (read_char_position _ (read_char_ok l0)) as Hp2.
  revert H. unfold symbol_at, classify.
  repeat match goal with
    | |- context [Ascii.eqb ?a ?b] =>
        destruct (Ascii.eqb a b) eqn:?; cbv beta iota
    end;
    intros H; try discriminate H; injection H as <- <-;
    do 2 eexists; (split; [reflexivity|]); unfold token_here; simpl;
    repeat split; try lia.
Qed.

End LexerProperties2.

Section LexerProperties3.
Import Py Lexer LexSpec MoreSpec PyFacts LexerFacts MoreLexerFacts.
Import MoreLexerFacts2.

(** On a text of whitespace only (the empty text is one), the first call
    of [next_token] returns [EOF]. *)
Lemma next_token_blank s :
  all_chars isspace s = true ->
  exists tk l',
    next_token (init s) = inr (tk, l') /\ Token.token_type tk = EOF
    /\ Token.value tk = VNone.
Proof.
  intros Hb.
  destruct (skip_ws_spec _ (init_ok s)) as (Hok0 & Hi0 & _ & _ & _ & Hex).
  rewrite init_input in Hi0, Hex.
  set (l0 := _skip_whitespace (init s)) in *.
  assert (Hend : (len s <= position l0)%nat).
  { destruct (Nat.leb_spec (len s) (position l0)) as [|Hlt]; [assumption|].
    rewrite char_at_index in Hex by exact Hlt.
    rewrite (all_chars_index _ _ Hb _ Hlt) in Hex. discriminate. }
  assert (Hch : ch l0 = NUL).
  { destruct Hok0 as [_ ->]. rewrite Hi0. now apply char_at_past. }
  unfold next_token. fold l0. rewrite (classify_at_NUL l0 Hch).
  do 2 eexists. repeat split.
Qed.

(** X7: lexing a text of whitespace only yields the [EOF] token and nothing
    else. *)
Theorem lex_blank s :
  all_chars isspace s = true -> lex_kinds s = Some [(EOF, VNone)].
Proof.
  intros Hb. destruct (next_token_blank s Hb) as (tk & l' & E & Ht & Hv).
  unfold lex_kinds, lex, tokenize_all. simpl. rewrite E, Ht. simpl.
  now rewrite Ht, Hv.
Qed.

(** X8: an identifier or keyword token carries the maximal run of letters,
    digits and underscores at the cursor: the text begins with a letter
    or an underscore, its kind is the one the keyword table gives it, and
    it is recorded at the offset of its first character. *)
Theorem word_token_text l tk l' :
  ok l -> next_token l = inr (tk, l') ->
  is_word (Token.token_type tk) = true ->
  exists s,
    Token.value tk = VStr s
    /\ Token.token_type tk = _lookup_identifier s
    /\ head_is is_letter s = true
    /\ all_chars word_char s = true
    /\ s = slice (input l) (position (_skip_whitespace l))
             (position (_skip_whitespace l) + len s)
    /\ word_char (char_at (input l) (position (_skip_whitespace l) + len s))
       = false
    /\ Token.position tk = Z.of_nat (position (_skip_whitespace l)).
Proof.
  intros Hok H Hw.
  destruct (skip_ws_spec l Hok) as (Hok0 & Hi0 & _).
  unfold next_token in H. set (l0 := _skip_whitespace l) in *.
  destruct (classify l0) as [e|[tk1 l1]] eqn:Ec; [discriminate|].
  injection H as <- _.
  pose proof (classify_word _ _ _ Ec Hw) as Hl.
  rewrite (classify_letter l0 Hl) in Ec. unfold _read_identifier in Ec.
  change (while_ch (fun c => is_letter c || isdigit c) _read_char l0)
    with (while_ch word_char _read_char l0) in Ec.
  destruct (ident_loop_spec l0 Hok0) as (Hok1 & Hi1 & Hp1 & _ & Hall & Hex).
  set (l1' := while_ch word_char _read_char l0) in *.
  injection Ec as <- _.
  assert (Hne : position l0 <> position l1').
  { intros E. destruct Hok0 as [_ Hch]. rewrite <- E, <- Hch in Hex.
    unfold word_char in Hex. rewrite Hl in Hex. discriminate. }
  assert (Hin : (position l1' <= len (input l0))%nat)
    by (apply (run_inside word_char _ (position l0));
        [reflexivity|exact Hall|lia]).
  assert (Hlen : len (slice (input l1') (position l0) (position l1'))
                 = (position l1' - position l0)%nat).
  { unfold slice. rewrite Hi1. apply substring_length. lia. }
  exists (slice (input l1') (position l0) (position l1')).
  rewrite Hlen. simpl.
  replace (position l0 + (position l1' - position l0))%nat
    with (position l1') by lia.
  rewrite <- Hi0.
  repeat split; try assumption.
  - unfold slice. rewrite Hi1.
    replace (position l1' - position l0)%nat
      with (S (position l1' - position l0 - 1)) by lia.
    rewrite head_substring by lia.
    destruct Hok0 as [_ Hch]. rewrite <- char_at_index by lia.
    now rewrite <- Hch.
  - unfold slice. rewrite Hi1. apply all_chars_substring.
    intros i Hi1' Hi2. rewrite <- char_at_index by exact Hi2.
    apply Hall. lia.
  - now rewrite Hi1.
  - lia.
Qed.

(** X9: the keyword table is exact: a text is given the kind of a keyword if
    and only if it is that keyword, letter for letter. *)
Theorem lookup_identifier_exact s ty :
  is_keyword ty = true ->
  (_lookup_identifier s = ty <-> s = keyword_text ty).
Proof.
  intros Hk. split.
  - unfold _lookup_identifier, keywords, dict_get.
    repeat match goal with
      | |- context [String.eqb s ?k] =>
          destruct (String.eqb_spec s k);
          [intros <-; subst s; reflexivity|]
      end.
    intros <-. discriminate Hk.
  - intros ->. destruct ty; try discriminate Hk; reflexivity.
Qed.

(** X10: a number token carries the value of the maximal run of digits at the
    cursor.  It is recorded inside that run, [len(str(value))] characters
    before its end: at the first digit when that is not a zero, and
    further on when the run has leading zeros. *)
Theorem number_token_offset l tk l' :
  ok l -> next_token l = inr (tk, l') ->
  Token.token_type tk = NUMBER ->
  exists n stop,
    Token.value tk = VInt n
    /\ run isdigit (input l) (position (_skip_whitespace l)) stop
    /\ int (slice (input l) (position (_skip_whitespace l)) stop) = inr n
    /\ Token.position tk = Z.of_nat stop - Z.of_nat (len (str n))
    /\ Z.of_nat (position (_skip_whitespace l)) <= Token.position tk
       < Z.of_nat stop
    /\ (ch (_skip_whitespace l) <> "0"%char ->
        Token.position tk = Z.of_nat (position (_skip_whitespace l))).
Proof.
  intros Hok H Hw.
  destruct (skip_ws_spec l Hok) as (Hok0 & Hi0 & _).
  unfold next_token in H. set (l0 := _skip_whitespace l) in *.
  destruct (classify l0) as [e|[tk1 l1]] eqn:Ec; [discriminate|].
  injection H as <- _.
  pose proof (classify_number _ _ _ Ec Hw) as Hd.
  rewrite (classify_digit l0 Hd) in Ec. unfold _read_number in Ec.
  destruct (number_loop_spec l0 Hok0) as (Hok1 & Hi1 & Hp1 & _ & Hall & Hex).
  set (l1' := while_ch isdigit _read_char l0) in *.
  destruct (int (slice (input l1') (position l0) (position l1')))
    as [e|n] eqn:Ei; [discriminate|].
  injection Ec as <- _.
  assert (Hne : position l0 <> position l1').
  { intros E. destruct Hok0 as [_ Hch]. rewrite <- E, <- Hch in Hex.
    congruence. }
  assert (Hin : (position l1' <= len (input l0))%nat)
    by (apply (run_inside isdigit _ (position l0));
        [reflexivity|exact Hall|lia]).
  rewrite Hi1 in Ei.
  assert (Hlen : len (slice (input l0) (position l0) (position l1'))
                 = (position l1' - position l0)%nat).
  { unfold slice. apply substring_length. lia. }
  destruct (int_str_length_exact _ _ Ei) as [Hb Hz].
  rewrite Hlen in Hb, Hz.
  exists n, (position l1'). rewrite <- Hi0. unfold run, token_here. simpl.
  repeat split; try assumption; try lia.
  intros Hnz. rewrite Hz; [lia|].
  unfold slice.
  replace (position l1' - position l0)%nat
    with (S (position l1' - position l0 - 1)) by lia.
  rewrite head_substring by lia.
  destruct Hok0 as [_ Hch]. rewrite <- char_at_index by lia.
  rewrite <- Hch. apply negb_true_iff. now apply Ascii.eqb_neq.
Qed.

End LexerProperties3.

(** ** Further properties of the parser *)

Module ParserFacts.
Import Py Parser LexSpec MoreSpec PyFacts LexerFacts MoreLexerFacts.

Lemma keeps_refl {A : Type} (a : A) self : keeps (errors self) (Return a self).
Proof. exists []. simpl. now rewrite List.app_nil_r. Qed.

Lemma keeps_app {A : Type} d x (r : outcome A) :
  keeps (d ++ x) r -> keeps d r.
Proof.
  unfold keeps. destruct (diagnostics_of r); [|trivial].
  intros [more ->]. exists (x ++ more)%list. now rewrite List.app_assoc.
Qed.

Lemma keeps_bind {A B : Type} d (m : outcome A) (k : A -> t -> outcome B) :
  keeps d m -> (forall a self, keeps (errors self) (k a self)) ->
  keeps d (bind m k).
Proof.
  intros Hm Hk. destruct m as [a self|e d'|]; simpl; try exact Hm.
  destruct Hm as [more Hm]. simpl in Hm.
  specialize (Hk a self). rewrite Hm in Hk. now apply keeps_app in Hk.
Qed.

(** What a returning [next_token] has done. *)
Lemma next_token_Return self u self' :
  next_token self = Return u self' ->
  Lexer.next_token (lexer self) = inr (current_token self', lexer self')
  /\ errors self' = errors self
  /\ recovery_enabled self' = recovery_enabled self.
Proof.
  unfold next_token.
  destruct (Lexer.next_token (lexer self)) as [e|[tk lx]]; [discriminate|].
  intros [= _ <-]. auto.
Qed.

Lemma next_token_Raise self e d :
  next_token self = @Raise unit e d -> e = ValueError /\ d = errors self.
Proof.
  unfold next_token.
  destruct (Lexer.next_token (lexer self)) as [e'|[tk lx]] eqn:E;
    [|discriminate].
  intros [= <- <-]. split; [|reflexivity]. exact (next_token_inl _ _ E).
Qed.

Lemma next_token_keeps self : keeps (errors self) (next_token self).
Proof.
  unfold next_token.
  destruct (Lexer.next_token (lexer self)) as [e|[tk lx]].
  - exists []. simpl. now rewrite List.app_nil_r.
  - exists []. simpl. now rewrite List.app_nil_r.
Qed.

(** What a returning [expect_token] has checked and done. *)
Lemma expect_token_Return ty self tk self' :
  expect_token ty self = Return tk self' ->
  Token.token_type (current_token self) = ty
  /\ tk = current_token self
  /\ Lexer.next_token (lexer self) = inr (current_token self', lexer self')
  /\ errors self' = errors self.
Proof.
  unfold expect_token.
  destruct (TokenType_eqb _ ty) eqn:E; [|discriminate].
  apply TokenType_eqb_eq in E.
  destruct (next_token self) as [u s1|e d|] eqn:En; simpl; try discriminate.
  intros [= <- <-]. destruct (next_token_Return _ _ _ En) as (? & ? & _).
  auto.
Qed.

Lemma expect_token_keeps ty self : keeps (errors self) (expect_token ty self).
Proof.
  unfold expect_token. destruct (TokenType_eqb _ ty).
  - apply keeps_bind; [apply next_token_keeps|]. intros. apply keeps_refl.
  - unfold raise_ParseError. simpl. eexists. reflexivity.
Qed.

(** Reduces a goal [keeps (errors self) (m self)] along the structure of
    the method. *)
Ltac keeps_tac :=
  repeat first
    [ apply keeps_refl
    | apply next_token_keeps
    | apply expect_token_keeps
    | assumption
    | match goal with
      | |- keeps _ (bind _ _) => apply keeps_bind; [|intros ? ?]
      | |- keeps _ (if ?b then _ else _) => destruct b
      | |- keeps _ (match ?x with _ => _ end) => destruct x
      | H : forall _, keeps _ _ |- _ => apply H
      | H : forall _ _, keeps _ _ |- _ => apply H
      end ].

Lemma parse_field_def_keeps self :
  keeps (errors self) (parse_field_def self).
Proof. unfold parse_field_def. keeps_tac. Qed.

Lemma parse_entity_def_fields_keeps fuel : forall fields self,
  keeps (errors self) (parse_entity_def_fields fuel fields self).
Proof.
  induction fuel as [|fuel IH]; intros fields self; simpl; [exact I|].
  destruct (_ && _); [|apply keeps_refl].
  apply keeps_bind; [apply parse_field_def_keeps|].
  intros [f|] s; apply IH.
Qed.

Lemma parse_entity_def_keeps fuel self :
  keeps (errors self) (parse_entity_def fuel self).
Proof.
  unfold parse_entity_def.
  pose proof (parse_entity_def_fields_keeps fuel). keeps_tac.
Qed.

Lemma parse_predicate_keeps self : keeps (errors self) (parse_predicate self).
Proof. unfold parse_predicate, parse_condition, parse_expression. keeps_tac. Qed.

Lemma parse_action_family_keeps fuel :
  (forall self, keeps (errors self) (parse_action fuel self))
  /\ (forall self, keeps (errors self) (parse_action_list fuel self))
  /\ (forall actions self,
        keeps (errors self) (parse_action_list_more fuel actions self)).
Proof.
  induction fuel as [|fuel (IHa & IHl & IHm)];
    [repeat split; intros; exact I|].
  pose proof parse_predicate_keeps as Hp.
  repeat split; intros; simpl;
    unfold parse_condition, parse_expression; keeps_tac.
Qed.

Lemma parse_rule_def_keeps fuel self :
  keeps (errors self) (parse_rule_def fuel self).
Proof.
  unfold parse_rule_def, parse_condition, parse_expression.
  destruct (parse_action_family_keeps fuel) as (_ & Hl & _). keeps_tac.
Qed.

Lemma parse_flow_def_keeps fuel self :
  keeps (errors self) (parse_flow_def fuel self).
Proof.
  unfold parse_flow_def.
  destruct (parse_action_family_keeps fuel) as (_ & Hl & _). keeps_tac.
Qed.

Lemma parse_constraint_def_keeps self :
  keeps (errors self) (parse_constraint_def self).
Proof.
  unfold parse_constraint_def, parse_condition, parse_expression. keeps_tac.
Qed.

Lemma parse_definition_keeps fuel self :
  keeps (errors self) (parse_definition fuel self).
Proof.
  unfold parse_definition.
  pose proof (parse_entity_def_keeps fuel) as H1.
  pose proof (parse_rule_def_keeps fuel) as H2.
  pose proof (parse_flow_def_keeps fuel) as H3.
  pose proof parse_constraint_def_keeps as H4.
  repeat match goal with
    | |- keeps _ (if ?b then _ else _) => destruct b
    end;
    try (apply keeps_bind; [auto|intros; apply keeps_refl]);
    try apply keeps_refl.
  match goal with
  | |- keeps _ (next_token ?s) => pose proof (next_token_keeps s) as Hn
  end.
  simpl in Hn. now apply keeps_app in Hn.
Qed.

Lemma try_except_keeps {A : Type} d (body : outcome A) handler :
  keeps d body -> keeps d (try_except_ParseError body handler).
Proof. destruct body; simpl; auto. Qed.

Lemma parse_program_loop_keeps fuel : forall definitions self,
  keeps (errors self) (parse_program_loop fuel definitions self).
Proof.
  induction fuel as [|fuel IH]; intros defs self; simpl; [exact I|].
  destruct (negb (is_at_end self)); [|apply keeps_refl].
  apply keeps_bind.
  - apply try_except_keeps. apply keeps_bind.
    + apply parse_definition_keeps.
    + intros. apply keeps_refl.
  - intros [defs'|] s; [apply IH|apply keeps_refl].
Qed.

End ParserFacts.

Module ParserFacts2.
Import Py Parser LexSpec MoreSpec PyFacts LexerFacts MoreLexerFacts.
Import ParserFacts.

Lemma bind_Return {A B : Type} (m : outcome A) (k : A -> t -> outcome B)
    b self' :
  bind m k = Return b self' ->
  exists a self1, m = Return a self1 /\ k a self1 = Return b self'.
Proof. destruct m; simpl; try discriminate. eauto. Qed.

(** Splits a hypothesis [bind m k = Return b s] into the steps taken. *)
Ltac bind_inv H :=
  repeat (apply bind_Return in H;
          let a := fresh "a" in let s := fresh "s" in let E := fresh "E" in
          destruct H as (a & s & E & H); cbv beta zeta in H).

(** Every token the lexer returns has the payload of its kind. *)
Lemma next_token_built l tk l' :
  Lexer.next_token l = inr (tk, l') -> payload_as_built tk = true.
Proof.
  intros H. unfold Lexer.next_token in H.
  destruct (Lexer.classify (Lexer._skip_whitespace l))
    as [e|[tk1 l1]] eqn:Ec; [discriminate|].
  injection H as <- _. unfold Lexer.classify in Ec.
  cascade Ec; injection Ec as <- _; try reflexivity.
  - unfold payload_as_built, Lexer.token_here. simpl.
    destruct (lookup_cases s) as [E|E].
    + now rewrite E.
    + destruct (Lexer._lookup_identifier s) eqn:El; try discriminate E;
        rewrite <- El; unfold TokenType_eqb;
        now destruct (TokenType_eq_dec _ _).
  - unfold Lexer._read_number in *.
    match goal with
      E : match int ?s with _ => _ end = _ |- _ =>
        destruct (int s) as [|n] eqn:Ei; [discriminate E|];
        injection E as <- _;
        destruct (int_str_length _ _ Ei) as [Hn _]
    end.
    unfold payload_as_built. simpl. now apply Z.leb_le.
Qed.

Lemma built_identifier_is_text tk :
  payload_as_built tk = true -> Token.token_type tk = IDENTIFIER ->
  is_text (Token.value tk) = true.
Proof.
  unfold payload_as_built. intros H Ht. rewrite Ht in H.
  destruct (Token.value tk); simpl in *; congruence.
Qed.

(** The token a returning [expect_token] leaves as current token comes
    from the lexer; if the next [expect_token IDENTIFIER] returns too, it
    is an identifier and carries a text. *)
Lemma expect_then_identifier ty self t1 s1 t2 s2 :
  expect_token ty self = Return t1 s1 ->
  expect_token IDENTIFIER s1 = Return t2 s2 ->
  is_text (Token.value (current_token s1)) = true.
Proof.
  intros H1 H2.
  destruct (expect_token_Return _ _ _ _ H1) as (_ & _ & Hn & _).
  destruct (expect_token_Return _ _ _ _ H2) as (Ht & _).
  apply built_identifier_is_text; [|exact Ht].
  exact (next_token_built _ _ _ Hn).
Qed.

Lemma expect_token_built ty self t1 s1 :
  expect_token ty self = Return t1 s1 ->
  payload_as_built (current_token s1) = true.
Proof.
  intros H1.
  destruct (expect_token_Return _ _ _ _ H1) as (_ & _ & Hn & _).
  exact (next_token_built _ _ _ Hn).
Qed.

Lemma parse_entity_def_fields_text fuel : forall fields self fields' self',
  payload_as_built (current_token self) = true ->
  forallb field_is_text fields = true ->
  parse_entity_def_fields fuel fields self = Return fields' self' ->
  forallb field_is_text fields' = true.
Proof.
  induction fuel as [|fuel IH]; intros fields self fields' self' Hb Hf H;
    simpl in H; [discriminate|].
  destruct (_ && _); [|now injection H as <- _].
  unfold parse_field_def in H.
  destruct (is_current_token IDENTIFIER self) eqn:Ei.
  - destruct (next_token self) as [u s1|e d|] eqn:En; simpl in H;
      try discriminate.
    destruct (next_token_Return _ _ _ En) as (Hn & _).
    apply (IH _ _ _ _ (next_token_built _ _ _ Hn)) in H; [exact H|].
    rewrite forallb_app, Hf. simpl. rewrite andb_true_r.
    apply built_identifier_is_text; [exact Hb|].
    now apply TokenType_eqb_eq.
  - simpl in H. now apply (IH _ _ _ _ Hb Hf) in H.
Qed.

Lemma parse_entity_def_names fuel self d self' :
  parse_entity_def fuel self = Return d self' -> names_are_text d = true.
Proof.
  unfold parse_entity_def. intros H. bind_inv H. injection H as <- _.
  simpl. rewrite (expect_then_identifier _ _ _ _ _ _ E E0). simpl.
  apply (parse_entity_def_fields_text fuel [] s1 a2 s2);
    [exact (expect_token_built _ _ _ _ E1)|reflexivity|exact E2].
Qed.

Lemma parse_rule_def_names fuel self d self' :
  parse_rule_def fuel self = Return d self' -> names_are_text d = true.
Proof.
  unfold parse_rule_def, parse_condition, parse_expression.
  intros H. bind_inv H. injection H as <- _.
  exact (expect_then_identifier _ _ _ _ _ _ E E0).
Qed.

Lemma parse_flow_def_names fuel self d self' :
  parse_flow_def fuel self = Return d self' -> names_are_text d = true.
Proof.
  unfold parse_flow_def. intros H. bind_inv H. injection H as <- _.
  exact (expect_then_identifier _ _ _ _ _ _ E E0).
Qed.

Lemma parse_constraint_def_names self d self' :
  parse_constraint_def self = Return d self' -> names_are_text d = true.
Proof.
  unfold parse_constraint_def, parse_condition, parse_expression.
  intros H. bind_inv H. injection H as <- _.
  exact (expect_then_identifier _ _ _ _ _ _ E E0).
Qed.

Lemma parse_definition_names fuel self d self' :
  parse_definition fuel self = Return (Some d) self' ->
  names_are_text d = true.
Proof.
  unfold parse_definition. intros H.
  repeat match type of H with
    | (if ?b then _ else _) = _ => destruct b
    end;
    try (cbv zeta in H); bind_inv H; try discriminate H;
    injection H as <- _.
  - exact (parse_entity_def_names _ _ _ _ E).
  - exact (parse_rule_def_names _ _ _ _ E).
  - exact (parse_flow_def_names _ _ _ _ E).
  - exact (parse_constraint_def_names _ _ _ E).
Qed.

(** *** Actions *)

Lemma parse_predicate_at_paren self :
  is_current_token LEFT_PAREN self = true ->
  parse_predicate self
  = Raise TypeError_raise
      (errors self
       ++ [mkParseError "Expected IDENTIFIER, got LEFT_PAREN"
             (Token.line (current_token self))
             (Token.column (current_token self))
             (Token.position (current_token self))]).
Proof.
  unfold is_current_token. intros H. apply TokenType_eqb_eq in H.
  unfold parse_predicate, expect_token, raise_ParseError.
  rewrite H. reflexivity.
Qed.

Lemma parse_action_family_bare fuel :
  (forall self a self',
     parse_action fuel self = Return (Some a) self' -> is_bare a = true)
  /\ (forall self actions self',
        parse_action_list fuel self = Return actions self' ->
        forallb is_bare actions = true)
  /\ (forall acc self actions self',
        forallb is_bare acc = true ->
        parse_action_list_more fuel acc self = Return actions self' ->
        forallb is_bare actions = true).
Proof.
  induction fuel as [|fuel (IHa & IHl & IHm)];
    [repeat split; intros; discriminate|].
  split; [|split].
  - intros self a self' H. simpl in H.
    unfold parse_condition, parse_expression in H.
    repeat match type of H with
      | (if ?b then _ else _) = _ => destruct b eqn:?
      | bind _ _ = _ =>
          apply bind_Return in H;
          let a := fresh "a" in let s := fresh "s" in let E := fresh "E" in
          destruct H as (a & s & E & H); cbv beta zeta in H
      end;
      try (injection H as <- _; reflexivity); try discriminate H.
    match goal with
    | Hp : is_current_token LEFT_PAREN ?s = true,
      E : parse_predicate ?s = Return _ _ |- _ =>
        rewrite (parse_predicate_at_paren s Hp) in E; discriminate E
    end.
  - intros self actions self' H. simpl in H.
    apply bind_Return in H. destruct H as (a & s & E & H).
    apply (IHm _ _ _ _) in H; [exact H|].
    destruct a as [a|]; simpl; [|reflexivity].
    now rewrite (IHa _ _ _ E).
  - intros acc self actions self' Hacc H. simpl in H.
    destruct (is_current_token COMMA self); [|now injection H as <- _].
    apply bind_Return in H. destruct H as (u & s & E & H). cbv beta in H.
    apply bind_Return in H. destruct H as (a & s1 & E1 & H). cbv beta in H.
    destruct a as [a|]; [|now injection H as <- _].
    apply (IHm _ _ _ _) in H; [exact H|].
    rewrite forallb_app, Hacc. simpl. now rewrite (IHa _ _ _ E1).
Qed.

Lemma parse_definition_bare fuel self d self' :
  parse_definition fuel self = Return (Some d) self' ->
  forallb is_bare (actions_of d) = true.
Proof.
  destruct (parse_action_family_bare fuel) as (_ & Hl & _).
  unfold parse_definition. intros H.
  repeat match type of H with
    | (if ?b then _ else _) = _ => destruct b
    end;
    try (cbv zeta in H); bind_inv H; try discriminate H;
    injection H as <- _.
  - unfold parse_entity_def in E. bind_inv E. now injection E as <- _.
  - unfold parse_rule_def, parse_condition, parse_expression in E.
    bind_inv E. injection E as <- _. simpl. eapply Hl; eassumption.
  - unfold parse_flow_def in E. bind_inv E. injection E as <- _. simpl.
    eapply Hl; eassumption.
  - unfold parse_constraint_def, parse_condition, parse_expression in E.
    bind_inv E. now injection E as <- _.
Qed.

(** *** The program loop *)

Lemma parse_program_loop_Forall (Q : Definition_ -> Prop) :
  (forall fuel self d self',
     parse_definition fuel self = Return (Some d) self' -> Q d) ->
  forall fuel definitions self definitions' self',
    Forall Q definitions ->
    parse_program_loop fuel definitions self = Return definitions' self' ->
    Forall Q definitions'.
Proof.
  intros HQ. induction fuel as [|fuel IH];
    intros defs self defs' self' Hd H; simpl in H; [discriminate|].
  destruct (negb (is_at_end self)); [|now injection H as <- _].
  destruct (parse_definition fuel self) as [[d|] s1|e dg|] eqn:E;
    simpl in H; try discriminate.
  - apply IH in H; [exact H|].
    apply Forall_app. split; [exact Hd|]. constructor; [|constructor].
    exact (HQ _ _ _ _ E).
  - apply IH in H; [exact H|]. now rewrite List.app_nil_r.
Qed.

Lemma parse_Forall (Q : Definition_ -> Prop) :
  (forall fuel self d self',
     parse_definition fuel self = Return (Some d) self' -> Q d) ->
  forall fuel s program errs self,
    parse fuel s = Return (program, errs) self ->
    Forall Q (definitions program).
Proof.
  intros HQ fuel s program errs self H. unfold parse in H.
  destruct (Parser.init s) as [e|p]; [discriminate|].
  bind_inv H. injection H as <- _ _.
  unfold parse_program in E. bind_inv E. injection E as <- _. simpl.
  exact (parse_program_loop_Forall Q HQ _ _ _ _ _ (Forall_nil Q) E0).
Qed.

Lemma parse_program_loop_Raise fuel : forall definitions self e d,
  parse_program_loop fuel definitions self = Raise e d ->
  e = TypeError_except.
Proof.
  induction fuel as [|fuel IH]; intros defs self e d H; simpl in H;
    [discriminate|].
  destruct (negb (is_at_end self)); [|discriminate].
  destruct (parse_definition fuel self) as [[df|] s1|e' dg|] eqn:E;
    simpl in H; try discriminate.
  - exact (IH _ _ _ _ H).
  - exact (IH _ _ _ _ H).
  - now injection H as <- _.
Qed.

End ParserFacts2.

Section ParserProperties.
Import Py Parser LexSpec MoreSpec PyFacts LexerFacts MoreLexerFacts.
Import ParserFacts ParserFacts2.

(** X12: however [parse_program] ends, the diagnostics it leaves are the ones
    the parser had, in their order, followed by the new ones: no
    diagnostic is dropped or reordered. *)
Theorem parse_program_keeps_diagnostics fuel self :
  keeps (errors self) (parse_program fuel self).
Proof.
  unfold parse_program. apply keeps_bind.
  - apply parse_program_loop_keeps.
  - intros. apply keeps_refl.
Qed.

(** X13: the exception that leaves a parse is the [TypeError] of the [except]
    clause, or the [ValueError] of the first token, raised in the
    constructor before any diagnostic: the handler of [parse_program] is
    never entered, and no other exception comes out. *)
Theorem parse_raises_only_TypeError fuel s e d :
  parse fuel s = Raise e d ->
  e = TypeError_except \/ (e = ValueError /\ d = []).
Proof.
  unfold parse, Parser.init. intros H.
  destruct (Lexer.next_token (Lexer.init s)) as [e'|[tk lx]] eqn:E.
  - injection H as <- <-. right. split; [|reflexivity].
    exact (next_token_inl _ _ E).
  - left. unfold parse_program in H.
    destruct (parse_program_loop fuel [] _) as [a s1|e1 d1|] eqn:El;
      simpl in H; try discriminate.
    injection H as <- _. exact (parse_program_loop_Raise _ _ _ _ _ El).
Qed.

(** X14: in a [Program] that is returned, the name of every definition and of
    every entity field is a text, the text of an identifier token. *)
Theorem parse_names_are_text fuel s program errs self :
  parse fuel s = Return (program, errs) self ->
  Forall (fun d => names_are_text d = true) (definitions program).
Proof. apply parse_Forall. exact parse_definition_names. Qed.

(** X15: an identifier followed by an opening parenthesis in the place of an
    action never parses: [parse_action] has consumed the identifier when
    it calls [parse_predicate], which expects it again. *)
Theorem parse_action_predicate_call_raises fuel self u self1 :
  is_current_token IDENTIFIER self = true ->
  next_token self = Return u self1 ->
  is_current_token LEFT_PAREN self1 = true ->
  parse_action (S fuel) self
  = Raise TypeError_raise
      (errors self
       ++ [mkParseError "Expected IDENTIFIER, got LEFT_PAREN"
             (Token.line (current_token self1))
             (Token.column (current_token self1))
             (Token.position (current_token self1))]).
Proof.
  intros Hi Hn Hp. simpl. rewrite Hi, Hn. simpl. rewrite Hp.
  rewrite (parse_predicate_at_paren self1 Hp). simpl.
  destruct (next_token_Return _ _ _ Hn) as (_ & -> & _). reflexivity.
Qed.

(** X16: no [Predicate] node is ever built: in a [Program] that is returned,
    every action of every rule and flow is a bare [Action]. *)
Theorem parse_actions_are_bare fuel s program errs self :
  parse fuel s = Return (program, errs) self ->
  Forall (fun d => forallb is_bare (actions_of d) = true)
    (definitions program).
Proof. apply parse_Forall. exact parse_definition_bare. Qed.

(** X17: a text of whitespace only (the empty text is one) parses to the empty
    [Program] with no diagnostic. *)
Theorem parse_blank fuel s :
  all_chars Py.isspace s = true ->
  exists self, parse (S fuel) s = Return (mkProgram [], []) self.
Proof.
  intros Hb.
  destruct (next_token_blank s Hb) as (tk & l' & E & Ht & _).
  unfold parse, Parser.init. rewrite E.
  unfold parse_program. simpl. unfold is_at_end. simpl. rewrite Ht.
  simpl. eexists. reflexivity.
Qed.

(** X18: when [skip_until] returns, the current token is [EOF] or one of the
    expected kinds, and no diagnostic has been added. *)
Theorem skip_until_stops_at_expected fuel expected self u self' :
  skip_until fuel expected self = Return u self' ->
  (is_at_end self' = true
   \/ In (Token.token_type (current_token self')) expected)
  /\ errors self' = errors self.
Proof.
  revert self. induction fuel as [|fuel IH]; intros self H; simpl in H;
    [discriminate|].
  destruct (is_at_end self) eqn:Ee; [injection H as _ <-; auto|].
  destruct (existsb _ expected) eqn:Ex.
  - injection H as _ <-. split; [right|reflexivity].
    apply existsb_exists in Ex as (ty & Hin & Ht).
    apply TokenType_eqb_eq in Ht. now rewrite Ht.
  - apply bind_Return in H. destruct H as (u1 & s1 & E & H). cbv beta in H.
    destruct (next_token_Return _ _ _ E) as (_ & He & _).
    destruct (IH _ H) as [? ?]. split; [assumption|congruence].
Qed.

(** X19: the loop of [parse_entity_def] never ends, whatever its budget
    of iterations, once the current token is none of an identifier, the
    closing brace and [EOF]: [parse_field_def] returns [None] and leaves
    the token where it is. *)
Theorem entity_field_loop_never_ends fuel fields self :
  is_current_token RIGHT_BRACE self = false ->
  is_at_end self = false ->
  is_current_token IDENTIFIER self = false ->
  parse_entity_def_fields fuel fields self = OutOfFuel.
Proof.
  intros Hb He Hi. revert fields.
  induction fuel as [|fuel IH]; intros fields; [reflexivity|].
  cbn [parse_entity_def_fields]. rewrite Hb, He.
  cbn [negb andb]. unfold parse_field_def. rewrite Hi.
  cbn [bind]. apply IH.
Qed.

End ParserProperties.

(** ** Termination of the parser *)

Module TerminationFacts.
Import Py Lexer LexSpec MoreSpec PyFacts LexerFacts MoreLexerFacts.
Import MoreLexerFacts2.

(** A token other than [EOF] comes from inside the text, and the call
    that returns it leaves the cursor at most one past the end. *)
Lemma next_token_bound l tk l' :
  ok l -> next_token l = inr (tk, l') -> Token.token_type tk <> EOF ->
  (position l' <= S (len (input l)))%nat.
Proof.
  intros Hok H Ht.
  destruct (skip_ws_spec l Hok) as (Hok0 & Hi0 & _).
  unfold next_token in H. set (l0 := _skip_whitespace l) in *.
  destruct (classify l0) as [e|[tk1 l1]] eqn:Ec; [discriminate|].
  injection H as <- <-.
  assert (Hlt : (position l0 < len (input l0))%nat).
  { destruct (Nat.leb_spec (len (input l0)) (position l0)) as [Hle|];
      [|assumption].
    destruct Hok0 as [_ Hch]. rewrite char_at_past in Hch by exact Hle.
    rewrite (classify_at_NUL l0 Hch) in Ec. injection Ec as <- _.
    now elim Ht. }
  destruct (classify_spec _ _ _ Hok0 Ec) as (Hok1 & Hi1 & _).
  rewrite (read_char_position l1 Hok1). rewrite <- Hi0.
  apply le_n_S.
  pose proof (read_char_position l0 Hok0) as Hp1.
  pose proof (run_inside word_char (input l0) (position l0)) as Hw.
  pose proof (run_inside isdigit (input l0) (position l0)) as Hd.
  destruct (ident_loop_spec l0 Hok0) as (_ & _ & Hpw & _ & Hallw & _).
  destruct (number_loop_spec l0 Hok0) as (_ & _ & Hpd & _ & Halld & _).
  specialize (Hw _ eq_refl Hallw). specialize (Hd _ eq_refl Halld).
  unfold classify in Ec.
  cascade Ec; injection Ec as _ <-; try lia.
  - unfold _read_identifier in *.
    match goal with E : (_, _) = (_, _) |- _ => injection E as _ <- end.
    change (fun c => is_letter c || isdigit c) with word_char. lia.
  - unfold _read_number in *.
    match goal with
      E : match int ?s with _ => _ end = _ |- _ =>
        destruct (int s); [discriminate E|]; injection E as _ <-
    end.
    lia.
Qed.

(** The list of [tokenize_all] is the sequence of the tokens pulled, up
    to the first [EOF]. *)
Lemma tokenize_all_n_pull : forall n l acc ts,
  tokenize_all_n n l acc = Some (inr ts) ->
  exists rest,
    ts = (acc ++ rest)%list
    /\ forall k tk l',
         pull k l = inr (tk, l') ->
         (forall j tk0 l0, (j < k)%nat -> pull j l = inr (tk0, l0) ->
                           Token.token_type tk0 <> EOF) ->
         nth_error rest k = Some tk.
Proof.
  induction n as [|n IH]; intros l acc ts H; [discriminate|]. simpl in H.
  destruct (next_token l) as [e|[tk1 l1]] eqn:E; [discriminate|].
  destruct (TokenType_eqb (Token.token_type tk1) EOF) eqn:Et.
  - injection H as <-. exists [tk1]. split; [reflexivity|].
    intros k tk l' Hk Hprev. destruct k as [|k].
    + simpl in Hk. rewrite E in Hk. now injection Hk as <- _.
    + exfalso. apply TokenType_eqb_eq in Et.
      apply (Hprev 0%nat tk1 l1); [lia| |exact Et]. exact E.
  - destruct (IH _ _ _ H) as (rest & -> & Hrest).
    exists (tk1 :: rest). split; [now rewrite <- List.app_assoc|].
    intros k tk l' Hk Hprev. destruct k as [|k].
    + simpl in Hk. rewrite E in Hk. now injection Hk as <- _.
    + simpl in Hk. rewrite E in Hk. simpl. apply (Hrest _ _ _ Hk).
      intros j tk0 l0 Hj Hp. apply (Hprev (S j) tk0 l0); [lia|].
      simpl. now rewrite E.
Qed.

End TerminationFacts.

Module TerminationFacts2.
Import Py Parser LexSpec MoreSpec PyFacts LexerFacts MoreLexerFacts.
Import ParserFacts ParserFacts2 TerminationFacts.

Lemma ends_bind {A B : Type} s n n' (m : outcome A)
    (k : A -> t -> outcome B) :
  ends s n m ->
  (forall a self, reached s self -> (left self <= n)%nat ->
                  ends s n' (k a self)) ->
  ends s n' (bind m k).
Proof.
  intros Hm Hk. destruct m as [a self|e d|]; simpl in *; auto.
  destruct Hm as [Hr Hl]. now apply Hk.
Qed.

Lemma ends_weaken {A : Type} s n n' (r : outcome A) :
  ends s n r -> (n <= n')%nat -> ends s n' r.
Proof.
  destruct r as [a self|e d|]; simpl; auto. intros [Hr Hl] Hn.
  split; [exact Hr|lia].
Qed.

Lemma current_not_end ty self :
  is_current_token ty self = true -> ty <> EOF -> is_at_end self = false.
Proof.
  unfold is_current_token, is_at_end. intros H Hty.
  apply TokenType_eqb_eq in H. apply TokenType_eqb_neq. congruence.
Qed.

Lemma reached_errors s self d :
  reached s self ->
  reached s (mk (lexer self) (current_token self) d (recovery_enabled self)).
Proof. intros H. exact H. Qed.

Lemma left_errors self d :
  left (mk (lexer self) (current_token self) d (recovery_enabled self))
  = left self.
Proof. reflexivity. Qed.

Section Reached.
Variable s : string.

Lemma reached_lexer self :
  reached s self -> ok (lexer self) /\ Lexer.input (lexer self) = s.
Proof.
  intros (k & Hk & _).
  destruct (pull_ok _ _ _ _ (init_ok s) Hk) as [Hok Hi].
  now rewrite init_input in Hi.
Qed.

(** Before [EOF] the lexer is at most one character past the end. *)
Lemma reached_left self :
  reached s self -> is_at_end self = false -> (1 <= left self)%nat.
Proof.
  intros Hr He. destruct (reached_lexer _ Hr) as [_ Hi].
  destruct Hr as (k & Hk & _).
  unfold left. rewrite He, Hi. unfold is_at_end in He.
  apply TokenType_eqb_neq in He.
  assert (Lexer.position (lexer self) <= S (len s))%nat; [|lia].
  destruct k as [|k].
  - simpl in Hk. apply (next_token_bound _ _ _ (init_ok s)) in Hk;
      [|exact He]. now rewrite init_input in Hk.
  - rewrite pull_next in Hk.
    destruct (pull k (Lexer.init s)) as [e|[t0 l0]] eqn:E0; [discriminate|].
    destruct (pull_ok _ _ _ _ (init_ok s) E0) as [Hok0 Hi0].
    rewrite init_input in Hi0.
    apply (next_token_bound _ _ _ Hok0) in Hk; [|exact He].
    now rewrite Hi0 in Hk.
Qed.

Lemma reached_next self u self' :
  reached s self -> is_at_end self = false ->
  next_token self = Return u self' ->
  reached s self' /\ (left self' <= left self - 1)%nat.
Proof.
  intros Hr He Hn.
  pose proof (reached_left _ Hr He) as Hl.
  destruct (reached_lexer _ Hr) as [Hok Hi].
  destruct (next_token_Return _ _ _ Hn) as (Hnt & _).
  destruct (next_token_spec _ _ _ Hok Hnt) as (_ & Hi' & Hp & _).
  assert (Hr' : reached s self').
  { destruct Hr as (k & Hk & Hprev). exists (S k). split.
    - rewrite pull_next, Hk. exact Hnt.
    - intros j tk l Hj Hp'. destruct (Nat.eq_dec j k) as [->|Hne].
      + rewrite Hk in Hp'. injection Hp' as <- _.
        unfold is_at_end in He. now apply TokenType_eqb_neq in He.
      + apply (Hprev j tk l); [lia|exact Hp']. }
  split; [exact Hr'|].
  unfold left at 1. destruct (is_at_end self') eqn:He'; [lia|].
  unfold left. rewrite He, Hi', Hi. lia.
Qed.

Lemma next_token_ends self :
  reached s self -> is_at_end self = false ->
  ends s (left self - 1) (next_token self).
Proof.
  intros Hr He. destruct (next_token self) as [u self'|e d|] eqn:En.
  - exact (reached_next _ _ _ Hr He En).
  - exact I.
  - unfold next_token in En.
    destruct (Lexer.next_token (lexer self)) as [e|[tk lx]]; discriminate.
Qed.

Lemma expect_token_ends ty self :
  ty <> EOF -> reached s self ->
  ends s (left self - 1) (expect_token ty self).
Proof.
  intros Hty Hr. unfold expect_token.
  destruct (TokenType_eqb _ ty) eqn:E; [|exact I].
  assert (He : is_at_end self = false)
    by (apply (current_not_end ty); assumption).
  eapply ends_bind; [exact (next_token_ends _ Hr He)|].
  intros u s1 Hr1 Hl1. simpl. auto.
Qed.

(** The three action methods end, with a budget of two iterations per
    character left. *)
Lemma parse_action_family_ends fuel : forall self,
  reached s self ->
  ((2 * left self + 1 <= fuel)%nat ->
   ends s (left self) (parse_action fuel self))
  /\ ((2 * left self + 2 <= fuel)%nat ->
      ends s (left self) (parse_action_list fuel self))
  /\ (forall acc, (2 * left self + 1 <= fuel)%nat ->
        ends s (left self) (parse_action_list_more fuel acc self)).
Proof.
  induction fuel as [|fuel IH]; intros self Hr;
    [repeat split; intros; lia|].
  split; [|split].
  - (* parse_action *)
    intros Hf. simpl.
    destruct (is_current_token IDENTIFIER self) eqn:Ei.
    { assert (He : is_at_end self = false)
        by (apply (current_not_end IDENTIFIER); [assumption|discriminate]).
      eapply ends_bind; [exact (next_token_ends _ Hr He)|].
      intros u s1 Hr1 Hl1.
      destruct (is_current_token LEFT_PAREN s1) eqn:Ep.
      - rewrite (parse_predicate_at_paren s1 Ep). exact I.
      - simpl. split; [exact Hr1|lia]. }
    destruct (is_current_token IF_ self) eqn:Eif.
    { assert (He : is_at_end self = false)
        by (apply (current_not_end IF_); [assumption|discriminate]).
      pose proof (reached_left _ Hr He) as Hl.
      eapply ends_bind; [exact (next_token_ends _ Hr He)|].
      intros u s1 Hr1 Hl1. unfold parse_condition, parse_expression.
      simpl bind.
      eapply ends_bind;
        [exact (expect_token_ends THEN s1 ltac:(discriminate) Hr1)|].
      intros t2 s2 Hr2 Hl2.
      destruct (IH s2 Hr2) as (_ & IHl2 & _).
      eapply ends_bind; [apply IHl2; lia|].
      intros a3 s3 Hr3 Hl3.
      destruct (is_current_token ELSE s3) eqn:Eel.
      - assert (He3 : is_at_end s3 = false)
          by (apply (current_not_end ELSE); [assumption|discriminate]).
        eapply ends_bind; [exact (next_token_ends _ Hr3 He3)|].
        intros u4 s4 Hr4 Hl4.
        destruct (IH s4 Hr4) as (_ & IHl4 & _).
        eapply ends_bind; [apply IHl4; lia|].
        intros a5 s5 Hr5 Hl5. simpl. split; [exact Hr5|lia].
      - simpl. split; [exact Hr3|lia]. }
    destruct (is_current_token HALT self) eqn:Eh.
    { assert (He : is_at_end self = false)
        by (apply (current_not_end HALT); [assumption|discriminate]).
      eapply ends_bind; [exact (next_token_ends _ Hr He)|].
      intros u s1 Hr1 Hl1. simpl. split; [exact Hr1|lia]. }
    simpl. split; [exact Hr|lia].
  - (* parse_action_list *)
    intros Hf. simpl.
    destruct (IH self Hr) as (IHa & _ & _).
    eapply ends_bind; [apply IHa; lia|].
    intros a s1 Hr1 Hl1.
    destruct (IH s1 Hr1) as (_ & _ & IHm).
    eapply ends_weaken; [apply IHm; lia|lia].
  - (* parse_action_list_more *)
    intros acc Hf. simpl.
    destruct (is_current_token COMMA self) eqn:Ec;
      [|simpl; split; [exact Hr|lia]].
    assert (He : is_at_end self = false)
      by (apply (current_not_end COMMA); [assumption|discriminate]).
    pose proof (reached_left _ Hr He) as Hl.
    eapply ends_bind; [exact (next_token_ends _ Hr He)|].
    intros u s1 Hr1 Hl1.
    destruct (IH s1 Hr1) as (IHa & _ & _).
    eapply ends_bind; [apply IHa; lia|].
    intros a s2 Hr2 Hl2.
    destruct a as [a|]; [|simpl; split; [exact Hr2|lia]].
    destruct (IH s2 Hr2) as (_ & _ & IHm).
    eapply ends_weaken; [apply IHm; lia|lia].
Qed.

End Reached.
End TerminationFacts2.

Module TerminationFacts3.
Import Py Parser LexSpec MoreSpec PyFacts LexerFacts MoreLexerFacts.
Import ParserFacts ParserFacts2 TerminationFacts TerminationFacts2.

Section EntityFree.
Variable s : string.
Hypothesis s_entity_free : entity_free s = true.

Lemma reached_not_entity self :
  reached s self -> is_current_token ENTITY self = false.
Proof.
  intros (k & Hk & Hprev). unfold entity_free, lex, Lexer.tokenize_all in *.
  destruct (Lexer.tokenize_all_n _ _ _) as [[e|ts]|] eqn:E;
    try discriminate.
  destruct (tokenize_all_n_pull _ _ _ _ E) as (rest & -> & Hrest).
  simpl in s_entity_free.
  apply Hrest in Hk; [|exact Hprev].
  apply nth_error_In in Hk.
  rewrite forallb_forall in s_entity_free.
  apply s_entity_free in Hk. apply negb_true_iff in Hk. exact Hk.
Qed.

Lemma parse_rule_def_ends fuel self :
  reached s self -> (2 * left self + 2 <= fuel)%nat ->
  ends s (left self - 1) (parse_rule_def fuel self).
Proof.
  intros Hr Hf. unfold parse_rule_def, parse_condition, parse_expression.
  eapply ends_bind;
    [exact (expect_token_ends s RULE self ltac:(discriminate) Hr)|].
  intros t1 s1 Hr1 Hl1. cbv zeta.
  eapply ends_bind;
    [exact (expect_token_ends s IDENTIFIER s1 ltac:(discriminate) Hr1)|].
  intros t2 s2 Hr2 Hl2.
  eapply ends_bind;
    [exact (expect_token_ends s COLON s2 ltac:(discriminate) Hr2)|].
  intros t3 s3 Hr3 Hl3.
  eapply ends_bind;
    [exact (expect_token_ends s IF_ s3 ltac:(discriminate) Hr3)|].
  intros t4 s4 Hr4 Hl4. simpl bind.
  eapply ends_bind;
    [exact (expect_token_ends s THEN s4 ltac:(discriminate) Hr4)|].
  intros t5 s5 Hr5 Hl5.
  destruct (parse_action_family_ends s fuel s5 Hr5) as (_ & Hl & _).
  eapply ends_bind; [apply Hl; lia|].
  intros a6 s6 Hr6 Hl6. simpl. split; [exact Hr6|lia].
Qed.

Lemma parse_flow_def_ends fuel self :
  reached s self -> (2 * left self + 2 <= fuel)%nat ->
  ends s (left self - 1) (parse_flow_def fuel self).
Proof.
  intros Hr Hf. unfold parse_flow_def.
  eapply ends_bind;
    [exact (expect_token_ends s FLOW self ltac:(discriminate) Hr)|].
  intros t1 s1 Hr1 Hl1. cbv zeta.
  eapply ends_bind;
    [exact (expect_token_ends s IDENTIFIER s1 ltac:(discriminate) Hr1)|].
  intros t2 s2 Hr2 Hl2.
  eapply ends_bind;
    [exact (expect_token_ends s LEFT_BRACE s2 ltac:(discriminate) Hr2)|].
  intros t3 s3 Hr3 Hl3.
  destruct (parse_action_family_ends s fuel s3 Hr3) as (_ & Hl & _).
  eapply ends_bind; [apply Hl; lia|].
  intros a4 s4 Hr4 Hl4.
  eapply ends_bind;
    [exact (expect_token_ends s RIGHT_BRACE s4 ltac:(discriminate) Hr4)|].
  intros t5 s5 Hr5 Hl5. simpl. split; [exact Hr5|lia].
Qed.

Lemma parse_constraint_def_ends self :
  reached s self ->
  ends s (left self - 1) (parse_constraint_def self).
Proof.
  intros Hr. unfold parse_constraint_def, parse_condition, parse_expression.
  eapply ends_bind;
    [exact (expect_token_ends s CONSTRAINT self ltac:(discriminate) Hr)|].
  intros t1 s1 Hr1 Hl1. cbv zeta.
  eapply ends_bind;
    [exact (expect_token_ends s IDENTIFIER s1 ltac:(discriminate) Hr1)|].
  intros t2 s2 Hr2 Hl2.
  eapply ends_bind;
    [exact (expect_token_ends s COLON s2 ltac:(discriminate) Hr2)|].
  intros t3 s3 Hr3 Hl3. simpl. split; [exact Hr3|lia].
Qed.

(** Away from [entity], every definition ends and consumes a token. *)
Lemma parse_definition_ends fuel self :
  reached s self -> is_at_end self = false ->
  (2 * left self + 2 <= fuel)%nat ->
  ends s (left self - 1) (parse_definition fuel self).
Proof.
  intros Hr He Hf. unfold parse_definition.
  rewrite (reached_not_entity self Hr).
  destruct (is_current_token RULE self).
  { eapply ends_bind; [exact (parse_rule_def_ends fuel self Hr Hf)|].
    intros d s1 Hr1 Hl1. simpl. auto. }
  destruct (is_current_token FLOW self).
  { eapply ends_bind; [exact (parse_flow_def_ends fuel self Hr Hf)|].
    intros d s1 Hr1 Hl1. simpl. auto. }
  destruct (is_current_token CONSTRAINT self).
  { eapply ends_bind; [exact (parse_constraint_def_ends self Hr)|].
    intros d s1 Hr1 Hl1. simpl. auto. }
  change (is_current_token EOF self) with (is_at_end self). rewrite He.
  cbv zeta.
  eapply ends_bind.
  - apply (next_token_ends s
             (mk (lexer self) (current_token self) _
                 (recovery_enabled self))); [exact Hr|exact He].
  - intros u s1 Hr1 Hl1. simpl. split; [exact Hr1|exact Hl1].
Qed.

Lemma parse_program_loop_ends fuel : forall definitions self,
  reached s self -> (2 * left self + 3 <= fuel)%nat ->
  ends s (left self) (parse_program_loop fuel definitions self).
Proof.
  induction fuel as [|fuel IH]; intros defs self Hr Hf; [lia|]. simpl.
  destruct (is_at_end self) eqn:He; simpl; [split; [exact Hr|lia]|].
  pose proof (reached_left s _ Hr He) as Hl.
  pose proof (parse_definition_ends fuel self Hr He ltac:(lia)) as Hd.
  destruct (parse_definition fuel self) as [d s1|e dg|]; simpl in *;
    [|exact I|contradiction].
  destruct Hd as [Hr1 Hl1].
  eapply ends_weaken; [apply IH; [exact Hr1|lia]|lia].
Qed.

End EntityFree.
End TerminationFacts3.

Section Termination.
Import Py Parser LexSpec MoreSpec PyFacts LexerFacts MoreLexerFacts.
Import ParserFacts ParserFacts2 TerminationFacts TerminationFacts2.
Import TerminationFacts3.

(** X20: the loop of [parse_entity_def] is the only one that can run
    forever:
    on a text whose token list has no [entity], a parse ends, by a return
    or by an exception, within [2 * len(text) + 7] iterations of any of
    its loops. *)
Theorem parse_terminates_without_entity s fuel :
  entity_free s = true -> (2 * len s + 7 <= fuel)%nat ->
  finished (parse fuel s) = true.
Proof.
  intros Hfree Hf. unfold parse, Parser.init.
  destruct (Lexer.next_token (Lexer.init s)) as [e|[tk lx]] eqn:E;
    [reflexivity|].
  assert (Hr : reached s (mk lx tk [] true)).
  { exists 0%nat. split; [exact E|]. intros j ? ? Hj. lia. }
  assert (Hl : (left (mk lx tk [] true) <= S (S (len s)))%nat).
  { destruct (reached_lexer s _ Hr) as [_ Hi]. unfold left.
    destruct (is_at_end _); [lia|]. rewrite Hi. lia. }
  pose proof (parse_program_loop_ends s Hfree fuel [] _ Hr ltac:(lia)) as H.
  unfold parse_program.
  destruct (parse_program_loop fuel [] _) as [a s1|e d|]; simpl in *;
    [reflexivity|reflexivity|contradiction].
Qed.

End Termination.

(** ** Texts without a word *)

Module StrayFacts.
Import Py Parser LexSpec MoreSpec PyFacts LexerFacts MoreLexerFacts.
Import MoreLexerFacts2 ParserFacts ParserFacts2.

(** Without a letter or an underscore in the text there is no identifier
    and no keyword. *)
Lemma no_word_token l tk l' :
  ok l -> all_chars not_letter (Lexer.input l) = true ->
  Lexer.next_token l = inr (tk, l') ->
  is_word (Token.token_type tk) = false.
Proof.
  intros Hok Hn H.
  destruct (is_word (Token.token_type tk)) eqn:Hw; [exfalso|reflexivity].
  destruct (skip_ws_spec l Hok) as ((_ & Hch) & Hi0 & _).
  unfold Lexer.next_token in H.
  destruct (Lexer.classify (Lexer._skip_whitespace l))
    as [e|[tk1 l1]] eqn:Ec; [discriminate|].
  injection H as <- _.
  pose proof (classify_word _ _ _ Ec Hw) as Hl.
  rewrite Hch, Hi0 in Hl. unfold char_at in Hl.
  destruct (Nat.leb_spec (len (Lexer.input l))
              (Lexer.position (Lexer._skip_whitespace l))) as [|Hlt];
    [discriminate Hl|].
  pose proof (all_chars_index _ _ Hn _ Hlt) as Hc.
  unfold not_letter in Hc. rewrite Hl in Hc. discriminate Hc.
Qed.

Lemma removelast_cons {A : Type} (a : A) l :
  l <> [] -> removelast (a :: l) = a :: removelast l.
Proof. destruct l; [congruence|reflexivity]. Qed.

(** The lexer loop and the parser loop side by side, from a lexer state
    [l] whose next token is the current token of the parser. *)
Lemma stray_tokens : forall n m l tk l' acc defs errs,
  ok l -> all_chars not_letter (Lexer.input l) = true ->
  has_odd_digit (Lexer.input l) = false ->
  has_long_run (Lexer.input l) = false ->
  Lexer.next_token l = inr (tk, l') ->
  (len (Lexer.input l) - Lexer.position l < n)%nat ->
  (len (Lexer.input l) - Lexer.position l < m)%nat ->
  exists ts self,
    ts <> []
    /\ Lexer.tokenize_all_n m l acc = Some (inr (acc ++ ts)%list)
    /\ parse_program_loop n defs (mk l' tk errs true) = Return defs self
    /\ errors self
       = (errs ++ map unexpected_token (removelast ts))%list.
Proof.
  induction n as [|n IH];
    intros m l tk l' acc defs errs Hok Hn Hodd Hlong E Hb Hm; [lia|].
  destruct m as [|m]; [lia|]. simpl. rewrite E.
  unfold is_at_end. simpl.
  destruct (TokenType_eqb (Token.token_type tk) EOF) eqn:Et; simpl.
  - exists [tk]. eexists. simpl. rewrite List.app_nil_r.
    repeat split. discriminate.
  - destruct (next_token_spec _ _ _ Hok E) as (Hok' & Hi' & Hp' & _).
    assert (Hlt : (Lexer.position l < len (Lexer.input l))%nat).
    { destruct (Nat.leb_spec (len (Lexer.input l)) (Lexer.position l))
        as [Hle|]; [|assumption].
      rewrite (next_token_at_end l Hok Hle) in E.
      injection E as <- _. discriminate Et. }
    rewrite <- Hi' in Hn, Hodd, Hlong.
    destruct (next_token_total l' Hok' Hodd Hlong) as (tk2 & l2 & E2).
    specialize (IH m l' tk2 l2 (acc ++ [tk])%list defs
                  (errs ++ [unexpected_token tk])%list Hok' Hn Hodd Hlong
                  E2).
    rewrite Hi' in IH. specialize (IH ltac:(lia) ltac:(lia)).
    destruct IH as (ts & self & Hne & Ht & Hp & He).
    exists (tk :: ts), self.
    pose proof (no_word_token _ _ _ Hok
                  ltac:(rewrite <- Hi'; exact Hn) E) as Hw.
    assert (Hk : is_keyword (Token.token_type tk) = false).
    { unfold is_word in Hw. now apply orb_false_iff in Hw as [? _]. }
    split; [discriminate|]. split; [|split].
    + rewrite Ht. now rewrite <- List.app_assoc.
    + unfold parse_definition, is_current_token. simpl.
      destruct (Token.token_type tk) eqn:Ety; try discriminate Hk;
        try discriminate Hw; try discriminate Et; simpl;
        unfold next_token; simpl; rewrite E2; simpl;
        unfold unexpected_token in Hp; rewrite Ety in Hp;
        rewrite List.app_nil_r; exact Hp.
    + rewrite He, removelast_cons by exact Hne. simpl.
      now rewrite <- List.app_assoc.
Qed.

End StrayFacts.

Section StrayProperties.
Import Py Parser LexSpec MoreSpec PyFacts LexerFacts MoreLexerFacts.
Import StrayFacts.

(** X21: a text without a letter or an underscore, whose digits are
    decimal and come in runs [int] accepts for their length, has no
    definition: the parse returns the empty [Program] and one
    [Unexpected token] diagnostic for every token before [EOF], in the
    order of the tokens and at their positions. *)
Theorem parse_text_without_words s fuel :
  all_chars not_letter s = true -> has_odd_digit s = false ->
  has_long_run s = false ->
  (len s + 2 <= fuel)%nat ->
  exists ts self,
    lex s = Some (inr ts)
    /\ parse fuel s
       = Return (mkProgram [], map unexpected_token (removelast ts)) self.
Proof.
  intros Hn Hodd Hlong Hf.
  destruct (next_token_total (Lexer.init s) (init_ok s))
    as (tk & l' & E); [now rewrite init_input..|].
  destruct (stray_tokens fuel (S (S (len s))) (Lexer.init s) tk l' [] [] []
              (init_ok s)) as (ts & self & _ & Ht & Hp & He);
    rewrite ?init_input, ?init_position; try assumption; try lia.
  exists ts, self. split; [exact Ht|].
  unfold parse, Parser.init. rewrite E. unfold parse_program.
  rewrite Hp. simpl. now rewrite He.
Qed.

End StrayProperties.

Section LexerProperties4.
Import Py Lexer LexSpec MoreSpec PyFacts LexerFacts MoreLexerFacts.
Import MoreLexerFacts2.

(** X1: how lexing a text ends: with the token list, whose last token is the
    only [EOF] in it, or -- only when the text has a digit that is no
    decimal digit, or more digits in a row than [int] accepts -- with
    the [ValueError] of [int].  The loop of [tokenize_all] is left within
    [len(text) + 2] iterations. *)
Theorem lex_outcome s :
  (exists front last,
     lex s = Some (inr (front ++ [last])%list)
     /\ Token.token_type last = EOF
     /\ Forall (fun tk => Token.token_type tk <> EOF) front)
  \/ (lex s = Some (inl ValueError)
      /\ (has_odd_digit s = true \/ has_long_run s = true)).
Proof.
  unfold lex, tokenize_all.
  pose proof (tokenize_all_n_spec (S (S (len s))) (init s) []
                (init_ok s)) as H.
  rewrite init_input, init_position in H. specialize (H ltac:(lia)).
  destruct (tokenize_all_n (S (S (len s))) (init s) []) as [[e|ts]|] eqn:E;
    [right|left|contradiction].
  - split; [|exact H]. f_equal. f_equal.
    clear H. revert E. generalize (init_ok s). generalize (init s).
    generalize (@nil Token.t). generalize (S (S (len s))).
    induction n as [|n IH]; intros acc l Hok E; [discriminate|].
    simpl in E.
    destruct (next_token l) as [e'|[tk l1]] eqn:En.
    + injection E as <-. exact (next_token_inl _ _ En).
    + destruct (TokenType_eqb _ EOF); [discriminate|].
      destruct (next_token_spec _ _ _ Hok En) as (Hok1 & _).
      exact (IH _ _ Hok1 E).
  - destruct H as (front & last & -> & Hl & Hf).
    exists front, last. simpl. auto.
Qed.

Lemma decimal_isdigit c : decimal c = true -> isdigit c = true.
Proof. unfold decimal, isdigit. now intros ->. Qed.

(** The other way round: a text made of decimal digits, more of them
    than [int] accepts, is not lexed; the first call raises. *)
Lemma lex_long_number_raises s :
  all_chars decimal s = true -> int_max_str_digits < Z.of_nat (len s) ->
  lex s = Some (inl ValueError).
Proof.
  intros Hdec Hlong.
  assert (Hpos : (0 < len s)%nat) by (unfold int_max_str_digits in Hlong; lia).
  pose proof (init_ok s) as Hok.
  assert (Hch : ch (init s) = index s 0).
  { destruct Hok as [_ ->]. rewrite init_input, init_position.
    now apply char_at_index. }
  assert (Hd : isdigit (ch (init s)) = true).
  { rewrite Hch. apply decimal_isdigit. now apply all_chars_index. }
  assert (Hsp : isspace (ch (init s)) = false).
  { revert Hd. generalize (ch (init s)).
    intros c. destruct c as [[] [] [] [] [] [] [] []]; vm_compute; congruence. }
  assert (E : next_token (init s) = inl ValueError).
  { unfold next_token. rewrite (skip_ws_nonspace _ Hsp), (classify_digit _ Hd).
    destruct (read_number_at _ Hok Hd) as (Hp & [Hall Hex] & _ & _).
    rewrite init_input, init_position in *.
    rewrite (read_number_raises _ Hok Hd); [reflexivity|]. right.
    rewrite init_position.
    set (stop := position (while_ch isdigit _read_char (init s))) in *.
    assert (len s <= stop)%nat; [|lia].
    destruct (Nat.leb_spec (len s) stop) as [|Hlt]; [assumption|].
    rewrite char_at_index in Hex by exact Hlt.
    rewrite (decimal_isdigit _ (all_chars_index _ _ Hdec _ Hlt)) in Hex.
    discriminate Hex. }
  unfold lex, tokenize_all. simpl. now rewrite E.
Qed.

Lemma classify_illegal l tk l1 :
  classify l = inr (tk, l1) -> Token.token_type tk = ILLEGAL ->
  tk = token_here ILLEGAL (VStr (one (ch l))) 0 (_read_char l)
  /\ l1 = _read_char l.
Proof.
  intros H Ht. unfold classify in H.
  cascade H; injection H as <- <-; simpl in Ht; try discriminate Ht;
    try (split; reflexivity).
  destruct (lookup_cases s) as [E|E]; rewrite Ht in E; discriminate E.
Qed.

(** X11: an [ILLEGAL] token carries the character at the cursor; it is
    recorded one character after it, and the call leaves the cursor two
    characters on. *)
Theorem illegal_token_offset l tk l' :
  ok l -> next_token l = inr (tk, l') ->
  Token.token_type tk = ILLEGAL ->
  Token.value tk = VStr (one (ch (_skip_whitespace l)))
  /\ Token.position tk = Z.of_nat (position (_skip_whitespace l)) + 1
  /\ position l' = (position (_skip_whitespace l) + 2)%nat.
Proof.
  intros Hok H Ht.
  destruct (skip_ws_spec l Hok) as (Hok0 & _).
  unfold next_token in H. set (l0 := _skip_whitespace l) in *.
  destruct (classify l0) as [e|[tk1 l1]] eqn:Ec; [discriminate|].
  injection H as <- <-.
  destruct (classify_illegal _ _ _ Ec Ht) as [-> ->].
  pose proof (read_char_position l0 Hok0) as Hp1.
  pose proof (read_char_position _ (read_char_ok l0)) as Hp2.
  unfold token_here. simpl. repeat split; lia.
Qed.

End LexerProperties4.

(** ** The further properties at concrete inputs *)

Section MoreWitnesses.
Import Py Lexer LexSpec MoreSpec.

Lemma pull_progress_witness :
  pull 1 (init "a b")
  = inr (Token.mk IDENTIFIER (VStr "b") 1 3 2, Lexer.mk "a b" 4 5 NUL 1 5)
  /\ ok (Lexer.mk "a b" 4 5 NUL 1 5)
  /\ input (Lexer.mk "a b" 4 5 NUL 1 5) = "a b"
  /\ (1 < position (Lexer.mk "a b" 4 5 NUL 1 5))%nat
  /\ 0 <= Token.position (Token.mk IDENTIFIER (VStr "b") 1 3 2)
     < Z.of_nat (position (Lexer.mk "a b" 4 5 NUL 1 5)).
Proof.
  assert (H : pull 1 (init "a b")
              = inr (Token.mk IDENTIFIER (VStr "b") 1 3 2,
                     Lexer.mk "a b" 4 5 NUL 1 5))
    by (vm_compute; reflexivity).
  split; [exact H|]. exact (pull_progress _ _ _ _ H).
Defined.

(** The superscript two: a digit, alone in its run, that [int] does not
    read. *)
Lemma next_token_raises_only_ValueError_witness :
  ok (init (String "178" EmptyString))
  /\ next_token (init (String "178" EmptyString)) = inl ValueError
  /\ (ValueError = ValueError
      /\ isdigit (ch (_skip_whitespace (init (String "178" EmptyString))))
         = true
      /\ (has_odd_digit (input (init (String "178" EmptyString))) = true
          \/ has_long_run (input (init (String "178" EmptyString))) = true))
  /\ exists stop,
       (position (_skip_whitespace (init (String "178" EmptyString)))
        < stop)%nat
       /\ run isdigit (input (init (String "178" EmptyString)))
            (position (_skip_whitespace (init (String "178" EmptyString))))
            stop
       /\ (next_token (init (String "178" EmptyString)) = inl ValueError
           <-> all_chars decimal
                 (slice (input (init (String "178" EmptyString)))
                    (position
                       (_skip_whitespace (init (String "178" EmptyString))))
                    stop)
               = false
               \/ int_max_str_digits
                  < Z.of_nat
                      (stop
                       - position
                           (_skip_whitespace
                              (init (String "178" EmptyString))))).
Proof.
  assert (Hok : ok (init (String "178" EmptyString)))
    by (split; vm_compute; reflexivity).
  assert (Hn : next_token (init (String "178" EmptyString)) = inl ValueError)
    by (vm_compute; reflexivity).
  assert (Hd : isdigit (ch (_skip_whitespace
                              (init (String "178" EmptyString)))) = true)
    by (vm_compute; reflexivity).
  split; [exact Hok|]. split; [exact Hn|]. split.
  - exact (proj1 (next_token_raises_only_ValueError _ Hok) _ Hn).
  - exact (proj2 (next_token_raises_only_ValueError _ Hok) Hd).
Defined.

Lemma lex_token_count_witness :
  lex "a"
  = Some (inr [Token.mk IDENTIFIER (VStr "a") 1 1 0;
               Token.mk EOF VNone 1 3 2])
  /\ (List.length [Token.mk IDENTIFIER (VStr "a") 1 1 0;
                   Token.mk EOF VNone 1 3 2] <= S (len "a"))%nat.
Proof.
  assert (H : lex "a"
              = Some (inr [Token.mk IDENTIFIER (VStr "a") 1 1 0;
                           Token.mk EOF VNone 1 3 2]))
    by (vm_compute; reflexivity).
  split; [exact H|]. exact (lex_token_count _ _ H).
Defined.

Lemma skip_whitespace_stops_at_first_non_space_witness :
  ok (init " a")
  /\ ok (_skip_whitespace (init " a"))
  /\ input (_skip_whitespace (init " a")) = input (init " a")
  /\ (position (init " a") <= position (_skip_whitespace (init " a")))%nat
  /\ run isspace (input (init " a")) (position (init " a"))
       (position (_skip_whitespace (init " a"))).
Proof.
  assert (Hok : ok (init " a")) by (split; vm_compute; reflexivity).
  split; [exact Hok|].
  exact (skip_whitespace_stops_at_first_non_space _ Hok).
Defined.

Lemma symbol_token_exact_witness :
  ok (init "==")
  /\ symbol_at (ch (_skip_whitespace (init "==")))
       (_peek_char (_skip_whitespace (init "==")))
     = Some (EQUAL, 2%nat)
  /\ exists tk l',
       next_token (init "==") = inr (tk, l')
       /\ Token.token_type tk = EQUAL
       /\ Token.value tk = VStr (symbol_text EQUAL)
       /\ Token.position tk
          = Z.of_nat (position (_skip_whitespace (init "==")))
       /\ position l' = (position (_skip_whitespace (init "==")) + 2)%nat.
Proof.
  assert (Hok : ok (init "==")) by (split; vm_compute; reflexivity).
  assert (Hs : symbol_at (ch (_skip_whitespace (init "==")))
                 (_peek_char (_skip_whitespace (init "==")))
               = Some (EQUAL, 2%nat))
    by (vm_compute; reflexivity).
  split; [exact Hok|]. split; [exact Hs|].
  exact (symbol_token_exact _ _ _ Hok Hs).
Defined.

Lemma lex_blank_witness :
  all_chars isspace " " = true /\ lex_kinds " " = Some [(EOF, VNone)].
Proof.
  assert (H : all_chars isspace " " = true) by reflexivity.
  split; [exact H|]. exact (lex_blank _ H).
Defined.

Lemma word_token_text_witness :
  ok (init "foo(")
  /\ next_token (init "foo(")
     = inr (Token.mk IDENTIFIER (VStr "foo") 1 1 0,
            Lexer.mk "foo(" 4 5 NUL 1 5)
  /\ is_word (Token.token_type (Token.mk IDENTIFIER (VStr "foo") 1 1 0))
     = true
  /\ exists s,
       Token.value (Token.mk IDENTIFIER (VStr "foo") 1 1 0) = VStr s
       /\ Token.token_type (Token.mk IDENTIFIER (VStr "foo") 1 1 0)
          = _lookup_identifier s
       /\ head_is is_letter s = true
       /\ all_chars word_char s = true
       /\ s = slice (input (init "foo("))
                (position (_skip_whitespace (init "foo(")))
                (position (_skip_whitespace (init "foo(")) + len s)
       /\ word_char
            (char_at (input (init "foo("))
               (position (_skip_whitespace (init "foo(")) + len s))
          = false
       /\ Token.position (Token.mk IDENTIFIER (VStr "foo") 1 1 0)
          = Z.of_nat (position (_skip_whitespace (init "foo("))).
Proof.
  assert (Hok : ok (init "foo(")) by (split; vm_compute; reflexivity).
  assert (Hn : next_token (init "foo(")
               = inr (Token.mk IDENTIFIER (VStr "foo") 1 1 0,
                      Lexer.mk "foo(" 4 5 NUL 1 5))
    by (vm_compute; reflexivity).
  split; [exact Hok|]. split; [exact Hn|]. split; [reflexivity|].
  exact (word_token_text _ _ _ Hok Hn eq_refl).
Defined.

Lemma lookup_identifier_exact_witness :
  is_keyword ENTITY = true
  /\ (_lookup_identifier "Entity" = ENTITY <-> "Entity" = keyword_text ENTITY).
Proof.
  assert (H : is_keyword ENTITY = true) by reflexivity.
  split; [exact H|]. exact (lookup_identifier_exact "Entity" ENTITY H).
Defined.

Lemma number_token_offset_witness :
  ok (init "007")
  /\ next_token (init "007")
     = inr (Token.mk NUMBER (VInt 7) 1 3 2, Lexer.mk "007" 4 5 NUL 1 5)
  /\ Token.token_type (Token.mk NUMBER (VInt 7) 1 3 2) = NUMBER
  /\ exists n stop,
       Token.value (Token.mk NUMBER (VInt 7) 1 3 2) = VInt n
       /\ run isdigit (input (init "007"))
            (position (_skip_whitespace (init "007"))) stop
       /\ int (slice (input (init "007"))
                 (position (_skip_whitespace (init "007"))) stop)
          = inr n
       /\ Token.position (Token.mk NUMBER (VInt 7) 1 3 2)
          = Z.of_nat stop - Z.of_nat (len (str n))
       /\ Z.of_nat (position (_skip_whitespace (init "007")))
          <= Token.position (Token.mk NUMBER (VInt 7) 1 3 2)
          < Z.of_nat stop
       /\ (ch (_skip_whitespace (init "007")) <> "0"%char ->
           Token.position (Token.mk NUMBER (VInt 7) 1 3 2)
           = Z.of_nat (position (_skip_whitespace (init "007")))).
Proof.
  assert (Hok : ok (init "007")) by (split; vm_compute; reflexivity).
  assert (Hn : next_token (init "007")
               = inr (Token.mk NUMBER (VInt 7) 1 3 2,
                      Lexer.mk "007" 4 5 NUL 1 5))
    by (vm_compute; reflexivity).
  split; [exact Hok|]. split; [exact Hn|]. split; [reflexivity|].
  exact (number_token_offset _ _ _ Hok Hn eq_refl).
Defined.

Lemma illegal_token_offset_witness :
  ok (init "@x")
  /\ next_token (init "@x")
     = inr (Token.mk ILLEGAL (VStr "@") 1 2 1, Lexer.mk "@x" 2 3 NUL 1 3)
  /\ Token.token_type (Token.mk ILLEGAL (VStr "@") 1 2 1) = ILLEGAL
  /\ Token.value (Token.mk ILLEGAL (VStr "@") 1 2 1)
     = VStr (one (ch (_skip_whitespace (init "@x"))))
  /\ Token.position (Token.mk ILLEGAL (VStr "@") 1 2 1)
     = Z.of_nat (position (_skip_whitespace (init "@x"))) + 1
  /\ position (Lexer.mk "@x" 2 3 NUL 1 3)
     = (position (_skip_whitespace (init "@x")) + 2)%nat.
Proof.
  assert (Hok : ok (init "@x")) by (split; vm_compute; reflexivity).
  assert (Hn : next_token (init "@x")
               = inr (Token.mk ILLEGAL (VStr "@") 1 2 1,
                      Lexer.mk "@x" 2 3 NUL 1 3))
    by (vm_compute; reflexivity).
  split; [exact Hok|]. split; [exact Hn|]. split; [reflexivity|].
  exact (illegal_token_offset _ _ _ Hok Hn eq_refl).
Defined.

End MoreWitnesses.

Section ParserWitnesses.
Import Py Parser LexSpec MoreSpec.

Lemma parse_raises_only_TypeError_witness :
  parse 1 "entity"
  = Raise TypeError_except [mkParseError "Expected IDENTIFIER, got EOF" 1 8 7]
  /\ (TypeError_except = TypeError_except
      \/ (TypeError_except = ValueError
          /\ [mkParseError "Expected IDENTIFIER, got EOF" 1 8 7] = [])).
Proof.
  assert (H : parse 1 "entity"
              = Raise TypeError_except
                  [mkParseError "Expected IDENTIFIER, got EOF" 1 8 7])
    by (vm_compute; reflexivity).
  split; [exact H|]. exact (parse_raises_only_TypeError _ _ _ _ H).
Defined.

Lemma parse_names_are_text_witness :
  parse 3 "flow F { halt }"
  = Return (mkProgram [FlowDef (VStr "F") [Action]], [])
      (mk (Lexer.mk "flow F { halt }" 16 17 NUL 1 18)
          (Token.mk EOF VNone 1 17 15) [] true)
  /\ Forall (fun d => names_are_text d = true)
       (definitions (mkProgram [FlowDef (VStr "F") [Action]])).
Proof.
  assert (H : parse 3 "flow F { halt }"
              = Return (mkProgram [FlowDef (VStr "F") [Action]], [])
                  (mk (Lexer.mk "flow F { halt }" 16 17 NUL 1 18)
                      (Token.mk EOF VNone 1 17 15) [] true))
    by (vm_compute; reflexivity).
  split; [exact H|]. exact (parse_names_are_text _ _ _ _ _ H).
Defined.

Lemma parse_actions_are_bare_witness :
  parse 3 "flow F { halt }"
  = Return (mkProgram [FlowDef (VStr "F") [Action]], [])
      (mk (Lexer.mk "flow F { halt }" 16 17 NUL 1 18)
          (Token.mk EOF VNone 1 17 15) [] true)
  /\ Forall (fun d => forallb is_bare (actions_of d) = true)
       (definitions (mkProgram [FlowDef (VStr "F") [Action]])).
Proof.
  assert (H : parse 3 "flow F { halt }"
              = Return (mkProgram [FlowDef (VStr "F") [Action]], [])
                  (mk (Lexer.mk "flow F { halt }" 16 17 NUL 1 18)
                      (Token.mk EOF VNone 1 17 15) [] true))
    by (vm_compute; reflexivity).
  split; [exact H|]. exact (parse_actions_are_bare _ _ _ _ _ H).
Defined.

(** The action [a (]: the parser is at [a], the next token is the
    parenthesis. *)
Lemma parse_action_predicate_call_raises_witness :
  is_current_token IDENTIFIER
    (mk (Lexer.mk "a (" 2 3 "(" 1 3)
        (Token.mk IDENTIFIER (VStr "a") 1 1 0) [] true) = true
  /\ next_token
       (mk (Lexer.mk "a (" 2 3 "(" 1 3)
           (Token.mk IDENTIFIER (VStr "a") 1 1 0) [] true)
     = Return tt
         (mk (Lexer.mk "a (" 3 4 NUL 1 4)
             (Token.mk LEFT_PAREN (VStr "(") 1 3 2) [] true)
  /\ is_current_token LEFT_PAREN
       (mk (Lexer.mk "a (" 3 4 NUL 1 4)
           (Token.mk LEFT_PAREN (VStr "(") 1 3 2) [] true) = true
  /\ parse_action 1
       (mk (Lexer.mk "a (" 2 3 "(" 1 3)
           (Token.mk IDENTIFIER (VStr "a") 1 1 0) [] true)
     = Raise TypeError_raise
         ([] ++ [mkParseError "Expected IDENTIFIER, got LEFT_PAREN" 1 3 2]).
Proof.
  assert (Hn : next_token
                 (mk (Lexer.mk "a (" 2 3 "(" 1 3)
                     (Token.mk IDENTIFIER (VStr "a") 1 1 0) [] true)
               = Return tt
                   (mk (Lexer.mk "a (" 3 4 NUL 1 4)
                       (Token.mk LEFT_PAREN (VStr "(") 1 3 2) [] true))
    by (vm_compute; reflexivity).
  split; [reflexivity|]. split; [exact Hn|]. split; [reflexivity|].
  exact (parse_action_predicate_call_raises 0
           (mk (Lexer.mk "a (" 2 3 "(" 1 3)
               (Token.mk IDENTIFIER (VStr "a") 1 1 0) [] true)
           tt
           (mk (Lexer.mk "a (" 3 4 NUL 1 4)
               (Token.mk LEFT_PAREN (VStr "(") 1 3 2) [] true)
           eq_refl Hn eq_refl).
Defined.

Lemma parse_blank_witness :
  all_chars isspace " " = true
  /\ exists self, parse 1 " " = Return (mkProgram [], []) self.
Proof.
  assert (H : all_chars isspace " " = true) by reflexivity.
  split; [exact H|]. exact (parse_blank 0 _ H).
Defined.

(** [1 rule]: from the number, [skip_until] stops at [rule]. *)
Lemma skip_until_stops_at_expected_witness :
  skip_until 2 [ENTITY; RULE; FLOW; CONSTRAINT]
    (mk (Lexer.mk "1 rule" 2 3 "r" 1 3) (Token.mk NUMBER (VInt 1) 1 1 0)
        [] true)
  = Return tt
      (mk (Lexer.mk "1 rule" 7 8 NUL 1 8) (Token.mk RULE (VStr "rule") 1 3 2)
          [] true)
  /\ (is_at_end
        (mk (Lexer.mk "1 rule" 7 8 NUL 1 8)
            (Token.mk RULE (VStr "rule") 1 3 2) [] true) = true
      \/ In (Token.token_type
               (current_token
                  (mk (Lexer.mk "1 rule" 7 8 NUL 1 8)
                      (Token.mk RULE (VStr "rule") 1 3 2) [] true)))
           [ENTITY; RULE; FLOW; CONSTRAINT])
  /\ errors
       (mk (Lexer.mk "1 rule" 7 8 NUL 1 8)
           (Token.mk RULE (VStr "rule") 1 3 2) [] true)
     = errors
         (mk (Lexer.mk "1 rule" 2 3 "r" 1 3)
             (Token.mk NUMBER (VInt 1) 1 1 0) [] true).
Proof.
  assert (H : skip_until 2 [ENTITY; RULE; FLOW; CONSTRAINT]
                (mk (Lexer.mk "1 rule" 2 3 "r" 1 3)
                    (Token.mk NUMBER (VInt 1) 1 1 0) [] true)
              = Return tt
                  (mk (Lexer.mk "1 rule" 7 8 NUL 1 8)
                      (Token.mk RULE (VStr "rule") 1 3 2) [] true))
    by (vm_compute; reflexivity).
  split; [exact H|]. exact (skip_until_stops_at_expected _ _ _ _ _ H).
Defined.

(** The state of the parser of [entity A { 1 }] behind the opening
    brace: the current token is the number. *)
Lemma entity_field_loop_never_ends_witness :
  is_current_token RIGHT_BRACE
    (mk (Lexer.mk "entity A { 1 }" 13 14 "}" 1 15)
        (Token.mk NUMBER (VInt 1) 1 13 11) [] true) = false
  /\ is_at_end
       (mk (Lexer.mk "entity A { 1 }" 13 14 "}" 1 15)
           (Token.mk NUMBER (VInt 1) 1 13 11) [] true) = false
  /\ is_current_token IDENTIFIER
       (mk (Lexer.mk "entity A { 1 }" 13 14 "}" 1 15)
           (Token.mk NUMBER (VInt 1) 1 13 11) [] true) = false
  /\ parse_entity_def_fields 100 []
       (mk (Lexer.mk "entity A { 1 }" 13 14 "}" 1 15)
           (Token.mk NUMBER (VInt 1) 1 13 11) [] true)
     = OutOfFuel.
Proof.
  split; [reflexivity|]. split; [reflexivity|]. split; [reflexivity|].
  exact (entity_field_loop_never_ends 100 []
           (mk (Lexer.mk "entity A { 1 }" 13 14 "}" 1 15)
               (Token.mk NUMBER (VInt 1) 1 13 11) [] true)
           eq_refl eq_refl eq_refl).
Defined.

Lemma parse_terminates_without_entity_witness :
  entity_free "rule R : then halt" = true
  /\ (2 * len "rule R : then halt" + 7 <= 43)%nat
  /\ finished (parse 43 "rule R : then halt") = true.
Proof.
  assert (H : entity_free "rule R : then halt" = true)
    by (vm_compute; reflexivity).
  assert (Hf : (2 * len "rule R : then halt" + 7 <= 43)%nat)
    by (vm_compute; lia).
  split; [exact H|]. split; [exact Hf|].
  exact (parse_terminates_without_entity _ _ H Hf).
Defined.

Lemma parse_text_without_words_witness :
  all_chars not_letter "1 {" = true
  /\ has_odd_digit "1 {" = false
  /\ has_long_run "1 {" = false
  /\ (len "1 {" + 2 <= 5)%nat
  /\ exists ts self,
       lex "1 {" = Some (inr ts)
       /\ parse 5 "1 {"
          = Return (mkProgram [], map unexpected_token (removelast ts)) self.
Proof.
  assert (H1 : all_chars not_letter "1 {" = true) by reflexivity.
  assert (H2 : has_odd_digit "1 {" = false) by reflexivity.
  assert (Hg : has_long_run "1 {" = false) by (vm_compute; reflexivity).
  assert (H3 : (len "1 {" + 2 <= 5)%nat) by (vm_compute; lia).
  split; [exact H1|]. split; [exact H2|]. split; [exact Hg|].
  split; [exact H3|].
  exact (parse_text_without_words _ _ H1 H2 Hg H3).
Defined.

End ParserWitnesses.
